(** * A shallow embedding of the ipyparallel task scheduler

    Source: [ipyparallel/controller/task_scheduler.py].  The scheduler is a
    single object whose handlers run to completion on one event loop, so it
    is modelled as a state monad over a record of its attributes.  Python
    exceptions leave the mutations made so far in place, hence every
    computation returns the state it reached together with its result. *)

From stdpp Require Import gmap strings list fin_maps.
From Stdlib Require Import ZArith Lia.

#[local] Set Warnings "-clear-no-such-hyp".
Local Open Scope Z_scope.

(** ** Identifiers *)

Abbreviation MsgId := string.
Abbreviation EngineId := string.
(** Python [Job] objects are shared between [queue], [queue_map] and
    [pending]; a [JobRef] is the identity of such an object. *)
Abbreviation JobRef := nat.

(** ** Dependency *)

(** Modelled from the spec: the class [Dependency] (module
    [ipyparallel.controller.dependency]) is imported by the scheduler but
    its source is not part of the sources at hand.  A dependency is a set
    of ids with the flags [all], [success] and [failure]; the field names
    carry a [dep_] prefix. *)
Record Dependency := {
  dep_ids : gset MsgId;
  dep_all : bool;
  dep_success : bool;
  dep_failure : bool
}.

(** [Dependency(ids, success=.., failure=.., all=..)]. *)
Definition mkDependency (ids : gset MsgId) (success failure all : bool) : Dependency :=
  {| dep_ids := ids; dep_all := all; dep_success := success; dep_failure := failure |}.

(** Truth value of a dependency, as of any Python set: it is not empty. *)
Definition dep_nonempty (d : Dependency) : bool := negb (bool_decide (dep_ids d = ∅)).

(** The pool a dependency is checked against: the completed ids when
    successes count, the failed ones when failures count. *)
Definition relevant_pool (d : Dependency) (completed failed : gset MsgId) : gset MsgId :=
  (if dep_success d then completed else ∅) ∪ (if dep_failure d then failed else ∅).

(** Modelled from the spec: [Dependency.check], the spec's met(D, C, F).
    The empty dependency is always met; with [all] every id lies in the
    relevant pool, without it at least one does. *)
Definition check (d : Dependency) (completed failed : gset MsgId) : bool :=
  if dep_nonempty d then
    if dep_all d then bool_decide (dep_ids d ⊆ relevant_pool d completed failed)
    else negb (bool_decide (dep_ids d ## relevant_pool d completed failed))
  else true.

(** Modelled from the spec: [Dependency.unreachable].  With [all], some id
    has finished outside the relevant pool; without it, every id has.  The
    empty dependency is always met, so never unreachable. *)
Definition unreachable (d : Dependency) (completed failed : gset MsgId) : bool :=
  let outside := (completed ∪ failed) ∖ relevant_pool d completed failed in
  if dep_nonempty d then
    if dep_all d then negb (bool_decide (dep_ids d ## outside))
    else bool_decide (dep_ids d ⊆ outside)
  else false.

(** [MET = Dependency([])], the shared empty dependency. *)
Definition MET : Dependency := mkDependency ∅ true false true.

(** ** Job *)

(** The fields [msg], [header] and [metadata] of the Python class only feed
    the reply envelope and are left out; [targets] is [job_targets] here
    because the scheduler has an attribute of the same name.  Times are
    integers (ticks of the clock) instead of floats. *)
Record Job := {
  msg_id : MsgId;
  raw_msg : list string;
  idents : list string;
  job_targets : gset EngineId;
  after : Dependency;
  follow : Dependency;
  timeout : option Z;
  removed : bool;
  timestamp : Z;
  timeout_id : nat;
  blacklist : gset EngineId
}.
Definition with_job_targets (v : gset EngineId) (j : Job) : Job :=
  {| msg_id := msg_id j; raw_msg := raw_msg j; idents := idents j; job_targets := v; after
     := after j; follow := follow j; timeout := timeout j; removed := removed j; timestamp
     := timestamp j; timeout_id := timeout_id j; blacklist := blacklist j |}.
Definition with_removed (v : bool) (j : Job) : Job :=
  {| msg_id := msg_id j; raw_msg := raw_msg j; idents := idents j; job_targets :=
     job_targets j; after := after j; follow := follow j; timeout := timeout j; removed :=
     v; timestamp := timestamp j; timeout_id := timeout_id j; blacklist := blacklist j |}.
Definition with_timeout_id (v : nat) (j : Job) : Job :=
  {| msg_id := msg_id j; raw_msg := raw_msg j; idents := idents j; job_targets :=
     job_targets j; after := after j; follow := follow j; timeout := timeout j; removed :=
     removed j; timestamp := timestamp j; timeout_id := v; blacklist := blacklist j |}.
Definition with_blacklist (v : gset EngineId) (j : Job) : Job :=
  {| msg_id := msg_id j; raw_msg := raw_msg j; idents := idents j; job_targets :=
     job_targets j; after := after j; follow := follow j; timeout := timeout j; removed :=
     removed j; timestamp := timestamp j; timeout_id := timeout_id j; blacklist := v |}.

(** The [dependents] property: [follow.union(after)], as a set of ids. *)
Definition dependents (j : Job) : gset MsgId := dep_ids (follow j) ∪ dep_ids (after j).

(** ** What the scheduler emits *)

Inductive ErrKind := InvalidDependency | ImpossibleDependency | TaskTimeout | EngineError.

Inductive Callback :=
| JobTimeout (r : JobRef) (tid : nat)
| StrandedTasks (uid : EngineId).

(** One constructor per send.  [Dispatch] stands for the two sends on
    [engine_stream] in [submit_task]; besides the engine it records which
    job object was sent, its fields at that moment, and the entry of [loads]
    for the engine when it was chosen, so that properties of dispatches can be stated
    on the trace. *)
Inductive Event :=
| MonIntask (raw : list string)
| Dispatch (target : EngineId) (r : JobRef) (j : Job) (load : option Z)
| TaskDestination (m : MsgId) (target : EngineId)
| ErrorReply (m : MsgId) (why : ErrKind) (ident : list string)
| MonOuttask (m : MsgId)
| Relay (client engine : string) (m : MsgId) (ok : bool)
| AddTimeout (deadline : Z) (cb : Callback).

(** ** Scheduler state *)

(** The attributes of [TaskScheduler], the store of job objects, the trace
    of everything sent so far and the number of chooser calls made (the
    choosers other than [lru] and [leastload] draw random numbers).  The
    unused attribute [clients] is left out; the logger is not part of the
    state. *)
Record State := {
  jobs : gmap JobRef Job;
  queue : list JobRef;
  queue_map : gmap MsgId JobRef;
  graph : gmap MsgId (gset MsgId);
  retries : gmap MsgId Z;
  pending : gmap EngineId (gmap MsgId JobRef);
  completed : gmap EngineId (gset MsgId);
  failed : gmap EngineId (gset MsgId);
  destinations : gmap MsgId EngineId;
  targets : list EngineId;
  loads : list Z;
  all_completed : gset MsgId;
  all_failed : gset MsgId;
  all_done : gset MsgId;
  all_ids : gset MsgId;
  trace : list Event;
  draws : nat
}.

Definition set_jobs (v : gmap JobRef Job) (s : State) : State :=
  {| jobs := v; queue := queue s; queue_map := queue_map s; graph := graph s; retries :=
     retries s; pending := pending s; completed := completed s; failed := failed s;
     destinations := destinations s; targets := targets s; loads := loads s; all_completed
     := all_completed s; all_failed := all_failed s; all_done := all_done s; all_ids :=
     all_ids s; trace := trace s; draws := draws s |}.
Definition set_queue (v : list JobRef) (s : State) : State :=
  {| jobs := jobs s; queue := v; queue_map := queue_map s; graph := graph s; retries :=
     retries s; pending := pending s; completed := completed s; failed := failed s;
     destinations := destinations s; targets := targets s; loads := loads s; all_completed
     := all_completed s; all_failed := all_failed s; all_done := all_done s; all_ids :=
     all_ids s; trace := trace s; draws := draws s |}.
Definition set_queue_map (v : gmap MsgId JobRef) (s : State) : State :=
  {| jobs := jobs s; queue := queue s; queue_map := v; graph := graph s; retries := retries
     s; pending := pending s; completed := completed s; failed := failed s; destinations :=
     destinations s; targets := targets s; loads := loads s; all_completed := all_completed
     s; all_failed := all_failed s; all_done := all_done s; all_ids := all_ids s; trace :=
     trace s; draws := draws s |}.
Definition set_graph (v : gmap MsgId (gset MsgId)) (s : State) : State :=
  {| jobs := jobs s; queue := queue s; queue_map := queue_map s; graph := v; retries :=
     retries s; pending := pending s; completed := completed s; failed := failed s;
     destinations := destinations s; targets := targets s; loads := loads s; all_completed
     := all_completed s; all_failed := all_failed s; all_done := all_done s; all_ids :=
     all_ids s; trace := trace s; draws := draws s |}.
Definition set_retries (v : gmap MsgId Z) (s : State) : State :=
  {| jobs := jobs s; queue := queue s; queue_map := queue_map s; graph := graph s; retries
     := v; pending := pending s; completed := completed s; failed := failed s; destinations
     := destinations s; targets := targets s; loads := loads s; all_completed :=
     all_completed s; all_failed := all_failed s; all_done := all_done s; all_ids := all_ids
     s; trace := trace s; draws := draws s |}.
Definition set_pending (v : gmap EngineId (gmap MsgId JobRef)) (s : State) : State :=
  {| jobs := jobs s; queue := queue s; queue_map := queue_map s; graph := graph s; retries
     := retries s; pending := v; completed := completed s; failed := failed s; destinations
     := destinations s; targets := targets s; loads := loads s; all_completed :=
     all_completed s; all_failed := all_failed s; all_done := all_done s; all_ids := all_ids
     s; trace := trace s; draws := draws s |}.
Definition set_completed (v : gmap EngineId (gset MsgId)) (s : State) : State :=
  {| jobs := jobs s; queue := queue s; queue_map := queue_map s; graph := graph s; retries
     := retries s; pending := pending s; completed := v; failed := failed s; destinations :=
     destinations s; targets := targets s; loads := loads s; all_completed := all_completed
     s; all_failed := all_failed s; all_done := all_done s; all_ids := all_ids s; trace :=
     trace s; draws := draws s |}.
Definition set_failed (v : gmap EngineId (gset MsgId)) (s : State) : State :=
  {| jobs := jobs s; queue := queue s; queue_map := queue_map s; graph := graph s; retries
     := retries s; pending := pending s; completed := completed s; failed := v; destinations
     := destinations s; targets := targets s; loads := loads s; all_completed :=
     all_completed s; all_failed := all_failed s; all_done := all_done s; all_ids := all_ids
     s; trace := trace s; draws := draws s |}.
Definition set_destinations (v : gmap MsgId EngineId) (s : State) : State :=
  {| jobs := jobs s; queue := queue s; queue_map := queue_map s; graph := graph s; retries
     := retries s; pending := pending s; completed := completed s; failed := failed s;
     destinations := v; targets := targets s; loads := loads s; all_completed :=
     all_completed s; all_failed := all_failed s; all_done := all_done s; all_ids := all_ids
     s; trace := trace s; draws := draws s |}.
Definition set_targets (v : list EngineId) (s : State) : State :=
  {| jobs := jobs s; queue := queue s; queue_map := queue_map s; graph := graph s; retries
     := retries s; pending := pending s; completed := completed s; failed := failed s;
     destinations := destinations s; targets := v; loads := loads s; all_completed :=
     all_completed s; all_failed := all_failed s; all_done := all_done s; all_ids := all_ids
     s; trace := trace s; draws := draws s |}.
Definition set_loads (v : list Z) (s : State) : State :=
  {| jobs := jobs s; queue := queue s; queue_map := queue_map s; graph := graph s; retries
     := retries s; pending := pending s; completed := completed s; failed := failed s;
     destinations := destinations s; targets := targets s; loads := v; all_completed :=
     all_completed s; all_failed := all_failed s; all_done := all_done s; all_ids := all_ids
     s; trace := trace s; draws := draws s |}.
Definition set_all_completed (v : gset MsgId) (s : State) : State :=
  {| jobs := jobs s; queue := queue s; queue_map := queue_map s; graph := graph s; retries
     := retries s; pending := pending s; completed := completed s; failed := failed s;
     destinations := destinations s; targets := targets s; loads := loads s; all_completed
     := v; all_failed := all_failed s; all_done := all_done s; all_ids := all_ids s; trace
     := trace s; draws := draws s |}.
Definition set_all_failed (v : gset MsgId) (s : State) : State :=
  {| jobs := jobs s; queue := queue s; queue_map := queue_map s; graph := graph s; retries
     := retries s; pending := pending s; completed := completed s; failed := failed s;
     destinations := destinations s; targets := targets s; loads := loads s; all_completed
     := all_completed s; all_failed := v; all_done := all_done s; all_ids := all_ids s;
     trace := trace s; draws := draws s |}.
Definition set_all_done (v : gset MsgId) (s : State) : State :=
  {| jobs := jobs s; queue := queue s; queue_map := queue_map s; graph := graph s; retries
     := retries s; pending := pending s; completed := completed s; failed := failed s;
     destinations := destinations s; targets := targets s; loads := loads s; all_completed
     := all_completed s; all_failed := all_failed s; all_done := v; all_ids := all_ids s;
     trace := trace s; draws := draws s |}.
Definition set_all_ids (v : gset MsgId) (s : State) : State :=
  {| jobs := jobs s; queue := queue s; queue_map := queue_map s; graph := graph s; retries
     := retries s; pending := pending s; completed := completed s; failed := failed s;
     destinations := destinations s; targets := targets s; loads := loads s; all_completed
     := all_completed s; all_failed := all_failed s; all_done := all_done s; all_ids := v;
     trace := trace s; draws := draws s |}.
Definition set_trace (v : list Event) (s : State) : State :=
  {| jobs := jobs s; queue := queue s; queue_map := queue_map s; graph := graph s; retries
     := retries s; pending := pending s; completed := completed s; failed := failed s;
     destinations := destinations s; targets := targets s; loads := loads s; all_completed
     := all_completed s; all_failed := all_failed s; all_done := all_done s; all_ids :=
     all_ids s; trace := v; draws := draws s |}.
Definition set_draws (v : nat) (s : State) : State :=
  {| jobs := jobs s; queue := queue s; queue_map := queue_map s; graph := graph s; retries
     := retries s; pending := pending s; completed := completed s; failed := failed s;
     destinations := destinations s; targets := targets s; loads := loads s; all_completed
     := all_completed s; all_failed := all_failed s; all_done := all_done s; all_ids :=
     all_ids s; trace := trace s; draws := v |}.


Definition initial : State :=
  {| jobs := ∅; queue := []; queue_map := ∅; graph := ∅; retries := ∅; pending := ∅;
     completed := ∅; failed := ∅; destinations := ∅; targets := []; loads := [];
     all_completed := ∅; all_failed := ∅; all_done := ∅; all_ids := ∅; trace := [];
     draws := 0%nat |}.

(** ** The monad of handlers *)

(** [BadRef] belongs to the model only: it is the result of following a
    [JobRef] that is not in the store, which no Python reference can do. *)
Inductive Exn := KeyError | IndexError | ValueError | TypeError | BadRef.

Inductive Res (A : Type) :=
| Done (a : A)
| Raised (e : Exn)
| OutOfFuel.
Arguments Done {A} a.
Arguments Raised {A} e.
Arguments OutOfFuel {A}.

Definition M (A : Type) : Type := State → State * Res A.

Global Instance M_ret : MRet M := λ A a s, (s, Done a).
Global Instance M_bind : MBind M := λ A B f m s,
  match m s with
  | (s', Done a) => f a s'
  | (s', Raised e) => (s', Raised e)
  | (s', OutOfFuel) => (s', OutOfFuel)
  end.

Definition get : M State := λ s, (s, Done s).
Definition modify (f : State → State) : M unit := λ s, (f s, Done tt).
Definition raise {A} (e : Exn) : M A := λ s, (s, Raised e).
Definition out_of_fuel {A} : M A := λ s, (s, OutOfFuel).
Definition emit (e : Event) : M unit := modify (λ s, set_trace (trace s ++ [e]) s).

(** A pure computation that may raise. *)
Definition lift {A} (x : Exn + A) : M A :=
  match x with inl e => raise e | inr a => mret a end.

(** [for x in xs: body(x)]. *)
Fixpoint for_each {A} (xs : list A) (body : A → M unit) : M unit :=
  match xs with
  | [] => mret tt
  | x :: xs' => body x;; for_each xs' body
  end.

(** The decorator [util.log_errors]: an exception is logged and dropped. *)
Definition log_errors (m : M unit) : M unit := λ s,
  match m s with
  | (s', Raised _) => (s', Done tt)
  | other => other
  end.

(** The first [try] block of [dispatch_result]: whether it went through. *)
Definition attempt (m : M unit) : M bool := λ s,
  match m s with
  | (s', Done _) => (s', Done true)
  | (s', Raised _) => (s', Done false)
  | (s', OutOfFuel) => (s', OutOfFuel)
  end.

(** Reading and writing job objects. *)
Definition deref (r : JobRef) : M Job := λ s,
  match jobs s !! r with
  | Some j => (s, Done j)
  | None => (s, Raised BadRef)
  end.

Definition update_job (r : JobRef) (f : Job → Job) : M unit :=
  modify (λ s, set_jobs (alter f r (jobs s)) s).

(** ** Chooser functions *)

(** [lru]: always the front of the line. *)
Definition lru (loads : list Z) : nat := 0%nat.

(** Index of the first occurrence of [x], as [list.index]. *)
Fixpoint index_of (x : Z) (l : list Z) : nat :=
  match l with
  | [] => 0%nat
  | y :: l' => if bool_decide (y = x) then 0%nat else S (index_of x l')
  end.

(** [leastload]: [loads.index(min(loads))]. *)
Definition leastload (loads : list Z) : nat :=
  match loads with
  | [] => 0%nat
  | x :: l' => index_of (foldr Z.min x l') loads
  end.

(** A filter whose predicate may raise, as [list(filter(p, l))]. *)
Fixpoint filter_exn {A} (p : A → Exn + bool) (l : list A) : Exn + list A :=
  match l with
  | [] => inr []
  | x :: l' =>
    match p x with
    | inl e => inl e
    | inr b =>
      match filter_exn p l' with
      | inl e => inl e
      | inr keep => inr (if b then x :: keep else keep)
      end
    end
  end.

(** [d[k]] on a dict and [l[i]] on a list. *)
Definition item {K A} `{Countable K} (m : gmap K A) (k : K) : Exn + A :=
  match m !! k with Some a => inr a | None => inl KeyError end.

Definition at_index {A} (l : list A) (i : nat) : Exn + A :=
  match l !! i with Some a => inr a | None => inl IndexError end.

(** [list.index(x)] as an option. *)
Fixpoint find_index (x : EngineId) (l : list EngineId) : option nat :=
  match l with
  | [] => None
  | y :: l' => if bool_decide (y = x) then Some 0%nat else S <$> find_index x l'
  end.

(** ** The scheduler *)

Section Scheduler.

(** Configuration: the high water mark, and the chooser [scheme].  The
    chooser gets the number of calls made before it as a first argument:
    [lru] and [leastload] ignore it, a random chooser is any function of
    it. *)
Variable hwm : Z.
Variable scheme : nat → list Z → nat.

Definition hwm_on : bool := negb (bool_decide (hwm = 0)).

(** [available_engines]: the engine indices below the high water mark. *)
Definition available_engines (s : State) : Exn + list nat :=
  let idxs := seq 0 (length (targets s)) in
  if hwm_on then
    filter_exn (λ idx, match at_index (loads s) idx with
                       | inl e => inl e
                       | inr l => inr (bool_decide (l < hwm))
                       end) idxs
  else inr idxs.

(** The filter [can_run] that [maybe_run] builds for a job. *)
Definition can_run (s : State) (j : Job) (idx : nat) : Exn + bool :=
  match (if hwm_on then
           match at_index (loads s) idx with
           | inl e => inl e
           | inr l => inr (bool_decide (l = hwm))
           end
         else inr false) with
  | inl e => inl e
  | inr true => inr false
  | inr false =>
    match at_index (targets s) idx with
    | inl e => inl e
    | inr target =>
      if bool_decide (target ∈ blacklist j) then inr false
      else if negb (bool_decide (job_targets j = ∅))
              && negb (bool_decide (target ∈ job_targets j)) then inr false
      else match item (completed s) target with
           | inl e => inl e
           | inr c =>
             match item (failed s) target with
             | inl e => inl e
             | inr f => inr (check (follow j) c f)
             end
           end
    end
  end.

(** [add_job]: count the job on the engine, then move the engine to the
    back of both lists. *)
Definition add_job (idx : nat) : M unit :=
  s ← get;
  l ← lift (at_index (loads s) idx);
  modify (set_loads (<[idx := l + 1]> (loads s)));;
  t ← lift (at_index (targets s) idx);
  modify (set_targets (delete idx (targets s) ++ [t]));;
  modify (λ s', set_loads (delete idx (loads s') ++ [l + 1]) s').

(** [finish_job]. *)
Definition finish_job (idx : nat) : M unit :=
  s ← get;
  l ← lift (at_index (loads s) idx);
  modify (set_loads (<[idx := l - 1]> (loads s))).

(** An argument [indices] counts as given when it is a non-empty list. *)
Definition given (indices : option (list nat)) : option (list nat) :=
  match indices with
  | Some (i :: l) => Some (i :: l)
  | _ => None
  end.

Definition submit_task (r : JobRef) (indices : option (list nat)) : M unit :=
  j ← deref r;
  s ← get;
  ls ← lift (match given indices with
             | Some ixs => match mapM (λ i, loads s !! i) ixs with
                           | Some ls => inr ls
                           | None => inl IndexError
                           end
             | None => inr (loads s)
             end);
  let pick := scheme (draws s) ls in
  modify (set_draws (S (draws s)));;
  idx ← lift (match given indices with
              | Some ixs => at_index ixs pick
              | None => inr pick
              end);
  target ← lift (at_index (targets s) idx);
  emit (Dispatch target r j (loads s !! idx));;
  add_job idx;;
  p ← lift (item (pending s) target);
  modify (λ s', set_pending (<[target := <[msg_id j := r]> p]> (pending s')) s');;
  emit (TaskDestination (msg_id j) target).

(** [if mid in self.graph: self.graph[mid].remove(msg_id)]; [set.remove]
    raises when the element is missing. *)
Definition graph_remove (m : MsgId) (mid : MsgId) : M unit :=
  s ← get;
  match graph s !! mid with
  | None => mret tt
  | Some g =>
    if bool_decide (m ∈ g) then modify (set_graph (<[mid := g ∖ {[m]}]> (graph s)))
    else raise KeyError
  end.

(** [fail_unreachable], with the call to [update_graph] it ends in as a
    parameter. *)
Definition fail_unreachable_with (ug : option MsgId → bool → M unit)
    (m : MsgId) (why : ErrKind) : M unit :=
  s ← get;
  match queue_map s !! m with
  | None => mret tt
  | Some r =>
    modify (set_queue_map (delete m (queue_map s)));;
    j ← deref r;
    update_job r (with_removed true);;
    for_each (elements (dependents j)) (graph_remove m);;
    modify (λ s', set_all_done ({[m]} ∪ all_done s') s');;
    modify (λ s', set_all_failed ({[m]} ∪ all_failed s') s');;
    emit (ErrorReply m why (idents j));;
    emit (MonOuttask m);;
    ug (Some m) false
  end.

(** The engines on which the ids of [ms] ran: [self.destinations[m]] for
    each of them. *)
Fixpoint dests_of (dest : gmap MsgId EngineId) (ms : list MsgId) : Exn + gset EngineId :=
  match ms with
  | [] => inr ∅
  | m :: ms' =>
    match item dest m with
    | inl e => inl e
    | inr d =>
      match dests_of dest ms' with
      | inl e => inl e
      | inr ds => inr ({[d]} ∪ ds)
      end
    end
  end.

Definition follow_dests (s : State) (j : Job) : Exn + gset EngineId :=
  dests_of (destinations s)
    (elements (dep_ids (follow j)
               ∩ relevant_pool (follow j) (all_completed s) (all_failed s))).

Definition set_nonempty (x : gset EngineId) : bool := negb (bool_decide (x = ∅)).

(** [maybe_run]. *)
Definition maybe_run_with (ug : option MsgId → bool → M unit) (r : JobRef) : M bool :=
  j ← deref r;
  s ← get;
  available ← lift (available_engines s);
  match available with
  | [] => mret false
  | _ :: _ =>
    if dep_nonempty (follow j) || set_nonempty (job_targets j)
       || set_nonempty (blacklist j) || hwm_on
    then
      indices ← lift (filter_exn (can_run s j) available);
      match indices with
      | [] =>
        failed_follow ←
          (if dep_all (follow j) then
             dests ← lift (follow_dests s j);
             if bool_decide (1 < size dests)%nat then
               modify (set_queue_map (<[msg_id j := r]> (queue_map s)));;
               fail_unreachable_with ug (msg_id j) ImpossibleDependency;;
               mret true
             else mret false
           else mret false);
        if failed_follow : bool then mret false
        else if set_nonempty (job_targets j) then
          let remaining := job_targets j ∖ blacklist j in
          update_job r (with_job_targets remaining);;
          if bool_decide (remaining = ∅)
             || bool_decide (remaining ∩ list_to_set (targets s) = ∅)
          then
            modify (λ s', set_queue_map (<[msg_id j := r]> (queue_map s')) s');;
            fail_unreachable_with ug (msg_id j) ImpossibleDependency;;
            mret false
          else mret false
        else mret false
      | _ :: _ => submit_task r (Some indices);; mret true
      end
    else submit_task r None;; mret true
  end.

(** [sorted(jobs)]: jobs compare by [timestamp]; the sort is stable. *)
Fixpoint insert_job (x : JobRef * Job) (l : list (JobRef * Job)) : list (JobRef * Job) :=
  match l with
  | [] => [x]
  | y :: l' =>
    if bool_decide (timestamp x.2 < timestamp y.2) then x :: y :: l'
    else y :: insert_job x l'
  end.

Definition sorted_jobs (l : list (JobRef * Job)) : list (JobRef * Job) :=
  foldl (λ acc x, insert_job x acc) [] l.

(** The [while jobs:] loop of [update_graph].  [local] is [None] when
    [jobs] is [self.queue] itself, which the calls made by the loop body
    may change, and the deque built from the graph otherwise.  The result
    is [to_restore]. *)
Fixpoint ug_loop (ug : option MsgId → bool → M unit) (k : nat)
    (local : option (list JobRef)) (to_restore : list JobRef) : M (list JobRef) :=
  match k with
  | O => out_of_fuel
  | S k' =>
    s ← get;
    match default (queue s) local with
    | [] => mret to_restore
    | r :: rest =>
      (if local is None then modify (set_queue rest) else mret tt);;
      let local' := (λ _, rest) <$> local in
      let kept := if local is None then to_restore ++ [r] else to_restore in
      j ← deref r;
      if removed j then ug_loop ug k' local' to_restore
      else
        s1 ← get;
        if unreachable (after j) (all_completed s1) (all_failed s1)
           || unreachable (follow j) (all_completed s1) (all_failed s1)
        then
          fail_unreachable_with ug (msg_id j) ImpossibleDependency;;
          ug_loop ug k' local' to_restore
        else if check (after j) (all_completed s1) (all_failed s1) then
          ran ← maybe_run_with ug r;
          if ran : bool then
            s2 ← get;
            _ ← lift (item (queue_map s2) (msg_id j));
            modify (set_queue_map (delete (msg_id j) (queue_map s2)));;
            for_each (elements (dependents j)) (graph_remove (msg_id j));;
            s3 ← get;
            available ← lift (available_engines s3);
            if available is [] then mret to_restore
            else ug_loop ug k' local' to_restore
          else ug_loop ug k' local' kept
        else ug_loop ug k' local' kept
    end
  end.

(** [update_graph].  Each call and each turn of the loop takes one unit of
    fuel. *)
Fixpoint update_graph (fuel : nat) (dep_id : option MsgId) (success : bool) : M unit :=
  match fuel with
  | O => out_of_fuel
  | S n =>
    s ← get;
    let msg_ids : gset MsgId :=
      match dep_id with
      | Some d => default ∅ (graph s !! d)
      | None => ∅
      end in
    (if dep_id is Some d then modify (set_graph (delete d (graph s))) else mret tt);;
    let using_queue :=
      bool_decide (dep_id = None)
      || (hwm_on && existsb (λ load, bool_decide (load = hwm - 1)) (loads s)) in
    local ← (if using_queue then mret None
             else
               refs ← lift (match mapM (λ m, queue_map s !! m) (elements msg_ids) with
                            | Some refs => inr refs
                            | None => inl KeyError
                            end);
               js ← lift (match mapM (λ r, pair r <$> jobs s !! r) refs with
                          | Some js => inr js
                          | None => inl BadRef
                          end);
               mret (Some (fst <$> sorted_jobs js)));
    to_restore ← ug_loop (update_graph n) n local [];
    if using_queue then modify (λ s', set_queue (reverse to_restore ++ queue s') s')
    else mret tt
  end.

Definition fail_unreachable (fuel : nat) : MsgId → ErrKind → M unit :=
  fail_unreachable_with (update_graph fuel).

Definition maybe_run (fuel : nat) : JobRef → M bool :=
  maybe_run_with (update_graph fuel).

(** [save_unmet]; [now] is the reading of [time.time()]. *)
Definition save_unmet (now : Z) (r : JobRef) : M unit :=
  j ← deref r;
  modify (λ s, set_queue_map (<[msg_id j := r]> (queue_map s)) s);;
  modify (λ s, set_queue (queue s ++ [r]) s);;
  s ← get;
  for_each (elements ((dep_ids (after j) ∪ dep_ids (follow j)) ∖ all_done s))
    (λ dep_id, modify (λ s', set_graph
       (<[dep_id := {[msg_id j]} ∪ default ∅ (graph s' !! dep_id)]> (graph s')) s'));;
  match timeout j with
  | Some t =>
    if bool_decide (t = 0) then mret tt
    else
      let tid := S (timeout_id j) in
      update_job r (with_timeout_id tid);;
      emit (AddTimeout (now + t) (JobTimeout r tid))
  | None => mret tt
  end.

(** A task submission after [feed_identities] and [deserialize]: the ids,
    the frames, and the metadata fields the scheduler reads. *)
Record Submission := {
  sub_msg_id : MsgId;
  sub_raw_msg : list string;
  sub_idents : list string;
  md_targets : list EngineId;
  md_retries : Z;
  md_after : option Dependency;
  md_follow : option Dependency;
  md_timeout : option Z
}.

(** The treatment of [md['after']] in [dispatch_submission].  A descriptor
    that is present is a dict, hence true; an absent one gives [MET]. *)
Definition canonical_after (md : option Dependency) (s : State) : Dependency :=
  match md with
  | Some d =>
    let a1 :=
      if dep_all d && dep_success d
      then mkDependency (dep_ids d ∖ all_completed s) (dep_success d) (dep_failure d) (dep_all d)
      else d in
    let a2 :=
      if dep_all a1 && dep_failure a1
      then mkDependency (dep_ids a1 ∖ all_failed s) (dep_success a1) (dep_failure a1) (dep_all a1)
      else a1 in
    if check a2 (all_completed s) (all_failed s) then MET else a2
  | None => MET
  end.

(** One turn of the loop [for dep in after, follow]: the error to fail
    with, if any. *)
Definition validate (m : MsgId) (dep : Dependency) (s : State) : option ErrKind :=
  if dep_nonempty dep then
    if bool_decide (m ∈ dep_ids dep) || negb (bool_decide (dep_ids dep ∖ all_ids s = ∅))
    then Some InvalidDependency
    else if unreachable dep (all_completed s) (all_failed s)
    then Some ImpossibleDependency
    else None
  else None.

Definition new_job (now : Z) (sub : Submission) (aft : Dependency) : Job :=
  {| msg_id := sub_msg_id sub; raw_msg := sub_raw_msg sub; idents := sub_idents sub;
     job_targets := list_to_set (md_targets sub); after := aft;
     follow := default MET (md_follow sub); timeout := md_timeout sub;
     removed := false; timestamp := now; timeout_id := 0%nat; blacklist := ∅ |}.

Definition new_ref (s : State) : JobRef := fresh (dom (jobs s)).

Definition dispatch_submission_body (fuel : nat) (now : Z) (sub : Submission) : M unit :=
  let m := sub_msg_id sub in
  emit (MonIntask (sub_raw_msg sub));;
  modify (λ s, set_all_ids ({[m]} ∪ all_ids s) s);;
  modify (λ s, set_retries (<[m := md_retries sub]> (retries s)) s);;
  s ← get;
  let job := new_job now sub (canonical_after (md_after sub) s) in
  let r := new_ref s in
  modify (set_jobs (<[r := job]> (jobs s)));;
  let fail why :=
    modify (λ s', set_queue_map (<[m := r]> (queue_map s')) s');;
    fail_unreachable fuel m why in
  match validate m (after job) s with
  | Some why => fail why
  | None =>
    match validate m (follow job) s with
    | Some why => fail why
    | None =>
      if check (after job) (all_completed s) (all_failed s) then
        ran ← maybe_run fuel r;
        if ran : bool then mret tt
        else
          s' ← get;
          if bool_decide (m ∈ all_failed s') then mret tt else save_unmet now r
      else save_unmet now r
    end
  end.

Definition dispatch_submission (fuel : nat) (now : Z) (sub : Submission) : M unit :=
  log_errors (dispatch_submission_body fuel now sub).

(** [job_timeout]: the callback armed by [save_unmet].  The comparison
    [job.timeout >= now + 1] leads to a warning in the log only, but it
    raises [TypeError] when the job has no timeout. *)
Definition job_timeout (fuel : nat) (r : JobRef) (tid : nat) : M unit :=
  j ← deref r;
  if bool_decide (timeout_id j = tid) then
    (if timeout j is None then raise TypeError else mret tt);;
    s ← get;
    if bool_decide (msg_id j ∈ dom (queue_map s))
    then fail_unreachable fuel (msg_id j) TaskTimeout
    else mret tt
  else mret tt.

(** [handle_result]. *)
Definition handle_result (fuel : nat) (engine client : string) (m : MsgId)
    (success : bool) : M unit :=
  emit (Relay client engine m success);;
  s ← get;
  p ← lift (item (pending s) engine);
  _ ← lift (item p m);
  modify (set_pending (<[engine := delete m p]> (pending s)));;
  (if success then
     c ← lift (item (completed s) engine);
     modify (λ s', set_completed (<[engine := {[m]} ∪ c]> (completed s')) s');;
     modify (λ s', set_all_completed ({[m]} ∪ all_completed s') s')
   else
     f ← lift (item (failed s) engine);
     modify (λ s', set_failed (<[engine := {[m]} ∪ f]> (failed s')) s');;
     modify (λ s', set_all_failed ({[m]} ∪ all_failed s') s'));;
  modify (λ s', set_all_done ({[m]} ∪ all_done s') s');;
  modify (λ s', set_destinations (<[m := engine]> (destinations s')) s');;
  update_graph fuel (Some m) success.

(** [handle_unmet_dependency]. *)
Definition handle_unmet_dependency (fuel : nat) (now : Z) (engine : EngineId)
    (m : MsgId) : M unit :=
  s ← get;
  p ← lift (item (pending s) engine);
  r ← lift (item p m);
  modify (set_pending (<[engine := delete m p]> (pending s)));;
  j ← deref r;
  update_job r (with_blacklist ({[engine]} ∪ blacklist j));;
  (if bool_decide ({[engine]} ∪ blacklist j = job_targets j) then
     modify (λ s', set_queue_map (<[m := r]> (queue_map s')) s');;
     fail_unreachable fuel m ImpossibleDependency
   else
     ran ← maybe_run fuel r;
     if ran : bool then mret tt
     else
       s' ← get;
       if bool_decide (m ∈ all_failed s') then mret tt else save_unmet now r);;
  if hwm_on then
    s' ← get;
    match find_index engine (targets s') with
    | None => mret tt
    | Some idx =>
      l ← lift (at_index (loads s') idx);
      if bool_decide (l = hwm - 1) then update_graph fuel None true else mret tt
    end
  else mret tt.

(** An [apply_reply] from an engine, after parsing. *)
Record Result := {
  res_engine : EngineId;
  res_client : string;
  res_msg_id : MsgId;
  md_dependencies_met : option bool;
  md_status_ok : bool
}.

Definition dispatch_result_body (fuel : nat) (now : Z) (res : Result) : M unit :=
  s ← get;
  parsed ← attempt (match find_index (res_engine res) (targets s) with
                    | Some idx => finish_job idx
                    | None => mret tt
                    end);
  if parsed : bool then
    if default true (md_dependencies_met res) then
      let m := res_msg_id res in
      s1 ← get;
      n ← lift (item (retries s1) m);
      if negb (md_status_ok res) && bool_decide (0 < n) then
        modify (set_retries (<[m := n - 1]> (retries s1)));;
        handle_unmet_dependency fuel now (res_engine res) m
      else
        modify (set_retries (delete m (retries s1)));;
        handle_result fuel (res_engine res) (res_client res) m (md_status_ok res);;
        emit (MonOuttask m)
    else handle_unmet_dependency fuel now (res_engine res) (res_msg_id res)
  else mret tt.

Definition dispatch_result (fuel : nat) (now : Z) (res : Result) : M unit :=
  log_errors (dispatch_result_body fuel now res).

(** [_register_engine]. *)
Definition register_engine (fuel : nat) (uid : EngineId) : M unit :=
  modify (λ s, set_targets (uid :: targets s) s);;
  modify (λ s, set_loads (0 :: loads s) s);;
  modify (λ s, set_completed (<[uid := ∅]> (completed s)) s);;
  modify (λ s, set_failed (<[uid := ∅]> (failed s)) s);;
  modify (λ s, set_pending (<[uid := ∅]> (pending s)) s);;
  update_graph fuel None true.

(** [_unregister_engine]; flushing [engine_stream] hands the results that
    are waiting there to [dispatch_result], which are steps of their own
    here.  Times count seconds. *)
Definition unregister_engine (now : Z) (uid : EngineId) : M unit :=
  s ← get;
  match find_index uid (targets s) with
  | None => raise ValueError
  | Some idx =>
    modify (set_targets (delete idx (targets s)));;
    _ ← lift (at_index (loads s) idx);
    modify (λ s', set_loads (delete idx (loads s')) s');;
    p ← lift (item (pending s) uid);
    if bool_decide (p = ∅) then
      _ ← lift (item (completed s) uid);
      modify (λ s', set_completed (delete uid (completed s')) s');;
      _ ← lift (item (failed s) uid);
      modify (λ s', set_failed (delete uid (failed s')) s')
    else emit (AddTimeout (now + 5) (StrandedTasks uid))
  end.

(** [handle_stranded_tasks]: a made-up error reply for every task still
    pending on the engine goes through [dispatch_result]. *)
Definition handle_stranded_tasks (fuel : nat) (now : Z) (engine : EngineId) : M unit :=
  s ← get;
  lost ← lift (item (pending s) engine);
  for_each (elements (dom lost)) (λ m,
    s' ← get;
    lost' ← lift (item (pending s') engine);
    match lost' !! m with
    | None => mret tt
    | Some r =>
      j ← deref r;
      client ← lift (at_index (idents j) 0);
      dispatch_result fuel now
        {| res_engine := engine; res_client := client; res_msg_id := m;
           md_dependencies_met := None; md_status_ok := false |}
    end);;
  s' ← get;
  _ ← lift (item (completed s') engine);
  modify (λ s', set_completed (delete engine (completed s')) s');;
  _ ← lift (item (failed s') engine);
  modify (λ s', set_failed (delete engine (failed s')) s').

(** ** The scheduler as a transition system *)

(** What the event loop hands to the scheduler.  Every handler runs under
    [log_errors] or under the loop's own exception logging, so a step ends
    in the state the handler reached. *)
Inductive Msg :=
| Submit (now : Z) (sub : Submission)
| Reply (now : Z) (res : Result)
| EngineUp (uid : EngineId)
| EngineDown (now : Z) (uid : EngineId)
| Fire (now : Z) (cb : Callback).

Definition handler (fuel : nat) (msg : Msg) : M unit :=
  match msg with
  | Submit now sub => dispatch_submission fuel now sub
  | Reply now res => dispatch_result fuel now res
  | EngineUp uid => log_errors (register_engine fuel uid)
  | EngineDown now uid => log_errors (unregister_engine now uid)
  | Fire now (JobTimeout r tid) => log_errors (job_timeout fuel r tid)
  | Fire now (StrandedTasks uid) => log_errors (handle_stranded_tasks fuel now uid)
  end.

(** A timer fires only if it was armed. *)
Definition enabled (msg : Msg) (s : State) : Prop :=
  match msg with
  | Fire _ cb => ∃ deadline, AddTimeout deadline cb ∈ trace s
  | _ => True
  end.

Definition step (fuel : nat) (msg : Msg) (s : State) : State := (handler fuel msg s).1.

Inductive reachable : State → Prop :=
| reachable_initial : reachable initial
| reachable_step s fuel msg :
    reachable s → enabled msg s → reachable (step fuel msg s).

(** Running a list of messages from a state. *)
Definition run (fuel : nat) (msgs : list Msg) (s : State) : State :=
  foldl (λ s' msg, step fuel msg s') s msgs.

End Scheduler.

(** ** Predicates of the statements *)

(** [m] respects the relation [R] when the state it ends in, whatever its
    result, is related to the state it started from. *)
Definition resp (R : relation State) {A} (m : M A) : Prop := ∀ s, R s (m s).1.

(** The state and the result of [m] from [s] satisfy [Q]. *)
Definition wp {A} (m : M A) (Q : State → Res A → Prop) (s : State) : Prop :=
  Q (m s).1 (m s).2.

(** What no scheduler function changes in a job object: everything but
    [removed], [timeout_id] and [blacklist]; [job_targets] only loses
    members of the blacklist. *)
Definition job_frame (j j' : Job) : Prop :=
  msg_id j' = msg_id j ∧ raw_msg j' = raw_msg j ∧ idents j' = idents j ∧
  after j' = after j ∧ follow j' = follow j ∧ timeout j' = timeout j ∧
  timestamp j' = timestamp j ∧ blacklist j' = blacklist j ∧
  job_targets j ∖ blacklist j ⊆ job_targets j' ∧ job_targets j' ⊆ job_targets j.

Definition jobs_frame (J J' : gmap JobRef Job) : Prop :=
  ∀ r j, J !! r = Some j → ∃ j', J' !! r = Some j' ∧ job_frame j j'.

(** The frame of the functions that place, park and fail jobs: they leave
    [retries] alone, only add to the trace, and keep the job objects up to
    [job_frame]. *)
Definition frame (s s' : State) : Prop :=
  retries s' = retries s ∧ trace s `prefix_of` trace s' ∧ jobs_frame (jobs s) (jobs s').


(** A dispatch is in order when the engine is not on the job's blacklist
    and, with a high water mark, had a load below it. *)
Definition dispatch_ok (hwm : Z) (e : Event) : Prop :=
  match e with
  | Dispatch target r j load =>
    (target ∉ blacklist j) ∧ (0 < hwm → ∃ l, load = Some l ∧ l < hwm)
  | _ => True
  end.

(** [t'] is [t] followed by events that satisfy [P]. *)
Definition grows (P : Event → Prop) (t t' : list Event) : Prop :=
  ∃ evs, t' = t ++ evs ∧ Forall P evs.

Definition loads_ok (hwm : Z) (s : State) : Prop := Forall (λ l, l ≤ hwm) (loads s).

Definition safe_step (hwm : Z) (s s' : State) : Prop :=
  grows (dispatch_ok hwm) (trace s) (trace s') ∧ (0 < hwm → loads_ok hwm s → loads_ok hwm s').

(** The events a computation adds to the trace. *)
Definition new_events {A} (m : M A) (s : State) : list Event :=
  drop (length (trace s)) (trace (m s).1).


(** The two halves of [dispatch_ok], as properties of single events. *)
Definition off_blacklist (e : Event) : Prop :=
  match e with
  | Dispatch target _ j _ => target ∉ blacklist j
  | _ => True
  end.

Definition below_hwm (hwm : Z) (e : Event) : Prop :=
  match e with
  | Dispatch _ _ _ load => ∃ l, load = Some l ∧ l < hwm
  | _ => True
  end.

(** The canonical form of [after] in the words of the specification: the
    ids already satisfied are taken out, the flags stay, and what is left
    gives way to [MET] when it is met. *)
Definition reduced_after (d : Dependency) (s : State) : Dependency :=
  mkDependency (dep_ids d ∖ relevant_pool d (all_completed s) (all_failed s))
    (dep_success d) (dep_failure d) (dep_all d).

Definition spec_after (d : Dependency) (s : State) : Dependency :=
  if check (reduced_after d s) (all_completed s) (all_failed s) then MET
  else reduced_after d s.

(** The submission timestamps of the queued jobs, front first. *)
Definition queue_stamps (s : State) : list (option Z) :=
  (λ r, timestamp <$> jobs s !! r) <$> queue s.


(** The graph entries kept under the ids a job depends on all list the id
    [m]: then taking [m] out of them, as [fail_unreachable] does, finds it
    everywhere (the data model's invariant 6 gives this for a waiting
    job). *)
Definition graph_lists (s : State) (j : Job) (m : MsgId) : Prop :=
  ∀ mid g, mid ∈ dependents j → graph s !! mid = Some g → m ∈ g.

(** The cases in which [maybe_run] fails a job that no engine can take
    for lack of live targets. *)
Definition targets_exhausted (s : State) (j : Job) : Prop :=
  job_targets j ≠ ∅ ∧
  (job_targets j ∖ blacklist j = ∅ ∨
   (job_targets j ∖ blacklist j) ∩ list_to_set (targets s) = ∅).


(** The state after [dispatch_result] has counted the result on the
    engine, if it is registered. *)
Definition unloaded (engine : EngineId) (s : State) : State :=
  match find_index engine (targets s) with
  | Some idx =>
    match loads s !! idx with
    | Some l => set_loads (<[idx := l - 1]> (loads s)) s
    | None => s
    end
  | None => s
  end.

(** The state in which [handle_unmet_dependency] resubmits the job object
    [r]: the job is off the engine's [pending] and the engine is on its
    blacklist. *)
Definition refused_by (engine : EngineId) (m : MsgId) (r : JobRef) (s : State) : State :=
  set_jobs (alter (λ j, with_blacklist ({[engine]} ∪ blacklist j) j) r (jobs s))
    (set_pending (alter (delete m) engine (pending s)) s).


(** The job object [r] is in none of the places jobs are dispatched from
    or wait in. *)
Definition idle (r : JobRef) (s : State) : Prop :=
  (r ∉ queue s) ∧ (∀ m, queue_map s !! m ≠ Some r) ∧
  (∀ e p m, pending s !! e = Some p → p !! m ≠ Some r).

Definition not_dispatch (r : JobRef) (e : Event) : Prop :=
  match e with
  | Dispatch _ r' _ _ => r' ≠ r
  | _ => True
  end.

(** [r] is idle and has not been dispatched since the trace was [t0]. *)
Definition aside (r : JobRef) (t0 : list Event) (s : State) : Prop :=
  idle r s ∧ grows (not_dispatch r) t0 (trace s).

(** Every reference held by the scheduler is to a job object in the
    store. *)
Definition refs_valid (s : State) : Prop :=
  (∀ r, r ∈ queue s → is_Some (jobs s !! r)) ∧
  (∀ m r, queue_map s !! m = Some r → is_Some (jobs s !! r)) ∧
  (∀ e p m r, pending s !! e = Some p → p !! m = Some r → is_Some (jobs s !! r)).

(** A state-and-result postcondition: [I] of the state, [P] of a value
    returned. *)
Definition post {A} (I : State → Prop) (P : A → Prop) (s : State) (res : Res A) : Prop :=
  I s ∧ ∀ a, res = Done a → P a.


(** A dependency is invalid for the submission [m] when it names [m]
    itself or an id that is not known. *)
Definition invalid_dep (m : MsgId) (known : gset MsgId) (d : Dependency) : Prop :=
  m ∈ dep_ids d ∨ ¬ (dep_ids d ⊆ known).

(** What is wrong with one dependency, invalidity first; an empty
    dependency is passed over. *)
Definition fault (m : MsgId) (s : State) (d : Dependency) (why : ErrKind) : Prop :=
  dep_ids d ≠ ∅ ∧
  ((invalid_dep m (all_ids s) d ∧ why = InvalidDependency) ∨
   (¬ invalid_dep m (all_ids s) d ∧
    unreachable d (all_completed s) (all_failed s) = true ∧ why = ImpossibleDependency)).

Definition faultless (m : MsgId) (s : State) (d : Dependency) : Prop :=
  dep_ids d = ∅ ∨
  (¬ invalid_dep m (all_ids s) d ∧ unreachable d (all_completed s) (all_failed s) = false).

(** The first fault of the pair ([after], [follow]), in that order. *)
Definition first_fault (m : MsgId) (s : State) (aft fol : Dependency) (why : ErrKind) : Prop :=
  fault m s aft why ∨ (faultless m s aft ∧ fault m s fol why).

(** The state in which [dispatch_submission] validates: the id is known. *)
Definition submitted (sub : Submission) (s : State) : State :=
  set_all_ids ({[sub_msg_id sub]} ∪ all_ids s) s.


(** Invariant 6 of the data model, for the job objects in [queue_map]:
    every id the job depends on has finished or keeps a graph entry that
    lists the job. *)
Definition registered (s : State) : Prop :=
  ∀ m r j mid, queue_map s !! m = Some r → jobs s !! r = Some j → mid ∈ dependents j →
    mid ∈ all_done s ∨ ∃ g, graph s !! mid = Some g ∧ m ∈ g.

(** No graph entry is kept for an id that has finished, [x] excepted: the
    id whose entry [update_graph] is about to take out. *)
Definition graph_open (x : option MsgId) (s : State) : Prop :=
  ∀ mid, is_Some (graph s !! mid) → mid ∈ all_done s → x = Some mid.

Definition queued_valid (s : State) : Prop :=
  ∀ m r, queue_map s !! m = Some r → is_Some (jobs s !! r).

Definition graph_inv (x : option MsgId) (s : State) : Prop :=
  registered s ∧ graph_open x s ∧ queued_valid s.

(** What matters to [graph_inv] is unchanged. *)
Definition same_core (s s' : State) : Prop :=
  queue_map s' = queue_map s ∧ jobs s' = jobs s ∧ graph s' = graph s ∧
  all_done s' = all_done s.

(** A postcondition for the states reached with fuel left. *)
Definition live {A} (I : State → Prop) (s : State) (res : Res A) : Prop :=
  res ≠ OutOfFuel → I s.

(** The states reached by handlers that did not run out of fuel; an
    exception that a handler logs and drops is an end like another. *)
Inductive reachable_live (hwm : Z) (scheme : nat → list Z → nat) : State → Prop :=
| live_initial : reachable_live hwm scheme initial
| live_step s fuel msg :
    reachable_live hwm scheme s → enabled msg s →
    (handler hwm scheme fuel msg s).2 = Done tt →
    reachable_live hwm scheme (step hwm scheme fuel msg s).


(** The id [m] is not waiting. *)
Definition absent (m : MsgId) (s : State) : Prop := queue_map s !! m = None.

(** ** Predicates of the further properties *)


(** [if job.timeout:] in [save_unmet]: there is a timeout and it is not
    zero. *)
Definition has_timeout (j : Job) : bool :=
  match timeout j with
  | Some t => negb (bool_decide (t = 0))
  | None => false
  end.

(** The timer that [save_unmet] arms at time [now], and the job object
    afterwards. *)
Definition timer_of (now : Z) (r : JobRef) (j : Job) : list Event :=
  match timeout j with
  | Some t =>
    if has_timeout j then [AddTimeout (now + t) (JobTimeout r (S (timeout_id j)))] else []
  | None => []
  end.

Definition armed (j : Job) : Job :=
  if has_timeout j then with_timeout_id (S (timeout_id j)) j else j.

(** The graph [G'] is [G] with [m] added under every id of [ds]. *)
Definition listed_under (m : MsgId) (ds : gset MsgId)
    (G G' : gmap MsgId (gset MsgId)) : Prop :=
  ∀ d, G' !! d = if bool_decide (d ∈ ds)
                 then Some ({[m]} ∪ default ∅ (G !! d))
                 else G !! d.

(** Whether [maybe_run] builds the filter [can_run] for a job. *)
Definition needs_filter (hwm : Z) (j : Job) : bool :=
  dep_nonempty (follow j) || set_nonempty (job_targets j)
  || set_nonempty (blacklist j) || hwm_on hwm.

(** The engine indices among which [maybe_run] lets the scheme choose:
    the available ones that pass the filter, or all available ones when no
    filter is needed. *)
Definition candidates (hwm : Z) (s : State) (j : Job) : Exn + list nat :=
  match available_engines hwm s with
  | inl e => inl e
  | inr available =>
    if needs_filter hwm j then filter_exn (can_run hwm s j) available
    else inr available
  end.

(** The state after the job object [r], with fields [j], has gone to the
    engine [target] found at index [idx] with load [l]: one more chooser
    call, the engine at the back of the line with one more job, the job in
    the engine's [pending], of which [p] is the former value, and two sends. *)
Definition dispatched (s : State) (r : JobRef) (j : Job) (idx : nat)
    (target : EngineId) (l : Z) (p : gmap MsgId JobRef) : State :=
  set_trace (trace s ++ [Dispatch target r j (Some l); TaskDestination (msg_id j) target])
    (set_pending (<[target := <[msg_id j := r]> p]> (pending s))
       (set_loads (delete idx (loads s) ++ [l + 1])
          (set_targets (delete idx (targets s) ++ [target])
             (set_draws (S (draws s)) s)))).

(** What the scheduler never takes back: the trace, the ids it has seen,
    the records of what finished and where, the job objects and the
    engines' entries in [pending] are only added to. *)
Definition extends (s s' : State) : Prop :=
  trace s `prefix_of` trace s' ∧
  all_ids s ⊆ all_ids s' ∧ all_done s ⊆ all_done s' ∧
  all_completed s ⊆ all_completed s' ∧ all_failed s ⊆ all_failed s' ∧
  dom (destinations s) ⊆ dom (destinations s') ∧
  dom (jobs s) ⊆ dom (jobs s') ∧ dom (pending s) ⊆ dom (pending s').

(** A dispatch keeps to the job's targets when the job has no targets or
    the engine is one of them. *)
Definition on_targets (e : Event) : Prop :=
  match e with
  | Dispatch target _ j _ => job_targets j ≠ ∅ → target ∈ job_targets j
  | _ => True
  end.

Definition is_dispatch (e : Event) : bool :=
  match e with
  | Dispatch _ _ _ _ => true
  | _ => false
  end.

(** The number of dispatches among some events. *)
Definition dispatches (evs : list Event) : nat := length (List.filter is_dispatch evs).

(** The sum of the loads of the engines. *)
Definition total_load (s : State) : Z := foldr Z.add 0 (loads s).

(** [targets] and [loads] are parallel lists. *)
Definition parallel (s : State) : Prop := length (targets s) = length (loads s).

(** What the functions that place jobs do to the engines: the dispatches
    they make keep to the targets of the jobs, and, the lists being
    parallel, they stay so, the engines are the same up to their order, and
    every dispatch adds one to the sum of the loads. *)
Definition places (s s' : State) : Prop :=
  ∃ evs, trace s' = trace s ++ evs ∧ Forall on_targets evs ∧
         (parallel s →
          parallel s' ∧ targets s' ≡ₚ targets s ∧
          total_load s' = total_load s + Z.of_nat (dispatches evs)).

(** What every handler keeps: dispatches within the targets, and the
    lists parallel. *)
Definition handled (s s' : State) : Prop :=
  grows on_targets (trace s) (trace s') ∧ (parallel s → parallel s').

(** The records of what finished agree: an id is done exactly when it is
    completed or failed, and every completed id has its engine in
    [destinations]. *)
Definition recorded (s : State) : Prop :=
  all_done s = all_completed s ∪ all_failed s ∧
  all_completed s ⊆ dom (destinations s).

Definition keeps_records (s s' : State) : Prop := recorded s → recorded s'.

(** The job objects that are not marked as removed. *)
Definition live_refs (s : State) : gset JobRef :=
  dom (filter (λ p : JobRef * Job, removed p.2 = false) (jobs s)).

(** The measure by which [update_graph] terminates: the jobs in the
    queue, the ids in [queue_map] and the job objects not yet removed. *)
Definition work (s : State) : nat :=
  length (queue s) + size (dom (queue_map s)) + size (live_refs s).

(** Bounds on the three components of [work]. *)
Definition bounded (Q : nat) (q : gset MsgId) (l : gset JobRef) (s : State) : Prop :=
  (length (queue s) ≤ Q)%nat ∧ dom (queue_map s) ⊆ q ∧ live_refs s ⊆ l.

(** A computation that does not run out of fuel and ends within the
    bounds. *)
Definition ends {A} (Q : nat) (q : gset MsgId) (l : gset JobRef)
    (s : State) (res : Res A) : Prop :=
  res ≠ OutOfFuel ∧ bounded Q q l s.

(** How the loop of [update_graph] ends: within the bounds, the jobs to
    restore counted with the queue. *)
Definition loop_ends (Q : nat) (q : gset MsgId) (l : gset JobRef)
    (s : State) (res : Res (list JobRef)) : Prop :=
  res ≠ OutOfFuel ∧ bounded Q q l s ∧
  ∀ to_restore, res = Done to_restore → (length to_restore + length (queue s) ≤ Q)%nat.

(** What the termination proof assumes of the callback at fuel [n]. *)
Definition ends_with (n : nat) (ug : option MsgId → bool → M unit) : Prop :=
  ∀ d b Q q l s, bounded Q q l s → (Q + size q + size l + 2 ≤ n)%nat →
                 wp (ug d b) (ends Q q l) s.

(** The computation [c'] does what [c] does wherever [c] does not run out
    of fuel. *)
Definition agrees {A} (c c' : M A) : Prop :=
  ∀ s, (c s).2 ≠ OutOfFuel → c' s = c s.

(** A computation indexed by the fuel that, from every state, has enough
    with some amount, and does the same with more. *)
Definition total {A} (c : nat → M A) : Prop :=
  ∀ s, ∃ N, ∀ fuel, (N ≤ fuel)%nat → (c fuel s).2 ≠ OutOfFuel ∧ c fuel s = c N s.

(** A computation that never runs out of fuel. *)
Definition sure {A} (c : M A) : Prop := ∀ s, (c s).2 ≠ OutOfFuel.

(** An exception ended the computation. *)
Definition raises {A} (res : Res A) : Prop := ∃ e, res = Raised e.

(** A job object that is marked as removed stays so. *)
Definition tombs (s s' : State) : Prop :=
  ∀ r j, jobs s !! r = Some j → removed j = true →
         ∃ j', jobs s' !! r = Some j' ∧ removed j' = true.

(** What [handle_unmet_dependency] does with the job object [r], of id
    [m], once the engine is on its blacklist: the job is failed through
    [fail_unreachable] when the blacklist equals its targets; otherwise it
    goes to [maybe_run], and to [save_unmet] when [maybe_run] returns
    false and has not failed it. *)
Definition resubmit (hwm : Z) (scheme : nat → list Z → nat) (fuel : nat) (now : Z)
    (m : MsgId) (r : JobRef) : M unit :=
  j ← deref r;
  if bool_decide (blacklist j = job_targets j) then
    modify (λ s, set_queue_map (<[m := r]> (queue_map s)) s);;
    fail_unreachable hwm scheme fuel m ImpossibleDependency
  else
    ran ← maybe_run hwm scheme fuel r;
    if ran : bool then mret tt
    else
      s ← get;
      if bool_decide (m ∈ all_failed s) then mret tt else save_unmet now r.

(** The rescan that ends [handle_unmet_dependency]: with a high water
    mark, when the engine is registered and one job short of it. *)
Definition rescan_if_freed (hwm : Z) (scheme : nat → list Z → nat) (fuel : nat)
    (engine : EngineId) : M unit :=
  if hwm_on hwm then
    s ← get;
    match find_index engine (targets s) with
    | None => mret tt
    | Some idx =>
      l ← lift (at_index (loads s) idx);
      if bool_decide (l = hwm - 1) then update_graph hwm scheme fuel None true else mret tt
    end
  else mret tt.

(** The state in which [dispatch_submission] validates the dependencies
    of a submission: the monitor has the message, the id is known and has
    its [retries], and the job object exists. *)
Definition entered (now : Z) (sub : Submission) (s : State) : State :=
  set_jobs (<[new_ref s := new_job now sub (canonical_after (md_after sub) s)]> (jobs s))
    (set_retries (<[sub_msg_id sub := md_retries sub]> (retries s))
       (set_all_ids ({[sub_msg_id sub]} ∪ all_ids s)
          (set_trace (trace s ++ [MonIntask (sub_raw_msg sub)]) s))).

(** A timer for a job belongs to a job object that has a timeout. *)
Definition timer_ok (J : gmap JobRef Job) (e : Event) : Prop :=
  match e with
  | AddTimeout _ (JobTimeout r _) => ∃ j, J !! r = Some j ∧ is_Some (timeout j)
  | _ => True
  end.

Definition timers_armed (s : State) : Prop := Forall (timer_ok (jobs s)) (trace s).

(** The job objects stay, with their timeouts, and the timers that are
    added are for jobs with a timeout. *)
Definition keeps_timers (s s' : State) : Prop :=
  (∀ r j, jobs s !! r = Some j → ∃ j', jobs s' !! r = Some j' ∧ timeout j' = timeout j) ∧
  grows (timer_ok (jobs s')) (trace s) (trace s').

Section Examples.
Local Open Scope string_scope.

(** ** Concrete schedulers *)

(** The default configuration: [hwm = 1] and [leastload]. *)
Definition pick_leastload : nat → list Z → nat := λ _, leastload.

Definition task (m : MsgId) : Submission :=
  {| sub_msg_id := m; sub_raw_msg := [m]; sub_idents := ["client"]; md_targets := [];
     md_retries := 0; md_after := None; md_follow := None; md_timeout := None |}.

Definition with_targets (tg : list EngineId) (sub : Submission) : Submission :=
  {| sub_msg_id := sub_msg_id sub; sub_raw_msg := sub_raw_msg sub;
     sub_idents := sub_idents sub; md_targets := tg; md_retries := md_retries sub;
     md_after := md_after sub; md_follow := md_follow sub; md_timeout := md_timeout sub |}.

Definition with_after (d : Dependency) (sub : Submission) : Submission :=
  {| sub_msg_id := sub_msg_id sub; sub_raw_msg := sub_raw_msg sub;
     sub_idents := sub_idents sub; md_targets := md_targets sub;
     md_retries := md_retries sub; md_after := Some d; md_follow := md_follow sub;
     md_timeout := md_timeout sub |}.

Definition with_timeout (t : Z) (sub : Submission) : Submission :=
  {| sub_msg_id := sub_msg_id sub; sub_raw_msg := sub_raw_msg sub;
     sub_idents := sub_idents sub; md_targets := md_targets sub;
     md_retries := md_retries sub; md_after := md_after sub; md_follow := md_follow sub;
     md_timeout := Some t |}.

Definition with_retries (n : Z) (sub : Submission) : Submission :=
  {| sub_msg_id := sub_msg_id sub; sub_raw_msg := sub_raw_msg sub;
     sub_idents := sub_idents sub; md_targets := md_targets sub; md_retries := n;
     md_after := md_after sub; md_follow := md_follow sub; md_timeout := md_timeout sub |}.

Definition with_follow (d : Dependency) (sub : Submission) : Submission :=
  {| sub_msg_id := sub_msg_id sub; sub_raw_msg := sub_raw_msg sub;
     sub_idents := sub_idents sub; md_targets := md_targets sub;
     md_retries := md_retries sub; md_after := md_after sub; md_follow := Some d;
     md_timeout := md_timeout sub |}.

(** A dependency on the success of [ids]. *)
Definition on_success (ids : list MsgId) (all : bool) : Dependency :=
  mkDependency (list_to_set ids) true false all.

Definition ok_reply (engine : EngineId) (m : MsgId) : Result :=
  {| res_engine := engine; res_client := "client"; res_msg_id := m;
     md_dependencies_met := None; md_status_ok := true |}.

(** The reply of an engine that found the dependencies of the task unmet. *)
Definition refusal (engine : EngineId) (m : MsgId) : Result :=
  {| res_engine := engine; res_client := "client"; res_msg_id := m;
     md_dependencies_met := Some false; md_status_ok := true |}.

Definition is_error_reply (m : MsgId) (e : Event) : option ErrKind :=
  match e with
  | ErrorReply m' why _ => if bool_decide (m' = m) then Some why else None
  | _ => None
  end.

Definition dispatch_target (e : Event) : option EngineId :=
  match e with
  | Dispatch target _ _ _ => Some target
  | _ => None
  end.

Definition is_dispatch_of (m : MsgId) (e : Event) : bool :=
  match e with
  | Dispatch _ _ j _ => bool_decide (msg_id j = m)
  | _ => false
  end.

(** Engine [A] runs [t0]; [t1] and [t2], submitted in this order, wait for
    it. *)
Definition two_parked : State :=
  run 1 pick_leastload 20
    [EngineUp "A"; Submit 1 (task "t0");
     Submit 2 (with_after (on_success ["t0"] true) (task "t1"));
     Submit 3 (with_after (on_success ["t0"] true) (task "t2"))] initial.

(** [t0] has completed on the only engine. *)
Definition one_done : State :=
  run 1 pick_leastload 20
    [EngineUp "A"; Submit 1 (task "t0"); Reply 2 (ok_reply "A" "t0")] initial.

(** [t1], which may run on [A] or [B], is pending on [A], the only engine. *)
Definition pending_on_A : State :=
  run 1 pick_leastload 20
    [EngineUp "A"; Submit 1 (with_targets ["A"; "B"] (task "t1"))] initial.

Definition pending_job : Job :=
  {| msg_id := "t1"; raw_msg := ["t1"]; idents := ["client"];
     job_targets := {["A"; "B"]}; after := MET; follow := MET; timeout := None;
     removed := false; timestamp := 1; timeout_id := 0%nat; blacklist := ∅ |}.

(** [t0] has completed on [A], the only engine; a job for engine [B] only
    that follows [t0]. *)
Definition only_B_job : Job :=
  {| msg_id := "t1"; raw_msg := ["t1"]; idents := ["client"];
     job_targets := {["B"]}; after := MET; follow := on_success ["t0"] true;
     timeout := None; removed := false; timestamp := 3; timeout_id := 0%nat;
     blacklist := ∅ |}.

Definition only_A_up : State := set_jobs (<[1%nat:=only_B_job]> (jobs one_done)) one_done.

(** [B] is busy with [t1], [A] is free; a job that [A] has refused. *)
Definition refused_by_A : Job :=
  {| msg_id := "t2"; raw_msg := ["t2"]; idents := ["client"];
     job_targets := {["A"; "B"]}; after := MET; follow := MET; timeout := None;
     removed := false; timestamp := 2; timeout_id := 0%nat; blacklist := {["A"]} |}.





(** [t1] ran on [B] and [t2] on [A]; a submission that follows both. *)
Definition apart : State :=
  run 1 pick_leastload 20
    [EngineUp "A"; EngineUp "B"; Submit 1 (task "t1"); Submit 2 (task "t2");
     Reply 3 (ok_reply "B" "t1"); Reply 4 (ok_reply "A" "t2")] initial.

Definition follows_apart : Submission :=
  with_follow (on_success ["t1"; "t2"] true) (task "t3").

(** A job that was parked, sent to its only target [A] when the task it
    waited for completed, and is failed twice after [A] went down. *)
Definition twice_msgs : list Msg :=
  [EngineUp "A"; Submit 1 (task "t0");
   Submit 2 (with_retries 1 (with_targets ["A"]
                               (with_after (on_success ["t0"] true) (task "t1"))));
   Reply 3 (ok_reply "A" "t0"); EngineDown 4 "A"; EngineUp "B";
   Fire 10 (StrandedTasks "A")].

Definition failed_twice : State := run 2 pick_leastload 20 twice_msgs initial.

(** [t0] runs on [A] and [t1] waits for it. *)
Definition one_waiting : State :=
  run 1 pick_leastload 20
    [EngineUp "A"; Submit 1 (task "t0");
     Submit 2 (with_after (on_success ["t0"] true) (task "t1"))] initial.

(** A task parked with a timeout of five seconds, no engine being up. *)
Definition timed_parked : State :=
  run 1 pick_leastload 20 [Submit 1 (with_timeout 5 (task "t1"))] initial.

Definition timed_job : Job :=
  {| msg_id := "t1"; raw_msg := ["t1"]; idents := ["client"];
     job_targets := ∅; after := MET; follow := MET; timeout := Some 5;
     removed := false; timestamp := 1; timeout_id := 1%nat; blacklist := ∅ |}.

End Examples.

Section MoreExamples.
Local Open Scope string_scope.

(** Engines [B] and [A], in this order, are idle; a job for either of them that has not
    been placed. *)
Definition idle_pair : State :=
  let s := run 1 pick_leastload 20 [EngineUp "A"; EngineUp "B"] initial in
  set_jobs (<[0%nat:=pending_job]> (jobs s)) s.

(** Engine [B], which runs [t0], stands before the idle engine [A]; a job
    for either of them that has not been placed. *)
Definition B_first : State :=
  let s := run 2 pick_leastload 20
             [EngineUp "A"; EngineUp "B"; Submit 1 (task "t0"); Submit 2 (task "t1");
              Reply 3 (ok_reply "A" "t1")] initial in
  set_jobs (<[2%nat:=pending_job]> (jobs s)) s.

(** The state in which [dispatch_submission] hands to [maybe_run] a
    submission that follows [t1] and [t2], which ran on different
    engines. *)
Definition apart_call : State := entered 5 follows_apart apart.

End MoreExamples.

(** ** Proofs *)

Ltac exec :=
  unfold mbind, M_bind, mret, M_ret, get, modify, raise, out_of_fuel, lift, emit, deref,
    update_job, attempt, log_errors;
  cbn [fst snd].

Section Respect.
Context (R : relation State) (HR : PreOrder R).

Lemma resp_ret {A} (a : A) : resp R (mret a).
Proof. intros s. reflexivity. Qed.

Lemma resp_raise {A} e : resp R (raise (A:=A) e).
Proof. intros s. reflexivity. Qed.

Lemma resp_out_of_fuel {A} : resp R (out_of_fuel (A:=A)).
Proof. intros s. reflexivity. Qed.

Lemma resp_get : resp R get.
Proof. intros s. reflexivity. Qed.

Lemma resp_lift {A} (x : Exn + A) : resp R (lift x).
Proof. intros s. destruct x; reflexivity. Qed.

Lemma resp_deref r : resp R (deref r).
Proof. intros s. unfold deref. destruct (jobs s !! r); reflexivity. Qed.

Lemma resp_bind {A B} (m : M A) (f : A → M B) :
  resp R m → (∀ a, resp R (f a)) → resp R (m ≫= f).
Proof.
  intros Hm Hf s. unfold mbind, M_bind. specialize (Hm s).
  destruct (m s) as [s' [a| |]]; cbn [fst] in *; try assumption.
  etransitivity; [exact Hm | apply Hf].
Qed.

Lemma resp_get_bind {A} (f : State → M A) :
  (∀ s, R s (f s s).1) → resp R (get ≫= f).
Proof. intros H s. apply H. Qed.

Lemma resp_modify g : (∀ s, R s (g s)) → resp R (modify g).
Proof. intros H s. apply H. Qed.

Lemma resp_for_each {A} (xs : list A) body :
  (∀ x, resp R (body x)) → resp R (for_each xs body).
Proof.
  intros H. induction xs as [|x xs IH]; cbn [for_each].
  - apply resp_ret.
  - apply resp_bind; [apply H | intros _; exact IH].
Qed.

Lemma resp_log_errors m : resp R m → resp R (log_errors m).
Proof. intros H s. specialize (H s). unfold log_errors. destruct (m s) as [s' [| |]]; exact H. Qed.

Lemma resp_attempt m : resp R m → resp R (attempt m).
Proof. intros H s. specialize (H s). unfold attempt. destruct (m s) as [s' [| |]]; exact H. Qed.

End Respect.


(** *** Weakest preconditions *)

Lemma wp_bind {A B} (m : M A) (f : A → M B) Q s :
  wp m (λ s' r, match r with
                | Done a => wp (f a) Q s'
                | Raised e => Q s' (Raised e)
                | OutOfFuel => Q s' OutOfFuel
                end) s →
  wp (m ≫= f) Q s.
Proof. unfold wp, mbind, M_bind. destruct (m s) as [s' [a|e|]]; auto. Qed.

Lemma wp_mono {A} (m : M A) (P Q : State → Res A → Prop) s :
  wp m P s → (∀ s' r, P s' r → Q s' r) → wp m Q s.
Proof. unfold wp. auto. Qed.

Lemma wp_assoc {A B C} (m : M A) (g : A → M B) (f : B → M C) Q s :
  wp (m ≫= λ a, g a ≫= f) Q s → wp ((m ≫= g) ≫= f) Q s.
Proof. unfold wp, mbind, M_bind. destruct (m s) as [s' [a|e|]]; auto. Qed.

Lemma wp_lift_bind {A B} (x : Exn + A) (f : A → M B) Q s :
  match x with inl e => Q s (Raised e) | inr a => wp (f a) Q s end →
  wp (lift x ≫= f) Q s.
Proof. destruct x; auto. Qed.

Lemma wp_lift {A} (x : Exn + A) Q s :
  match x with inl e => Q s (Raised e) | inr a => Q s (Done a) end → wp (lift x) Q s.
Proof. destruct x; auto. Qed.

Lemma wp_deref_bind {B} r (f : Job → M B) Q s :
  match jobs s !! r with Some j => wp (f j) Q s | None => Q s (Raised BadRef) end →
  wp (deref r ≫= f) Q s.
Proof. unfold wp, mbind, M_bind, deref. destruct (jobs s !! r); auto. Qed.

Lemma wp_rel_bind R (HR : Transitive R) {A B} (m : M A) (f : A → M B) s0 s :
  R s (m s).1 → R s0 s →
  (∀ a s', R s0 s' → wp (f a) (λ s'' _, R s0 s'') s') →
  wp (m ≫= f) (λ s'' _, R s0 s'') s.
Proof.
  intros Hm H0 Hf. apply wp_bind. unfold wp.
  assert (R s0 (m s).1) as H1 by (etransitivity; eassumption).
  destruct (m s) as [s' [a|e|]]; cbn [fst snd] in *; auto. by apply Hf.
Qed.

Lemma wp_rel R (HR : Transitive R) {A} (m : M A) s0 s :
  R s (m s).1 → R s0 s → wp m (λ s'' _, R s0 s'') s.
Proof. intros Hm H0. unfold wp. etransitivity; [exact H0 | apply Hm]. Qed.

Lemma wp_rel_start R (HR : PreOrder R) {A} (m : M A) s :
  (∀ s0, R s0 s → wp m (λ s' _, R s0 s') s) → R s (m s).1.
Proof. intros H. apply (H s). reflexivity. Qed.

Ltac wp_step :=
  lazymatch goal with
  | |- wp (mret ?a) ?Q ?s => change (Q s (Done a)); cbv beta
  | |- wp (raise ?e) ?Q ?s => change (Q s (Raised e)); cbv beta
  | |- wp out_of_fuel ?Q ?s => change (Q s OutOfFuel); cbv beta
  | |- wp (modify ?g) ?Q ?s => change (Q (g s) (Done tt)); cbv beta
  | |- wp (emit ?e) ?Q ?s => change (Q (set_trace (trace s ++ [e]) s) (Done tt)); cbv beta
  | |- wp (lift _) _ _ => apply wp_lift
  | |- wp (get ≫= ?f) ?Q ?s => change (wp (f s) Q s); cbv beta
  | |- wp (modify ?g ≫= ?f) ?Q ?s => change (wp (f tt) Q (g s)); cbv beta
  | |- wp (emit ?e ≫= ?f) ?Q ?s =>
      change (wp (f tt) Q (set_trace (trace s ++ [e]) s)); cbv beta
  | |- wp (update_job ?r ?g ≫= ?f) ?Q ?s =>
      change (wp (f tt) Q (set_jobs (alter g r (jobs s)) s)); cbv beta
  | |- wp (mret ?a ≫= ?f) ?Q ?s => change (wp (f a) Q s); cbv beta
  | |- wp (raise ?e ≫= _) ?Q ?s => change (Q s (Raised e)); cbv beta
  | |- wp (lift _ ≫= _) _ _ => apply wp_lift_bind
  | |- wp (deref _ ≫= _) _ _ => apply wp_deref_bind
  | |- wp ((_ ≫= _) ≫= _) _ _ => apply wp_assoc
  | |- wp (match ?x with _ => _ end ≫= _) _ _ => destruct x eqn:?
  | |- wp (match ?x with _ => _ end) _ _ => destruct x eqn:?
  | |- match ?x with _ => _ end => destruct x eqn:?
  end.

(** A lookup whose result is known from [H]. *)
Ltac wp_known H := wp_step; unfold item, at_index; rewrite H; cbv beta iota.

Ltac resp_step :=
  lazymatch goal with
  | |- resp ?R (mret _) => apply (resp_ret R _)
  | |- resp ?R (raise _) => apply (resp_raise R _)
  | |- resp ?R out_of_fuel => apply (resp_out_of_fuel R _)
  | |- resp ?R get => apply (resp_get R _)
  | |- resp ?R (lift _) => apply (resp_lift R _)
  | |- resp ?R (deref _) => apply (resp_deref R _)
  | |- resp ?R (for_each _ _) => apply (resp_for_each R _); intros ?
  | |- resp ?R (log_errors _) => apply (resp_log_errors R _)
  | |- resp ?R (attempt _) => apply (resp_attempt R _)
  | |- resp ?R (_ ≫= _) => apply (resp_bind R _); [ | intros ? ]
  | |- resp _ (match ?x with _ => _ end) => destruct x eqn:?
  end.

(** *** The frame *)

Lemma job_frame_refl j : job_frame j j.
Proof. unfold job_frame. repeat split; [apply subseteq_difference_l|]; reflexivity. Qed.

Lemma job_frame_trans j1 j2 j3 : job_frame j1 j2 → job_frame j2 j3 → job_frame j1 j3.
Proof.
  unfold job_frame.
  intros (?&?&?&?&?&?&?&Hb&Hlo&Hhi) (?&?&?&?&?&?&?&Hb'&Hlo'&Hhi').
  repeat split; try congruence.
  - intros x Hx. apply elem_of_difference in Hx as [Hx Hn].
    apply Hlo', elem_of_difference. split; [|by rewrite Hb].
    apply Hlo, elem_of_difference. done.
  - etransitivity; eassumption.
Qed.

#[local] Instance frame_preorder : PreOrder frame.
Proof.
  split.
  - intros s. repeat split; [reflexivity|]. intros r j H. exists j. split; [done|apply job_frame_refl].
  - intros s1 s2 s3 (Hr1 & Ht1 & Hj1) (Hr2 & Ht2 & Hj2). repeat split.
    + congruence.
    + etransitivity; eassumption.
    + intros r j H. destruct (Hj1 _ _ H) as (j2 & H2 & F2).
      destruct (Hj2 _ _ H2) as (j3 & H3 & F3). exists j3. split; [done|].
      eapply job_frame_trans; eassumption.
Qed.

Lemma frame_same s s' :
  retries s' = retries s → trace s' = trace s → jobs s' = jobs s → frame s s'.
Proof.
  intros Hr Ht Hj. repeat split; [done | by rewrite Ht |].
  rewrite Hj. intros r j H. exists j. split; [done | apply job_frame_refl].
Qed.

Lemma frame_emit e s : frame s (set_trace (trace s ++ [e]) s).
Proof.
  repeat split; cbn; [by apply prefix_app_r|].
  intros r j H. exists j. split; [done | apply job_frame_refl].
Qed.

Lemma frame_alter f r s :
  (∀ j, jobs s !! r = Some j → job_frame j (f j)) → frame s (set_jobs (alter f r (jobs s)) s).
Proof.
  intros Hf. repeat split; cbn; [done|].
  intros r' j H. destruct (decide (r' = r)) as [->|Hne].
  - exists (f j). rewrite lookup_alter_eq, H. split; [done | by apply Hf].
  - exists j. rewrite lookup_alter_ne by done. split; [done | apply job_frame_refl].
Qed.

Ltac job_frame_solve :=
  unfold job_frame; cbn; repeat split;
  first [ reflexivity | apply subseteq_difference_l; reflexivity ].

Ltac frame_leaf :=
  first
    [ apply (resp_modify _ _); intros ?; apply frame_same; reflexivity
    | apply (resp_modify _ _); intros ?; apply frame_emit
    | apply (resp_modify _ _); intros ?; apply frame_alter; intros ? _;
      job_frame_solve ].

Ltac frame_auto := repeat first [ resp_step | frame_leaf ].


Lemma jobs_frame_refl J : jobs_frame J J.
Proof. intros r j H. exists j. split; [done | apply job_frame_refl]. Qed.

Lemma jobs_frame_alter J J' f r :
  jobs_frame J J' → (∀ j, J' !! r = Some j → job_frame j (f j)) →
  jobs_frame J (alter f r J').
Proof.
  intros HJ Hf r' j H. destruct (HJ _ _ H) as (j' & H' & F').
  destruct (decide (r' = r)) as [->|Hne].
  - exists (f j'). rewrite lookup_alter_eq, H'. split; [done|].
    eapply job_frame_trans; [exact F' | by apply Hf].
  - exists j'. by rewrite lookup_alter_ne.
Qed.

Ltac prefix_solve := first [ reflexivity | apply prefix_app_r; prefix_solve ].

(** [frame s e] for a state [e] written out as updates of [s]. *)
Ltac frame_explicit :=
  split; [cbn; reflexivity | split];
  [ cbn; prefix_solve
  | cbn;
    repeat (apply jobs_frame_alter;
            [ | let j' := fresh "j" in let Hj' := fresh "Hj" in
                intros j' Hj'; try (cbn in Hj'; simplify_eq); job_frame_solve ]);
    apply jobs_frame_refl ].

(** Generic steps of a proof of [resp R m] by symbolic execution; [leaf]
    proves [R s e] for a state [e] written out as updates of [s]. *)
Ltac rel_here R leaf :=
  lazymatch goal with
  | H : R ?s0 ?s |- R ?s0 ?s => exact H
  | H : R ?s0 ?s |- R ?s0 _ => etransitivity; [exact H | leaf]
  end.

Ltac rel_call R lem leaf :=
  lazymatch goal with
  | |- wp (_ ≫= _) _ _ =>
      apply (wp_rel_bind R _); [ lem | rel_here R leaf | ];
      [ repeat match goal with H : R _ _ |- _ => clear H end; intros ? ? ? ]
  | |- wp _ _ _ => apply (wp_rel R _); [ lem | rel_here R leaf ]
  end.

Ltac rel_start R :=
  let s := fresh "s" in let s0 := fresh "s0" in let H0 := fresh "H0" in
  try intros s; apply (wp_rel_start R _); intros s0 H0.

Ltac frame_here := rel_here frame frame_explicit.
Ltac frame_call lem := rel_call frame lem frame_explicit.
Ltac frame_start := rel_start frame.

Section Properties.
Variable hwm : Z.
Variable scheme : nat → list Z → nat.

Lemma frame_add_job idx : resp frame (add_job idx).
Proof. unfold add_job. frame_auto. Qed.

Lemma frame_finish_job idx : resp frame (finish_job idx).
Proof. unfold finish_job. frame_auto. Qed.

Lemma frame_submit_task r indices : resp frame (submit_task scheme r indices).
Proof. unfold submit_task. frame_auto. apply frame_add_job. Qed.

Lemma frame_graph_remove m mid : resp frame (graph_remove m mid).
Proof. unfold graph_remove. frame_auto. Qed.

Lemma frame_fail_unreachable_with ug m why :
  (∀ d b, resp frame (ug d b)) → resp frame (fail_unreachable_with ug m why).
Proof.
  intros Hug. unfold fail_unreachable_with. frame_auto;
    first [ apply frame_graph_remove | apply Hug ].
Qed.

Lemma frame_maybe_run_with ug r :
  (∀ d b, resp frame (ug d b)) → resp frame (maybe_run_with hwm scheme ug r).
Proof.
  intros Hug. frame_start. unfold maybe_run_with.
  repeat first
    [ wp_step
    | frame_call ltac:(first [ by apply frame_fail_unreachable_with
                             | apply frame_submit_task ])
    | frame_here ].
Qed.

Lemma frame_ug_loop ug k :
  (∀ d b, resp frame (ug d b)) → ∀ local to_restore,
  resp frame (ug_loop hwm scheme ug k local to_restore).
Proof.
  intros Hug. induction k as [|k IH]; intros local to_restore; [intros s; reflexivity|].
  frame_start. cbn [ug_loop].
  repeat first
    [ wp_step
    | frame_call ltac:(first [ by apply frame_fail_unreachable_with
                             | by apply frame_maybe_run_with
                             | apply IH
                             | apply (resp_for_each frame _); intros ?; apply frame_graph_remove ])
    | frame_here ].
Qed.

Lemma frame_update_graph fuel : ∀ d b, resp frame (update_graph hwm scheme fuel d b).
Proof.
  induction fuel as [|n IH]; intros d b; [intros s; reflexivity|].
  frame_start. cbn [update_graph].
  repeat first
    [ wp_step
    | frame_call ltac:(by apply frame_ug_loop)
    | frame_here ].
Qed.

Lemma frame_fail_unreachable fuel m why : resp frame (fail_unreachable hwm scheme fuel m why).
Proof. apply frame_fail_unreachable_with, frame_update_graph. Qed.

Lemma frame_maybe_run fuel r : resp frame (maybe_run hwm scheme fuel r).
Proof. apply frame_maybe_run_with, frame_update_graph. Qed.

Lemma frame_save_unmet now r : resp frame (save_unmet now r).
Proof.
  frame_start. unfold save_unmet.
  repeat first
    [ wp_step
    | frame_call ltac:(apply (resp_for_each frame _); intros ?; frame_auto)
    | frame_here ].
Qed.

(** *** Dispatches respect the blacklist and the high water mark *)

Lemma grows_refl P t : grows P t t.
Proof. exists []. split; [by rewrite app_nil_r | constructor]. Qed.

Lemma grows_snoc P t t' e : grows P t t' → P e → grows P t (t' ++ [e]).
Proof.
  intros (evs & -> & H) He. exists (evs ++ [e]). split; [by rewrite app_assoc|].
  apply Forall_app. split; [done | by constructor].
Qed.

Lemma grows_trans P t1 t2 t3 : grows P t1 t2 → grows P t2 t3 → grows P t1 t3.
Proof.
  intros (e1 & -> & H1) (e2 & -> & H2). exists (e1 ++ e2).
  split; [by rewrite app_assoc | by apply Forall_app].
Qed.

#[local] Instance safe_step_preorder : PreOrder (safe_step hwm).
Proof.
  split.
  - intros s. split; [apply grows_refl | auto].
  - intros s1 s2 s3 [G1 L1] [G2 L2]. split; [eapply grows_trans; eassumption | auto].
Qed.

Ltac grows_solve := first [ apply grows_refl | apply grows_snoc; [ grows_solve | exact I ] ].

(** [safe_step hwm s e] for a state [e] that is [s] with fields other than
    [loads] updated and events other than dispatches emitted. *)
Ltac safe_explicit :=
  split;
  [ cbn; grows_solve
  | cbn; intros _ ?; assumption ].

Ltac safe_here := rel_here (safe_step hwm) safe_explicit.
Ltac safe_call lem := rel_call (safe_step hwm) lem safe_explicit.
Ltac safe_start := rel_start (safe_step hwm).

Lemma filter_exn_inr {A} (p : A → Exn + bool) l l' x :
  filter_exn p l = inr l' → x ∈ l' → x ∈ l ∧ p x = inr true.
Proof.
  revert l'. induction l as [|y l IH]; intros l' H Hx; cbn in H.
  - simplify_eq. by apply elem_of_nil in Hx.
  - destruct (p y) as [e|b] eqn:Hy; [done|].
    destruct (filter_exn p l) as [e|keep]; [done|]. simplify_eq.
    destruct b.
    + apply elem_of_cons in Hx as [->|Hx]; [split; [left | done]|].
      destruct (IH _ eq_refl Hx). split; [by right | done].
    + destruct (IH _ eq_refl Hx). split; [by right | done].
Qed.

Lemma available_below s av i :
  available_engines hwm s = inr av → i ∈ av → hwm ≠ 0 →
  ∃ l, loads s !! i = Some l ∧ l < hwm.
Proof.
  unfold available_engines, hwm_on. intros H Hi Hne.
  case_bool_decide; [done|]. cbn in H.
  destruct (filter_exn_inr _ _ _ _ H Hi) as [_ Hp].
  unfold at_index in Hp. destruct (loads s !! i) as [l|]; [|done].
  exists l. split; [done|]. simplify_eq. by case_bool_decide.
Qed.

Lemma can_run_true s j i :
  can_run hwm s j i = inr true → ∃ t, targets s !! i = Some t ∧ t ∉ blacklist j.
Proof.
  unfold can_run, at_index. intros H.
  destruct (if hwm_on hwm then _ else _) as [e|[|]]; try done.
  destruct (targets s !! i) as [t|]; [|done]. exists t. split; [done|].
  by case_bool_decide.
Qed.

Lemma safe_add_job idx s :
  (0 < hwm → ∃ l, loads s !! idx = Some l ∧ l < hwm) → safe_step hwm s (add_job idx s).1.
Proof.
  intros Hl. split.
  - unfold add_job, at_index. exec.
    destruct (loads s !! idx); [|apply grows_refl]. cbn.
    destruct (targets s !! idx); apply grows_refl.
  - intros Hpos Hok. destruct (Hl Hpos) as (l & Hidx & Hlt).
    unfold add_job, at_index. exec. rewrite Hidx. cbn.
    assert (loads_ok hwm (set_loads (<[idx:=l + 1]> (loads s)) s)) as H1.
    { unfold loads_ok. cbn. apply Forall_insert; [done | lia]. }
    destruct (targets s !! idx); [|exact H1]. cbn.
    unfold loads_ok in *. cbn in *. apply Forall_app. split.
    + by apply Forall_delete.
    + constructor; [lia | constructor].
Qed.

Lemma safe_submit_task r ix s j :
  jobs s !! r = Some j →
  match given ix with
  | Some l => ∀ i, i ∈ l →
      (∃ t, targets s !! i = Some t ∧ t ∉ blacklist j) ∧
      (0 < hwm → ∃ x, loads s !! i = Some x ∧ x < hwm)
  | None => blacklist j = ∅ ∧ hwm ≤ 0
  end →
  safe_step hwm s (submit_task scheme r ix s).1.
Proof.
  intros Hj Hix. safe_start.
  unfold submit_task. wp_step. rewrite Hj. repeat wp_step; try safe_here.
  rename n into idx, s0 into target, Heqs1 into Hidx, Heqs2 into Ht.
  unfold at_index in Ht. destruct (targets s !! idx) as [t|] eqn:Ht'; [|done]. simplify_eq.
  assert ((target ∉ blacklist j) ∧ (0 < hwm → ∃ x, loads s !! idx = Some x ∧ x < hwm))
    as [Hb Hl].
  { destruct (given ix) as [ixs|].
    - unfold at_index in Hidx. destruct (ixs !! _) as [i|] eqn:Hp; [|done]. simplify_eq.
      destruct (Hix idx) as [(t & Ht & Hb) Hl]; [by eapply list_elem_of_lookup_2|].
      split; [congruence | done].
    - destruct Hix as [-> ?]. split; [set_solver | lia]. }
  apply (wp_rel_bind (safe_step hwm) _).
  - apply safe_add_job. cbn. exact Hl.
  - etransitivity; [exact H0|]. split.
    + cbn. apply grows_snoc; [apply grows_refl|]. split; [done|].
      intros Hpos. destruct (Hl Hpos) as (x & -> & ?). eauto.
    + cbn. intros _ ?. assumption.
  - clear H0. intros _ s' H0. repeat first [ wp_step | safe_here ].
Qed.

Ltac safe_leaf := apply (resp_modify _ _); intros ?; safe_explicit.
Ltac safe_auto := repeat first [ resp_step | safe_leaf ].

Lemma safe_graph_remove m mid : resp (safe_step hwm) (graph_remove m mid).
Proof. unfold graph_remove. safe_auto. Qed.

Lemma safe_fail_unreachable_with ug m why :
  (∀ d b, resp (safe_step hwm) (ug d b)) →
  resp (safe_step hwm) (fail_unreachable_with ug m why).
Proof.
  intros Hug. unfold fail_unreachable_with. safe_auto;
    first [ apply safe_graph_remove | apply Hug ].
Qed.

Lemma safe_maybe_run_with ug r :
  (∀ d b, resp (safe_step hwm) (ug d b)) →
  resp (safe_step hwm) (maybe_run_with hwm scheme ug r).
Proof.
  intros Hug. safe_start. unfold maybe_run_with.
  repeat first
    [ wp_step
    | safe_call ltac:(by apply safe_fail_unreachable_with)
    | safe_here ].
  - apply (wp_rel_bind (safe_step hwm) _);
      [ eapply safe_submit_task; [exact Heqo|] | exact H0
      | clear H0; intros ? ? ?; wp_step; safe_here ].
    cbn [given]. intros i Hi.
    destruct (filter_exn_inr _ _ _ _ Heqs0 Hi) as [Hav Hcan]. split.
    + by apply can_run_true in Hcan.
    + intros Hpos. eapply available_below; [exact Heqs1 | exact Hav | lia].
  - apply (wp_rel_bind (safe_step hwm) _);
      [ eapply safe_submit_task; [exact Heqo|] | exact H0
      | clear H0; intros ? ? ?; wp_step; safe_here ].
    cbn [given]. unfold set_nonempty, hwm_on in Heqb.
    repeat (apply orb_false_elim in Heqb as [Heqb ?]).
    repeat case_bool_decide; try done. split; [done | lia].
Qed.

Lemma safe_ug_loop ug k :
  (∀ d b, resp (safe_step hwm) (ug d b)) → ∀ local to_restore,
  resp (safe_step hwm) (ug_loop hwm scheme ug k local to_restore).
Proof.
  intros Hug. induction k as [|k IH]; intros local to_restore; [intros s; reflexivity|].
  safe_start. cbn [ug_loop].
  repeat first
    [ wp_step
    | safe_call ltac:(first [ by apply safe_fail_unreachable_with
                            | by apply safe_maybe_run_with
                            | apply IH
                            | apply (resp_for_each (safe_step hwm) _); intros ?;
                              apply safe_graph_remove ])
    | safe_here ].
Qed.

Lemma safe_update_graph fuel : ∀ d b, resp (safe_step hwm) (update_graph hwm scheme fuel d b).
Proof.
  induction fuel as [|n IH]; intros d b; [intros s; reflexivity|].
  safe_start. cbn [update_graph].
  repeat first
    [ wp_step
    | safe_call ltac:(by apply safe_ug_loop)
    | safe_here ].
Qed.

Lemma safe_fail_unreachable fuel m why :
  resp (safe_step hwm) (fail_unreachable hwm scheme fuel m why).
Proof. apply safe_fail_unreachable_with, safe_update_graph. Qed.

Lemma safe_maybe_run fuel r : resp (safe_step hwm) (maybe_run hwm scheme fuel r).
Proof. apply safe_maybe_run_with, safe_update_graph. Qed.

Lemma safe_save_unmet now r : resp (safe_step hwm) (save_unmet now r).
Proof. unfold save_unmet. safe_auto. Qed.

Lemma safe_dispatch_submission fuel now sub :
  resp (safe_step hwm) (dispatch_submission hwm scheme fuel now sub).
Proof.
  unfold dispatch_submission, dispatch_submission_body. safe_auto;
    first [ apply safe_fail_unreachable | apply safe_maybe_run | apply safe_save_unmet ].
Qed.

Lemma safe_job_timeout fuel r tid : resp (safe_step hwm) (job_timeout hwm scheme fuel r tid).
Proof. unfold job_timeout. safe_auto. apply safe_fail_unreachable. Qed.

Lemma safe_handle_result fuel engine client m ok :
  resp (safe_step hwm) (handle_result hwm scheme fuel engine client m ok).
Proof. unfold handle_result. safe_auto; apply safe_update_graph. Qed.

Lemma safe_handle_unmet_dependency fuel now engine m :
  resp (safe_step hwm) (handle_unmet_dependency hwm scheme fuel now engine m).
Proof.
  unfold handle_unmet_dependency. safe_auto;
    first [ apply safe_fail_unreachable | apply safe_maybe_run | apply safe_save_unmet
          | apply safe_update_graph ].
Qed.

Lemma safe_finish_job idx : resp (safe_step hwm) (finish_job idx).
Proof.
  intros s. unfold finish_job, at_index. exec.
  destruct (loads s !! idx) as [l|] eqn:Hl; [|reflexivity]. cbn.
  split; [apply grows_refl|]. intros _ Hok. unfold loads_ok in *. cbn.
  apply Forall_insert; [done|]. pose proof (Forall_lookup_1 _ _ _ _ Hok Hl). cbn in *. lia.
Qed.

Lemma safe_dispatch_result fuel now res :
  resp (safe_step hwm) (dispatch_result hwm scheme fuel now res).
Proof.
  unfold dispatch_result, dispatch_result_body. safe_auto;
    first [ apply safe_finish_job | apply safe_handle_unmet_dependency
          | apply safe_handle_result ].
Qed.

Lemma safe_register_engine fuel uid :
  resp (safe_step hwm) (register_engine hwm scheme fuel uid).
Proof.
  unfold register_engine. safe_auto; try apply safe_update_graph.
  apply (resp_modify _ _). intros s. split; [apply grows_refl|].
  intros Hpos Hok. unfold loads_ok in *. cbn. constructor; [lia | done].
Qed.

Lemma safe_unregister_engine now uid : resp (safe_step hwm) (unregister_engine now uid).
Proof.
  unfold unregister_engine. safe_auto.
  apply (resp_modify _ _). intros s. split; [apply grows_refl|].
  intros _ Hok. unfold loads_ok in *. cbn. by apply Forall_delete.
Qed.

Lemma safe_handle_stranded_tasks fuel now uid :
  resp (safe_step hwm) (handle_stranded_tasks hwm scheme fuel now uid).
Proof. unfold handle_stranded_tasks. safe_auto. apply safe_dispatch_result. Qed.

Lemma safe_handler fuel msg : resp (safe_step hwm) (handler hwm scheme fuel msg).
Proof.
  destruct msg as [now sub|now res|uid|now uid|now [r tid|uid]]; cbn [handler].
  - apply safe_dispatch_submission.
  - apply safe_dispatch_result.
  - apply (resp_log_errors _ _), safe_register_engine.
  - apply (resp_log_errors _ _), safe_unregister_engine.
  - apply (resp_log_errors _ _), safe_job_timeout.
  - apply (resp_log_errors _ _), safe_handle_stranded_tasks.
Qed.

Lemma safe_step_new_events {A} (m : M A) s :
  safe_step hwm s (m s).1 → Forall (dispatch_ok hwm) (new_events m s).
Proof.
  intros [(evs & E & H) _]. unfold new_events. rewrite E, drop_app_length. exact H.
Qed.

Lemma reachable_safe s : reachable hwm scheme s → safe_step hwm initial s.
Proof.
  induction 1 as [|s fuel msg _ IH _]; [reflexivity|].
  etransitivity; [exact IH | apply safe_handler].
Qed.

(** C8. Whatever the state, the job and the message handled, no dispatch
    made by [maybe_run] (through [submit_task]), directly or inside a
    handler, sends a job to an engine that is on the blacklist the job has
    at that moment. *)
Theorem dispatch_avoids_blacklist fuel s :
  (∀ r, Forall off_blacklist (new_events (maybe_run hwm scheme fuel r) s)) ∧
  (∀ msg, Forall off_blacklist (new_events (handler hwm scheme fuel msg) s)).
Proof.
  assert (∀ e, dispatch_ok hwm e → off_blacklist e) as Hok.
  { intros [] H; try exact I. cbn in *. tauto. }
  split.
  - intros r. eapply Forall_impl; [|exact Hok].
    apply safe_step_new_events, safe_maybe_run.
  - intros msg. eapply Forall_impl; [|exact Hok].
    apply safe_step_new_events, safe_handler.
Qed.

(** C2. With a positive high water mark, every dispatch made by
    [maybe_run] from any state, alone or inside a handler, goes to an
    engine whose load is below [hwm] (so never equal to it), and in every
    reachable state all loads are at most [hwm]. *)
Theorem hwm_respected :
  0 < hwm →
  (∀ fuel r s, Forall (below_hwm hwm) (new_events (maybe_run hwm scheme fuel r) s)) ∧
  (∀ fuel msg s, Forall (below_hwm hwm) (new_events (handler hwm scheme fuel msg) s)) ∧
  (∀ s, reachable hwm scheme s → loads_ok hwm s).
Proof.
  intros Hpos.
  assert (∀ e, dispatch_ok hwm e → below_hwm hwm e) as Hok.
  { intros [] H; try exact I. cbn in *. destruct H as [_ H]. auto. }
  split_and!.
  - intros fuel r s. eapply Forall_impl; [|exact Hok].
    apply safe_step_new_events, safe_maybe_run.
  - intros fuel msg s. eapply Forall_impl; [|exact Hok].
    apply safe_step_new_events, safe_handler.
  - intros s Hs. destruct (reachable_safe s Hs) as [_ H]. apply H; [done|].
    unfold loads_ok. cbn. constructor.
Qed.

Lemma canonical_after_spec d s :
  dep_all d = true → canonical_after (Some d) s = spec_after d s.
Proof.
  intros Hall. unfold canonical_after, spec_after, reduced_after, relevant_pool, mkDependency.
  rewrite Hall. destruct d as [ids a [] []]; cbn in *; subst.
  - replace (ids ∖ all_completed s ∖ all_failed s)
      with (ids ∖ (all_completed s ∪ all_failed s)) by set_solver. done.
  - replace (ids ∖ (all_completed s ∪ ∅)) with (ids ∖ all_completed s) by set_solver. done.
  - replace (ids ∖ (∅ ∪ all_failed s)) with (ids ∖ all_failed s) by set_solver. done.
  - replace (ids ∖ (∅ ∪ ∅)) with ids by set_solver. done.
Qed.

Lemma log_errors_state m s : (log_errors m s).1 = (m s).1.
Proof. unfold log_errors. by destruct (m s) as [s' [| |]]. Qed.

Lemma dispatch_submission_job fuel now sub s :
  ∃ j, jobs (dispatch_submission hwm scheme fuel now sub s).1 !! new_ref s = Some j ∧
       job_frame (new_job now sub (canonical_after (md_after sub) s)) j.
Proof.
  set (job := new_job now sub (canonical_after (md_after sub) s)).
  assert (∃ s2, jobs s2 !! new_ref s = Some job ∧
                frame s2 (dispatch_submission hwm scheme fuel now sub s).1)
    as (s2 & Hjob & _ & _ & HJ).
  { unfold dispatch_submission. rewrite log_errors_state.
    eexists. split; cycle 1.
    - match goal with |- frame ?s2 (?m s).1 => change (wp m (λ s' _, frame s2 s') s) end.
      unfold dispatch_submission_body. do 5 wp_step.
      match goal with |- wp _ (λ s' _, frame ?s2 s') ?s3 =>
        unify s2 s3; assert (frame s2 s3) by reflexivity end.
      repeat first
        [ wp_step
        | frame_call ltac:(first [ apply frame_fail_unreachable | apply frame_maybe_run
                                 | apply frame_save_unmet ])
        | frame_here ].
    - cbn. apply lookup_insert_eq. }
  destruct (HJ (new_ref s) job Hjob) as (j & Hj & F). eauto.
Qed.

(** C6. For a submission whose [after] has [all] set, the job object the
    scheduler creates holds in [after] the submitted dependency without the
    ids already satisfied (flags kept), or [MET] when that is met. *)
Theorem after_is_canonical fuel now sub s d :
  md_after sub = Some d → dep_all d = true →
  ∃ j, jobs (dispatch_submission hwm scheme fuel now sub s).1 !! new_ref s = Some j ∧
       msg_id j = sub_msg_id sub ∧ after j = spec_after d s.
Proof.
  intros Hd Hall.
  destruct (dispatch_submission_job fuel now sub s) as (j & Hj & Hm & _ & _ & Ha & _).
  exists j. repeat split; [done | done |].
  rewrite Ha. cbn. rewrite Hd. by apply canonical_after_spec.
Qed.

(** *** What [fail_unreachable] does to a job that is in [queue_map] *)

Lemma graph_remove_eval m mid s :
  graph_remove m mid s =
  match graph s !! mid with
  | None => (s, Done tt)
  | Some g =>
    if bool_decide (m ∈ g) then (set_graph (<[mid:=g ∖ {[m]}]> (graph s)) s, Done tt)
    else (s, Raised KeyError)
  end.
Proof.
  unfold graph_remove. exec. destruct (graph s !! mid); [|done]. by case_bool_decide.
Qed.

Lemma graph_removes_done m l : ∀ s,
  NoDup l → (∀ mid g, mid ∈ l → graph s !! mid = Some g → m ∈ g) →
  ∃ G, for_each l (graph_remove m) s = (set_graph G s, Done tt).
Proof.
  induction l as [|mid l IH]; intros s Hnd Hl; cbn [for_each].
  - exists (graph s). by destruct s.
  - apply NoDup_cons in Hnd as [Hnot Hnd]. unfold mbind, M_bind.
    rewrite graph_remove_eval.
    destruct (graph s !! mid) as [g|] eqn:Hg.
    + rewrite bool_decide_eq_true_2 by (eapply Hl; [left | done]).
      destruct (IH (set_graph (<[mid:=g ∖ {[m]}]> (graph s)) s) Hnd) as [G HG].
      { intros mid' g' Hin. cbn. rewrite lookup_insert_ne by (intros ->; done).
        apply Hl. by right. }
      rewrite HG. exists G. done.
    + destruct (IH s Hnd) as [G HG]; [intros ???; apply Hl; by right|].
      rewrite HG. eauto.
Qed.

Lemma wp_bind_eval {A B} (m : M A) (f : A → M B) Q s s' a :
  m s = (s', Done a) → wp (f a) Q s' → wp (m ≫= f) Q s.
Proof. intros E H. apply wp_bind. unfold wp at 1. rewrite E. exact H. Qed.

Lemma fail_unreachable_with_replies ug m why s r j :
  (∀ d b, resp frame (ug d b)) →
  queue_map s !! m = Some r → jobs s !! r = Some j → graph_lists s j m →
  ∃ evs, trace (fail_unreachable_with ug m why s).1
         = trace s ++ ErrorReply m why (idents j) :: MonOuttask m :: evs.
Proof.
  intros Hug Hq Hj Hg.
  change (wp (fail_unreachable_with ug m why)
            (λ s' _, ∃ evs, trace s' = trace s ++ ErrorReply m why (idents j)
                                                  :: MonOuttask m :: evs) s).
  unfold fail_unreachable_with. wp_step. rewrite Hq. wp_step. wp_step.
  cbn [jobs set_queue_map]. rewrite Hj. wp_step.
  match goal with |- wp (for_each ?l ?b ≫= _) _ ?s1 =>
    destruct (graph_removes_done m l s1) as [G HG]
  end.
  { apply NoDup_elements. }
  { intros mid g Hin. cbn. apply Hg. by apply elem_of_elements. }
  eapply wp_bind_eval; [exact HG|]. do 4 wp_step.
  match goal with |- wp (ug ?d ?b) _ ?s1 =>
    destruct (Hug d b s1) as (_ & [evs Ht] & _); exists evs
  end.
  rewrite Ht. cbn. by rewrite <- !app_assoc.
Qed.

(** *** [maybe_run] when the filter leaves no engine *)

Lemma set_nonempty_true (x : gset EngineId) : x ≠ ∅ → set_nonempty x = true.
Proof. intros H. unfold set_nonempty. by rewrite bool_decide_eq_false_2. Qed.



(** *** Results: retries and blacklist *)

Lemma frame_handle_result fuel engine client m ok :
  resp frame (handle_result hwm scheme fuel engine client m ok).
Proof. unfold handle_result. frame_auto; apply frame_update_graph. Qed.

Lemma find_index_lt x l i : find_index x l = Some i → (i < length l)%nat.
Proof.
  revert i. induction l as [|y l IH]; intros i H; cbn in *; [done|].
  case_bool_decide; simplify_eq; [lia|].
  destruct (find_index x l); simplify_eq/=. specialize (IH _ eq_refl). lia.
Qed.

Lemma attempt_finish_job s engine :
  (length (targets s) ≤ length (loads s))%nat →
  ∃ L, attempt (match find_index engine (targets s) with
                | Some idx => finish_job idx
                | None => mret tt
                end) s = (set_loads L s, Done true).
Proof.
  intros Hlen. unfold attempt. destruct (find_index engine (targets s)) as [idx|] eqn:Hi.
  - apply find_index_lt in Hi.
    destruct (lookup_lt_is_Some_2 (loads s) idx) as [l Hl]; [lia|].
    unfold finish_job, at_index. exec. rewrite Hl. cbn. eauto.
  - exists (loads s). cbn. by destruct s.
Qed.

(** *** Timeouts *)

Lemma job_timeout_cases fuel r tid s j :
  jobs s !! r = Some j →
  (timeout_id j ≠ tid → job_timeout hwm scheme fuel r tid s = (s, Done tt)) ∧
  (timeout j = None ∨ queue_map s !! msg_id j = None →
   (job_timeout hwm scheme fuel r tid s).1 = s) ∧
  (timeout_id j = tid → is_Some (timeout j) → is_Some (queue_map s !! msg_id j) →
   job_timeout hwm scheme fuel r tid s
   = fail_unreachable hwm scheme fuel (msg_id j) TaskTimeout s).
Proof.
  intros Hj. unfold job_timeout. exec. rewrite Hj. split_and!.
  - intros H. by rewrite bool_decide_eq_false_2.
  - intros H. case_bool_decide; [|done]. destruct (timeout j) as [t|]; [|done].
    destruct H as [H|H]; [done|]. cbn.
    rewrite bool_decide_eq_false_2; [done|].
    rewrite elem_of_dom, H. by intros [? ?].
  - intros Htid [t Ht] Hq. rewrite bool_decide_eq_true_2 by done. rewrite Ht. cbn.
    by rewrite bool_decide_eq_true_2 by (by rewrite elem_of_dom).
Qed.

(** *** A job that is set aside is not dispatched *)

Lemma wp_post_bind {A B} (I : State → Prop) (P : A → Prop) (P' : B → Prop)
    (m : M A) (f : A → M B) s :
  wp m (post I P) s →
  (∀ a s', I s' → P a → wp (f a) (post I P') s') →
  wp (m ≫= f) (post I P') s.
Proof.
  intros Hm Hf. apply wp_bind. unfold wp in Hm |- *. unfold post in Hm at 1.
  destruct (m s) as [s' [a|e|]]; cbn [fst snd] in *; destruct Hm as [HI HP].
  - apply Hf; auto.
  - split; [done | intros ? [=]].
  - split; [done | intros ? [=]].
Qed.

Lemma wp_post_weaken {A} (I : State → Prop) (P P' : A → Prop) (m : M A) s :
  wp m (post I P) s → (∀ a, P a → P' a) → wp m (post I P') s.
Proof. intros H HP. eapply wp_mono; [exact H|]. intros s' r [? ?]. split; auto. Qed.

Lemma wp_post_for_each {A} (I : State → Prop) (xs : list A) body s :
  (∀ x s', I s' → wp (body x) (post I (λ _, True)) s') → I s →
  wp (for_each xs body) (post I (λ _, True)) s.
Proof.
  intros Hb. revert s. induction xs as [|x xs IH]; intros s HI; cbn [for_each].
  - split; [done | auto].
  - eapply wp_post_bind; [by apply Hb|]. intros _ s' HI' _. by apply IH.
Qed.

Section Aside.
Variable r : JobRef.
Variable t0 : list Event.

Lemma aside_field s s' :
  queue s' = queue s → queue_map s' = queue_map s → pending s' = pending s →
  trace s' = trace s → aside r t0 s → aside r t0 s'.
Proof. unfold aside, idle. intros -> -> -> ->. done. Qed.

Lemma aside_emit e s :
  not_dispatch r e → aside r t0 s → aside r t0 (set_trace (trace s ++ [e]) s).
Proof. intros He [HI HG]. split; [exact HI | by apply grows_snoc]. Qed.

Lemma aside_queue q s :
  r ∉ q → aside r t0 s → aside r t0 (set_queue q s).
Proof. intros Hq [(_ & ? & ?) HG]. done. Qed.

Lemma aside_queue_map_delete m s :
  aside r t0 s → aside r t0 (set_queue_map (delete m (queue_map s)) s).
Proof.
  intros [(? & Hqm & ?) HG]. split; [|done]. split_and!; [done | | done].
  intros m'. cbn. rewrite lookup_delete. case_decide; [done | apply Hqm].
Qed.

Lemma aside_queue_map_insert m r' s :
  r' ≠ r → aside r t0 s → aside r t0 (set_queue_map (<[m:=r']> (queue_map s)) s).
Proof.
  intros Hne [(? & Hqm & ?) HG]. split; [|done]. split_and!; [done | | done].
  intros m'. cbn. rewrite lookup_insert. case_decide; [congruence | apply Hqm].
Qed.

Lemma aside_graph_remove m mid s :
  aside r t0 s → wp (graph_remove m mid) (post (aside r t0) (λ _, True)) s.
Proof.
  intros HI. unfold wp. rewrite graph_remove_eval.
  destruct (graph s !! mid); [case_bool_decide|]; (split; [|done]); done.
Qed.


Ltac aside_peel :=
  lazymatch goal with
  | H : aside ?r ?t ?s |- aside ?r ?t ?s => exact H
  | |- aside _ _ (set_queue_map (delete _ (queue_map ?s')) ?s') =>
      apply aside_queue_map_delete; aside_peel
  | |- aside _ _ (set_queue_map (<[_:=_]> (queue_map ?s')) ?s') =>
      apply aside_queue_map_insert; [ assumption | aside_peel ]
  | |- aside _ _ (set_trace (trace ?s' ++ [_]) ?s') =>
      apply aside_emit; [ first [ exact I | assumption ] | aside_peel ]
  | |- aside _ _ (set_queue _ _) => apply aside_queue; [ | aside_peel ]
  | |- aside ?r ?t (set_jobs _ ?s') => change (aside r t s'); aside_peel
  | |- aside ?r ?t (set_graph _ ?s') => change (aside r t s'); aside_peel
  | |- aside ?r ?t (set_all_done _ ?s') => change (aside r t s'); aside_peel
  | |- aside ?r ?t (set_all_failed _ ?s') => change (aside r t s'); aside_peel
  | |- aside ?r ?t (set_draws _ ?s') => change (aside r t s'); aside_peel
  | |- aside ?r ?t (set_loads _ ?s') => change (aside r t s'); aside_peel
  | |- aside ?r ?t (set_targets _ ?s') => change (aside r t s'); aside_peel
  end.

Ltac aside_leaf :=
  lazymatch goal with
  | |- post _ _ _ _ => split; [ aside_peel | first [ done | intros ? [=]; done ] ]
  end.

Ltac aside_call lem := eapply wp_post_bind; [ lem | intros ? ? ? ? ].

Lemma aside_add_job idx s :
  aside r t0 s → wp (add_job idx) (post (aside r t0) (λ _, True)) s.
Proof. intros HI. unfold add_job. repeat first [ wp_step | aside_leaf ]. Qed.

Lemma aside_submit_task r' ix s :
  r' ≠ r → aside r t0 s →
  wp (submit_task scheme r' ix) (post (aside r t0) (λ _, True)) s.
Proof.
  intros Hne HI.
  assert (∀ e p m, pending s !! e = Some p → p !! m ≠ Some r) as Hpend
    by (destruct HI as [(_ & _ & ?) _]; done).
  unfold submit_task. repeat first [ wp_step | aside_leaf ].
  aside_call ltac:(apply aside_add_job; aside_peel).
  wp_step. unfold item. destruct (pending s !! _) as [p|] eqn:Hp; [|aside_leaf].
  wp_step. wp_step. split; [|done].
  apply aside_emit; [exact I|].
  match goal with H : aside r t0 ?s' |- _ => destruct H as [(Hq & Hqm & Hpd) HG] end.
  split; [|exact HG]. split_and!; [done | done |].
  intros e p' m'. cbn. rewrite lookup_insert. case_decide; [|apply Hpd].
  intros [= <-]. rewrite lookup_insert. case_decide; [congruence | by eapply Hpend].
Qed.

Lemma aside_fail_unreachable_with ug m why s :
  (∀ d b s', aside r t0 s' → wp (ug d b) (post (aside r t0) (λ _, True)) s') →
  aside r t0 s →
  wp (fail_unreachable_with ug m why) (post (aside r t0) (λ _, True)) s.
Proof.
  intros Hug HI. unfold fail_unreachable_with.
  repeat first
    [ wp_step
    | aside_call ltac:(apply wp_post_for_each;
                       [ intros ? ? ?; by apply aside_graph_remove | aside_peel ])
    | apply Hug; aside_peel
    | aside_leaf ].
Qed.

Lemma aside_maybe_run_with ug r' s :
  (∀ d b s', aside r t0 s' → wp (ug d b) (post (aside r t0) (λ _, True)) s') →
  r' ≠ r → aside r t0 s →
  wp (maybe_run_with hwm scheme ug r') (post (aside r t0) (λ _, True)) s.
Proof.
  intros Hug Hne HI. unfold maybe_run_with.
  repeat first
    [ wp_step
    | aside_call ltac:(first [ apply aside_fail_unreachable_with; [exact Hug | aside_peel]
                             | apply aside_submit_task; [exact Hne | aside_peel] ])
    | aside_leaf ].
Qed.

Lemma aside_ug_loop ug k :
  (∀ d b s', aside r t0 s' → wp (ug d b) (post (aside r t0) (λ _, True)) s') →
  ∀ local to_restore s,
  aside r t0 s → r ∉ to_restore → (∀ l, local = Some l → r ∉ l) →
  wp (ug_loop hwm scheme ug k local to_restore) (post (aside r t0) (λ l, r ∉ l)) s.
Proof.
  intros Hug. induction k as [|k IH]; intros local tr s HI Htr Hloc; [by split|].
  cbn [ug_loop]. wp_step.
  destruct (default (queue s) local) as [|r' rest] eqn:Hjobs.
  { wp_step. split; [done | by intros ? [= <-]]. }
  assert (r' ≠ r ∧ r ∉ rest) as [Hne Hrest].
  { assert (r ∉ r' :: rest) as Hn.
    { rewrite <- Hjobs. destruct local as [l|]; cbn; [by apply Hloc|].
      by destruct HI as [(? & _) _]. }
    apply not_elem_of_cons in Hn as [? ?]. done. }
  assert (r ∉ (if local is None then tr ++ [r'] else tr)) as Hkept.
  { destruct local; [done|]. rewrite elem_of_app, list_elem_of_singleton.
    intros [?|?]; [done | congruence]. }
  assert (∀ l, (λ _, rest) <$> local = Some l → r ∉ l) as Hloc'.
  { intros l. destruct local; cbn; [|done]. by intros [= <-]. }
  assert (aside r t0 (if local is None then set_queue rest s else s)) as HI'.
  { destruct local; [done|]. by apply aside_queue. }
  assert (wp (if local is None then modify (set_queue rest) else mret tt)
            (post (aside r t0) (λ _, True)) s) as Hpop.
  { destruct local; (split; [exact HI' | done]). }
  clear HI'. eapply wp_post_bind; [exact Hpop|]. clear Hpop. intros _ s1 HI1 _.
  cbv zeta.
  repeat first
    [ wp_step
    | apply IH; [ aside_peel | assumption | assumption ]
    | aside_call ltac:(first
        [ apply aside_fail_unreachable_with; [exact Hug | aside_peel]
        | apply aside_maybe_run_with; [exact Hug | exact Hne | aside_peel]
        | apply wp_post_for_each;
          [ intros ? ? ?; by apply aside_graph_remove | aside_peel ] ])
    | aside_leaf
    | (split; [ aside_peel | intros ? [= <-]; assumption ]) ].
Qed.

Lemma insert_job_refs x l : fst <$> insert_job x l ≡ₚ x.1 :: (fst <$> l).
Proof.
  induction l as [|y l IH]; cbn; [done|]. case_bool_decide; cbn; [done|].
  rewrite IH. apply Permutation_swap.
Qed.

Lemma sorted_jobs_refs l : fst <$> sorted_jobs l ≡ₚ fst <$> l.
Proof.
  unfold sorted_jobs.
  assert (∀ acc, fst <$> foldl (λ acc x, insert_job x acc) acc l
                 ≡ₚ (fst <$> acc) ++ (fst <$> l)) as H.
  { induction l as [|x l IH]; intros acc; cbn [foldl].
    - by rewrite app_nil_r.
    - rewrite IH, insert_job_refs. cbn. by rewrite Permutation_middle. }
  apply H.
Qed.

Lemma mapM_refs_pairs (J : gmap JobRef Job) refs js :
  mapM (λ r', pair r' <$> J !! r') refs = Some js → fst <$> js = refs.
Proof.
  intros H. apply mapM_Some in H. induction H as [|x y l k Hxy _ IH]; [done|].
  cbn. rewrite IH. destruct (J !! x); simplify_eq/=. done.
Qed.

Lemma aside_update_graph fuel :
  ∀ d b s, aside r t0 s →
  wp (update_graph hwm scheme fuel d b) (post (aside r t0) (λ _, True)) s.
Proof.
  induction fuel as [|n IH]; intros d b s HI; [by split|].
  cbn [update_graph]. wp_step.
  set (ids := match d with Some d' => default ∅ (graph s !! d') | None => ∅ end).
  assert (wp (if d is Some d' then modify (set_graph (delete d' (graph s))) else mret tt)
            (post (λ s', aside r t0 s' ∧ queue_map s' = queue_map s ∧ jobs s' = jobs s
                         ∧ loads s' = loads s) (λ _, True)) s) as Hpop.
  { destruct d; (split; [|done]); done. }
  apply wp_bind. eapply wp_mono; [exact Hpop|]. clear Hpop.
  intros s1 [[]|e|] [(HI1 & Eqm & Ej & El) _]; [|by split..].
  cbv zeta. rewrite <- El.
  destruct (bool_decide (d = None)
            || hwm_on hwm && existsb (λ load, bool_decide (load = hwm - 1)) (loads s1)).
  - wp_step. aside_call ltac:(apply aside_ug_loop; [exact IH | exact HI1 | | done]).
    { apply not_elem_of_nil. }
    wp_step. split; [|done]. apply aside_queue; [|assumption].
    rewrite elem_of_app, elem_of_reverse.
    match goal with H : aside r t0 ?s' |- ¬ (_ ∨ _ ∈ queue ?s') =>
      destruct H as [(Hq & _) _] end. cbv beta in *. tauto.
  - wp_step. wp_step.
    destruct (mapM (λ m, queue_map s !! m) (elements ids)) as [refs|] eqn:Hrefs;
      [|by split].
    wp_step. wp_step.
    destruct (mapM (λ r', pair r' <$> jobs s !! r') refs) as [js|] eqn:Hjs; [|by split].
    wp_step.
    aside_call ltac:(apply aside_ug_loop; [exact IH | exact HI1 | apply not_elem_of_nil | ]).
    2: { wp_step. by split. }
    intros l [= <-]. rewrite sorted_jobs_refs, (mapM_refs_pairs _ _ _ Hjs).
    intros Hin. apply mapM_Some in Hrefs.
    destruct (proj1 (list_elem_of_lookup _ _) Hin) as [i Hi].
    destruct (Forall2_lookup_r _ _ _ _ _ Hrefs Hi) as (m & _ & Hm).
    destruct HI as [(_ & Hqm & _) _]. by apply (Hqm m).
Qed.

Lemma aside_fail_unreachable_queued fuel m why r' s :
  queue_map s !! m = Some r' →
  aside r t0 (set_queue_map (delete m (queue_map s)) s) →
  wp (fail_unreachable hwm scheme fuel m why) (post (aside r t0) (λ _, True)) s.
Proof.
  intros Hq HI. unfold fail_unreachable, fail_unreachable_with. wp_step. rewrite Hq.
  repeat first
    [ wp_step
    | aside_call ltac:(apply wp_post_for_each;
                       [ intros ? ? ?; by apply aside_graph_remove | aside_peel ])
    | apply aside_update_graph; aside_peel
    | aside_leaf ].
Qed.

End Aside.

(** *** Submissions with a faulty dependency *)

Lemma validate_fault m s d why : fault m s d why → validate m d s = Some why.
Proof.
  unfold fault, validate, invalid_dep, dep_nonempty. intros (Hne & H).
  rewrite bool_decide_eq_false_2 by done. cbn.
  destruct H as [(Hinv & ->)|(Hval & Hun & ->)].
  - destruct Hinv as [Hin|Hsub].
    + by rewrite bool_decide_eq_true_2.
    + rewrite (bool_decide_eq_false_2 (dep_ids d ∖ all_ids s = ∅)); [by rewrite orb_true_r|].
      intros He. apply Hsub. intros x Hx. destruct (decide (x ∈ all_ids s)); [done|].
      assert (x ∈ dep_ids d ∖ all_ids s) as Hd by set_solver. rewrite He in Hd. set_solver.
  - rewrite bool_decide_eq_false_2 by tauto.
    rewrite (bool_decide_eq_true_2 (dep_ids d ∖ all_ids s = ∅)).
    + cbn. by rewrite Hun.
    + apply set_eq. intros x. split; [|set_solver]. intros Hx.
      apply elem_of_difference in Hx as [Hx Hn]. exfalso. apply Hval. right.
      intros Hs. by apply Hn, Hs.
Qed.

Lemma validate_faultless m s d : faultless m s d → validate m d s = None.
Proof.
  unfold faultless, validate, invalid_dep, dep_nonempty. intros [He|(Hval & Hun)].
  - by rewrite bool_decide_eq_true_2.
  - destruct (bool_decide (dep_ids d = ∅)); [done|]. cbn.
    rewrite bool_decide_eq_false_2 by tauto.
    rewrite (bool_decide_eq_true_2 (dep_ids d ∖ all_ids s = ∅)).
    + cbn. by rewrite Hun.
    + apply set_eq. intros x. split; [|set_solver]. intros Hx.
      apply elem_of_difference in Hx as [Hx Hn]. exfalso.
      destruct (decide (dep_ids d ⊆ all_ids s)) as [Hs|Hs]; [by apply Hn, Hs | tauto].
Qed.

Lemma refs_valid_idle s : refs_valid s → idle (new_ref s) s.
Proof.
  intros (Hq & Hqm & Hp).
  assert (jobs s !! new_ref s = None) as Hfresh.
  { apply not_elem_of_dom. unfold new_ref. apply is_fresh. }
  split_and!.
  - intros Hin. destruct (Hq _ Hin) as [? ?]. congruence.
  - intros m Hm. destruct (Hqm _ _ Hm) as [? ?]. congruence.
  - intros e p m He Hm. destruct (Hp _ _ _ _ He Hm) as [? ?]. congruence.
Qed.

(** *** The graph lists the waiting jobs *)

Lemma wp_live_bind {A B} (I : State → Prop) (m : M A) (f : A → M B) s :
  wp m (live I) s → (∀ a s', I s' → wp (f a) (live I) s') → wp (m ≫= f) (live I) s.
Proof.
  intros Hm Hf. apply wp_bind. unfold wp in Hm |- *. unfold live in Hm at 1.
  destruct (m s) as [s' [a|e|]]; cbn [fst snd] in *.
  - apply Hf. by apply Hm.
  - intros _. by apply Hm.
  - by intros ?.
Qed.

Lemma wp_live_for_each {A} (I : State → Prop) (xs : list A) body s :
  (∀ x s', I s' → wp (body x) (live I) s') → I s → wp (for_each xs body) (live I) s.
Proof.
  intros Hb. revert s. induction xs as [|x xs IH]; intros s HI; cbn [for_each].
  - by intros _.
  - eapply wp_live_bind; [by apply Hb|]. intros _ s' HI'. by apply IH.
Qed.

#[local] Instance same_core_preorder : PreOrder same_core.
Proof.
  split.
  - intros s. by repeat split.
  - intros s1 s2 s3 (?&?&?&?) (?&?&?&?). repeat split; congruence.
Qed.

Ltac core_leaf := apply (resp_modify _ _); intros ?; repeat split; reflexivity.
Ltac core_auto := repeat first [ resp_step | core_leaf ].

Lemma core_add_job idx : resp same_core (add_job idx).
Proof. unfold add_job. core_auto. Qed.

Lemma core_finish_job idx : resp same_core (finish_job idx).
Proof. unfold finish_job. core_auto. Qed.

Lemma core_submit_task r ix : resp same_core (submit_task scheme r ix).
Proof. unfold submit_task. core_auto. apply core_add_job. Qed.

Lemma graph_inv_core x s s' : same_core s s' → graph_inv x s → graph_inv x s'.
Proof.
  unfold graph_inv, registered, graph_open, queued_valid.
  intros (-> & -> & -> & ->). done.
Qed.

Lemma graph_inv_weaken x s : graph_inv None s → graph_inv x s.
Proof.
  intros (? & Ho & ?). split_and!; [done | | done].
  intros mid H1 H2. by specialize (Ho mid H1 H2).
Qed.

Lemma graph_inv_alter x f r s :
  (∀ j, dependents (f j) = dependents j) →
  graph_inv x s → graph_inv x (set_jobs (alter f r (jobs s)) s).
Proof.
  intros Hf (Hr & Ho & Hv). split_and!; [|done|].
  - intros m r' j mid Hq Hj Hmid. cbn in *.
    apply lookup_alter_Some in Hj as [(-> & j0 & Hj0 & ->)|(? & Hj)].
    + rewrite Hf in Hmid. exact (Hr _ _ _ _ Hq Hj0 Hmid).
    + exact (Hr _ _ _ _ Hq Hj Hmid).
  - intros m r' Hq. cbn in *. destruct (Hv _ _ Hq) as [j Hj].
    destruct (decide (r = r')) as [->|]; [rewrite lookup_alter_eq, Hj | rewrite lookup_alter_ne by done]; eauto.
Qed.

Lemma graph_inv_delete x m s :
  graph_inv x s → graph_inv x (set_queue_map (delete m (queue_map s)) s).
Proof.
  intros (Hr & Ho & Hv). split_and!; [|done|].
  - intros m' r j mid Hq. cbn in Hq. apply lookup_delete_Some in Hq as [_ Hq].
    by apply Hr.
  - intros m' r Hq. cbn in Hq. apply lookup_delete_Some in Hq as [_ Hq]. by eapply Hv.
Qed.

Lemma graph_inv_graph_remove x m mid g s :
  queue_map s !! m = None → graph s !! mid = Some g →
  graph_inv x s → graph_inv x (set_graph (<[mid:=g ∖ {[m]}]> (graph s)) s).
Proof.
  intros Hm Hg (Hr & Ho & Hv). split_and!; [| |done].
  - intros m' r j mid' Hq Hj Hmid. cbn in *.
    destruct (Hr _ _ _ _ Hq Hj Hmid) as [?|(g' & Hg' & Hin)]; [by left|right].
    destruct (decide (mid = mid')) as [->|].
    + exists (g ∖ {[m]}). rewrite lookup_insert_eq. split; [done|].
      simplify_eq. apply elem_of_difference. split; [done|].
      intros ->%elem_of_singleton. congruence.
    + exists g'. by rewrite lookup_insert_ne.
  - intros mid' [g' Hg']. cbn in *. apply Ho.
    destruct (decide (mid = mid')) as [->|]; [eauto|]. rewrite lookup_insert_ne in Hg' by done. eauto.
Qed.

Lemma graph_inv_done m s :
  graph_inv None s → graph_inv (Some m) (set_all_done ({[m]} ∪ all_done s) s).
Proof.
  intros (Hr & Ho & Hv). split_and!; [| |done].
  - intros m' r j mid Hq Hj Hmid. cbn.
    destruct (Hr _ _ _ _ Hq Hj Hmid) as [?|?]; [left; set_solver | by right].
  - intros mid Hg. cbn. intros [->%elem_of_singleton|Hd]%elem_of_union; [done|].
    by specialize (Ho mid Hg Hd).
Qed.

Lemma graph_inv_pop d s :
  d ∈ all_done s → graph_inv (Some d) s →
  graph_inv None (set_graph (delete d (graph s)) s).
Proof.
  intros Hd (Hr & Ho & Hv). split_and!; [| |done].
  - intros m r j mid Hq Hj Hmid. cbn.
    destruct (Hr _ _ _ _ Hq Hj Hmid) as [?|(g & Hg & Hin)]; [by left|].
    destruct (decide (mid = d)) as [->|]; [by left|]. right. exists g.
    by rewrite lookup_delete_ne.
  - intros mid [g Hg]. cbn in *. apply lookup_delete_Some in Hg as [Hne Hg].
    intros Hin. specialize (Ho mid (ex_intro _ g Hg) Hin). congruence.
Qed.

Lemma graph_inv_alloc x r j s :
  jobs s !! r = None → graph_inv x s → graph_inv x (set_jobs (<[r:=j]> (jobs s)) s).
Proof.
  intros Hfresh (Hr & Ho & Hv). split_and!; [|done|].
  - intros m r' j' mid Hq Hj Hmid. cbn in *.
    destruct (Hv _ _ Hq) as [j0 Hj0].
    rewrite lookup_insert_ne in Hj by congruence. exact (Hr _ _ _ _ Hq Hj Hmid).
  - intros m r' Hq. cbn. destruct (Hv _ _ Hq) as [j0 Hj0].
    rewrite lookup_insert_ne by congruence. eauto.
Qed.

Lemma graph_inv_temp x m r s :
  graph_inv x s →
  graph_inv x (set_queue_map
                 (delete m (queue_map (set_queue_map (<[m:=r]> (queue_map s)) s)))
                 (set_queue_map (<[m:=r]> (queue_map s)) s)).
Proof.
  intros H. cbn [queue_map set_queue_map]. rewrite delete_insert_eq.
  by apply (graph_inv_delete x m s).
Qed.

Ltac gi_peel :=
  lazymatch goal with
  | H : graph_inv ?x ?s |- graph_inv ?x ?s => exact H
  | |- graph_inv _ (set_queue_map (delete ?m (queue_map (set_queue_map (<[?m:=_]> _) _)))
                      (set_queue_map (<[?m:=_]> (queue_map ?s')) ?s')) =>
      apply graph_inv_temp; gi_peel
  | |- graph_inv _ (set_queue_map (delete _ (queue_map ?s')) ?s') =>
      apply graph_inv_delete; gi_peel
  | |- graph_inv _ (set_jobs (alter _ _ (jobs ?s')) ?s') =>
      apply graph_inv_alter; [ intros ?; reflexivity | gi_peel ]
  | |- graph_inv ?x (set_trace _ ?s') => change (graph_inv x s'); gi_peel
  | |- graph_inv ?x (set_queue _ ?s') => change (graph_inv x s'); gi_peel
  | |- graph_inv ?x (set_all_failed _ ?s') => change (graph_inv x s'); gi_peel
  | |- graph_inv ?x (set_all_completed _ ?s') => change (graph_inv x s'); gi_peel
  | |- graph_inv ?x (set_all_ids _ ?s') => change (graph_inv x s'); gi_peel
  | |- graph_inv ?x (set_draws _ ?s') => change (graph_inv x s'); gi_peel
  | |- graph_inv ?x (set_loads _ ?s') => change (graph_inv x s'); gi_peel
  | |- graph_inv ?x (set_targets _ ?s') => change (graph_inv x s'); gi_peel
  | |- graph_inv ?x (set_pending _ ?s') => change (graph_inv x s'); gi_peel
  | |- graph_inv ?x (set_completed _ ?s') => change (graph_inv x s'); gi_peel
  | |- graph_inv ?x (set_failed _ ?s') => change (graph_inv x s'); gi_peel
  | |- graph_inv ?x (set_destinations _ ?s') => change (graph_inv x s'); gi_peel
  | |- graph_inv ?x (set_retries _ ?s') => change (graph_inv x s'); gi_peel
  end.

Ltac gi_leaf :=
  lazymatch goal with
  | |- live _ _ _ => intros _; gi_peel
  end.

Ltac gi_call lem := eapply wp_live_bind; [ lem | intros ? ? ? ].

Lemma gi_core {A} (m : M A) x s :
  resp same_core m → graph_inv x s → wp m (live (graph_inv x)) s.
Proof. intros Hm HI _. eapply graph_inv_core; [apply Hm | exact HI]. Qed.

Lemma gi_graph_removes x m l s :
  queue_map s !! m = None → graph_inv x s →
  wp (for_each l (graph_remove m)) (live (graph_inv x)) s.
Proof.
  intros Hm HI.
  eapply wp_mono; [apply (wp_live_for_each (λ s', graph_inv x s' ∧ queue_map s' !! m = None))|].
  - intros mid s' [HI' Hm']. unfold wp. rewrite graph_remove_eval.
    destruct (graph s' !! mid) as [g|] eqn:Hg; [case_bool_decide|]; intros _; try done.
    split; [by apply graph_inv_graph_remove | done].
  - done.
  - intros s' res H Hres. by apply H.
Qed.

Lemma gi_fail_unreachable_with ug m why s :
  (∀ d b s', graph_inv (Some d) s' → d ∈ all_done s' →
     wp (ug (Some d) b) (live (graph_inv None)) s') →
  graph_inv None (set_queue_map (delete m (queue_map s)) s) →
  wp (fail_unreachable_with ug m why) (live (graph_inv None)) s.
Proof.
  intros Hug HI. unfold fail_unreachable_with. wp_step.
  destruct (queue_map s !! m) as [r|] eqn:Hq.
  2: { wp_step. intros _. rewrite delete_id in HI by done. by destruct s. }
  repeat first
    [ wp_step
    | gi_call ltac:(apply gi_graph_removes; [cbn; apply lookup_delete_eq | gi_peel])
    | gi_leaf ].
  apply Hug; [|cbn; set_solver].
  match goal with H : graph_inv None ?s1 |- _ =>
    apply (graph_inv_done m) in H; exact H end.
Qed.

Lemma gi_maybe_run_with ug r s :
  (∀ d b s', graph_inv (Some d) s' → d ∈ all_done s' →
     wp (ug (Some d) b) (live (graph_inv None)) s') →
  graph_inv None s →
  wp (maybe_run_with hwm scheme ug r) (live (graph_inv None)) s.
Proof.
  intros Hug HI. unfold maybe_run_with.
  repeat first
    [ wp_step
    | gi_call ltac:(first [ apply gi_fail_unreachable_with; [exact Hug | gi_peel]
                          | apply gi_core; [apply core_submit_task | gi_peel] ])
    | gi_leaf ].
Qed.

Lemma gi_ug_loop ug k :
  (∀ d b s', graph_inv (Some d) s' → d ∈ all_done s' →
     wp (ug (Some d) b) (live (graph_inv None)) s') →
  ∀ local to_restore s, graph_inv None s →
  wp (ug_loop hwm scheme ug k local to_restore) (live (graph_inv None)) s.
Proof.
  intros Hug. induction k as [|k IH]; intros local tr s HI; [by intros ?|].
  cbn [ug_loop].
  repeat first
    [ wp_step
    | apply IH; gi_peel
    | gi_call ltac:(first
        [ apply gi_fail_unreachable_with; [exact Hug | gi_peel]
        | apply gi_maybe_run_with; [exact Hug | gi_peel]
        | apply gi_graph_removes; [cbn; apply lookup_delete_eq | gi_peel] ])
    | gi_leaf ].
Qed.

Lemma gi_update_graph fuel :
  ∀ d b s, graph_inv d s → (∀ d', d = Some d' → d' ∈ all_done s) →
  wp (update_graph hwm scheme fuel d b) (live (graph_inv None)) s.
Proof.
  induction fuel as [|n IH]; intros d b s HI Hd; [by intros ?|].
  cbn [update_graph]. wp_step.
  assert (wp (if d is Some d' then modify (set_graph (delete d' (graph s))) else mret tt)
            (live (graph_inv None)) s) as Hpop.
  { destruct d as [d'|]; intros _; [|exact HI]. apply graph_inv_pop; [by apply Hd | done]. }
  eapply wp_live_bind; [exact Hpop|]. clear Hpop. intros _ s1 HI1. cbv zeta.
  assert (∀ d0 b0 s', graph_inv (Some d0) s' → d0 ∈ all_done s' →
            wp (update_graph hwm scheme n (Some d0) b0) (live (graph_inv None)) s') as IH'.
  { intros d0 b0 s' H1 H2. apply IH; [done|]. by intros ? [= <-]. }
  repeat first
    [ wp_step
    | gi_call ltac:(apply gi_ug_loop; [exact IH' | gi_peel])
    | gi_leaf ].
Qed.

Lemma gi_update_graph_some fuel d b s :
  graph_inv (Some d) s → d ∈ all_done s →
  wp (update_graph hwm scheme fuel (Some d) b) (live (graph_inv None)) s.
Proof. intros H1 H2. apply gi_update_graph; [done|]. by intros ? [= <-]. Qed.

Lemma gi_update_graph_none fuel b s :
  graph_inv None s → wp (update_graph hwm scheme fuel None b) (live (graph_inv None)) s.
Proof. intros H. apply gi_update_graph; [done|]. by intros ? [=]. Qed.

Lemma gi_fail_unreachable fuel m why s :
  graph_inv None (set_queue_map (delete m (queue_map s)) s) →
  wp (fail_unreachable hwm scheme fuel m why) (live (graph_inv None)) s.
Proof. apply gi_fail_unreachable_with. intros. by apply gi_update_graph_some. Qed.

Lemma gi_maybe_run fuel r s :
  graph_inv None s → wp (maybe_run hwm scheme fuel r) (live (graph_inv None)) s.
Proof. apply gi_maybe_run_with. intros. by apply gi_update_graph_some. Qed.

Lemma register_all m ds s :
  ∃ G, for_each ds (λ dep_id, modify (λ s', set_graph
         (<[dep_id := {[m]} ∪ default ∅ (graph s' !! dep_id)]> (graph s')) s')) s
       = (set_graph G s, Done tt) ∧
       (∀ mid g, graph s !! mid = Some g → ∃ g', G !! mid = Some g' ∧ g ⊆ g') ∧
       (∀ mid, mid ∈ ds → ∃ g', G !! mid = Some g' ∧ m ∈ g') ∧
       (∀ mid, is_Some (G !! mid) → is_Some (graph s !! mid) ∨ mid ∈ ds).
Proof.
  revert s. induction ds as [|d ds IH]; intros s; cbn [for_each].
  - exists (graph s). split_and!.
    + by destruct s.
    + intros mid g Hg. exists g. done.
    + intros mid Hin. by apply elem_of_nil in Hin.
    + intros mid H. by left.
  - destruct (IH (set_graph (<[d:={[m]} ∪ default ∅ (graph s !! d)]> (graph s)) s))
      as (G & HG & Hup & Hin & Hdom).
    exists G. cbn in *. split_and!.
    + exact HG.
    + intros mid g Hg. destruct (decide (d = mid)) as [Heq|Hne]; [subst mid|].
      * destruct (Hup d ({[m]} ∪ default ∅ (graph s !! d))) as (g' & Hg' & Hsub).
        { apply lookup_insert_eq. }
        exists g'. split; [done|]. rewrite Hg in Hsub. cbn in Hsub. set_solver.
      * apply Hup. by rewrite lookup_insert_ne.
    + intros mid [Heq|Hmid]%elem_of_cons; [subst mid|by apply Hin].
      destruct (Hup d ({[m]} ∪ default ∅ (graph s !! d))) as (g' & Hg' & Hsub).
      { apply lookup_insert_eq. }
      exists g'. split; [done|]. set_solver.
    + intros mid H. destruct (Hdom mid H) as [H'|H']; [|right; by right].
      destruct (decide (d = mid)) as [Heq|Hne]; [subst mid; right; by left|].
      rewrite lookup_insert_ne in H' by done. by left.
Qed.

Lemma gi_save_unmet now r s :
  graph_inv None s → wp (save_unmet now r) (live (graph_inv None)) s.
Proof.
  intros HI. unfold save_unmet. wp_step.
  destruct (jobs s !! r) as [j|] eqn:Hj; [|by intros _].
  do 3 wp_step.
  match goal with |- wp (for_each ?ds _ ≫= _) _ ?s1 =>
    destruct (register_all (msg_id j) ds s1) as (G & HG & Hup & Hin & Hdom)
  end.
  eapply wp_bind_eval; [exact HG|].
  match goal with |- wp _ _ ?s2 => assert (graph_inv None s2) as HI2 end.
  { destruct HI as (Hr & Ho & Hv). cbn in *. split_and!.
    - intros m r' j' mid Hq Hj' Hmid. cbn in *.
      apply lookup_insert_Some in Hq as [(<- & <-)|(Hne & Hq)].
      + rewrite Hj in Hj'. simplify_eq.
        destruct (decide (mid ∈ all_done s)) as [?|Hnd]; [by left|right].
        apply Hin, elem_of_elements. unfold dependents in Hmid. set_solver.
      + destruct (Hr _ _ _ _ Hq Hj' Hmid) as [?|(g & Hg & Hm)]; [by left|right].
        destruct (Hup _ _ Hg) as (g' & Hg' & Hsub). exists g'. split; [done|]. by apply Hsub.
    - intros mid HG' Hd. cbn in *. destruct (Hdom mid HG') as [H'|H'].
      + by apply (Ho mid H' Hd).
      + apply elem_of_elements in H'. set_solver.
    - intros m r' Hq. cbn in *.
      apply lookup_insert_Some in Hq as [(<- & <-)|(Hne & Hq)]; [eauto | by eapply Hv]. }
  clear HI. repeat first [ wp_step | gi_leaf ].
Qed.

Lemma wp_live_log_errors (I : State → Prop) m s :
  wp m (live I) s → wp (log_errors m) (live I) s.
Proof.
  unfold wp, log_errors, live. destruct (m s) as [s' [[]|e|]]; cbn; intros H ?;
    apply H; done.
Qed.

Lemma wp_live_attempt (I : State → Prop) m s :
  wp m (live I) s → wp (attempt m) (live I) s.
Proof.
  unfold wp, attempt, live. destruct (m s) as [s' [[]|e|]]; cbn; intros H ?;
    apply H; done.
Qed.

Lemma gi_dispatch_submission fuel now sub s :
  graph_inv None s →
  wp (dispatch_submission hwm scheme fuel now sub) (live (graph_inv None)) s.
Proof.
  intros HI. apply wp_live_log_errors. unfold dispatch_submission_body.
  do 4 wp_step. cbv zeta.
  match goal with |- wp (modify ?g ≫= _) _ ?s1 =>
    assert (graph_inv None (g s1)) as HI1
  end.
  { apply graph_inv_alloc; [|gi_peel].
    assert (jobs s !! new_ref s = None) as Hfresh
      by (apply not_elem_of_dom; unfold new_ref; apply is_fresh).
    exact Hfresh. }
  clear HI. wp_step.
  repeat first
    [ wp_step
    | gi_call ltac:(first [ apply gi_maybe_run; gi_peel ])
    | apply gi_fail_unreachable; gi_peel
    | apply gi_save_unmet; gi_peel
    | gi_leaf ].
Qed.

Lemma gi_job_timeout fuel r tid s :
  graph_inv None s → wp (job_timeout hwm scheme fuel r tid) (live (graph_inv None)) s.
Proof.
  intros HI. unfold job_timeout.
  repeat first [ wp_step | apply gi_fail_unreachable; gi_peel | gi_leaf ].
Qed.

Lemma gi_handle_result fuel engine client m ok s :
  graph_inv None s →
  wp (handle_result hwm scheme fuel engine client m ok) (live (graph_inv None)) s.
Proof.
  intros HI. unfold handle_result.
  assert (∀ s1, graph_inv None s1 →
            wp (modify (λ s', set_all_done ({[m]} ∪ all_done s') s');;
                modify (λ s', set_destinations (<[m:=engine]> (destinations s')) s');;
                update_graph hwm scheme fuel (Some m) ok) (live (graph_inv None)) s1)
    as Htail.
  { intros s1 H1. do 2 wp_step. apply gi_update_graph_some; [|cbn; set_solver].
    apply (graph_inv_done m) in H1. exact H1. }
  repeat first [ wp_step | apply Htail; gi_peel | gi_leaf ].
Qed.

Lemma gi_handle_unmet_dependency fuel now engine m s :
  graph_inv None s →
  wp (handle_unmet_dependency hwm scheme fuel now engine m) (live (graph_inv None)) s.
Proof.
  intros HI. unfold handle_unmet_dependency.
  repeat first
    [ wp_step
    | apply gi_update_graph_none; gi_peel
    | gi_call ltac:(first [ apply gi_fail_unreachable; gi_peel
                          | apply gi_maybe_run; gi_peel
                          | apply gi_save_unmet; gi_peel ])
    | gi_leaf ].
Qed.

Lemma gi_dispatch_result fuel now res s :
  graph_inv None s →
  wp (dispatch_result hwm scheme fuel now res) (live (graph_inv None)) s.
Proof.
  intros HI. apply wp_live_log_errors. unfold dispatch_result_body. wp_step.
  gi_call ltac:(apply wp_live_attempt, gi_core; [|exact HI]).
  { destruct (find_index _ _); [apply core_finish_job | apply (resp_ret _ _)]. }
  repeat first
    [ wp_step
    | apply gi_handle_unmet_dependency; gi_peel
    | gi_call ltac:(apply gi_handle_result; gi_peel)
    | gi_leaf ].
Qed.

Lemma gi_register_engine fuel uid s :
  graph_inv None s → wp (register_engine hwm scheme fuel uid) (live (graph_inv None)) s.
Proof.
  intros HI. unfold register_engine.
  repeat first [ wp_step | apply gi_update_graph_none; gi_peel | gi_leaf ].
Qed.

Lemma gi_unregister_engine now uid s :
  graph_inv None s → wp (unregister_engine now uid) (live (graph_inv None)) s.
Proof. intros HI. unfold unregister_engine. repeat first [ wp_step | gi_leaf ]. Qed.

Lemma gi_handle_stranded_tasks fuel now uid s :
  graph_inv None s →
  wp (handle_stranded_tasks hwm scheme fuel now uid) (live (graph_inv None)) s.
Proof.
  intros HI. unfold handle_stranded_tasks.
  repeat first
    [ wp_step
    | gi_call ltac:(apply wp_live_for_each; [|gi_peel]; intros ? ? ?;
                    repeat first [ wp_step | apply gi_dispatch_result; gi_peel | gi_leaf ])
    | gi_leaf ].
Qed.

Lemma gi_handler fuel msg s :
  graph_inv None s → wp (handler hwm scheme fuel msg) (live (graph_inv None)) s.
Proof.
  intros HI. destruct msg as [now sub|now res|uid|now uid|now [r tid|uid]]; cbn [handler].
  - by apply gi_dispatch_submission.
  - by apply gi_dispatch_result.
  - by apply wp_live_log_errors, gi_register_engine.
  - by apply wp_live_log_errors, gi_unregister_engine.
  - by apply wp_live_log_errors, gi_job_timeout.
  - by apply wp_live_log_errors, gi_handle_stranded_tasks.
Qed.

Lemma reachable_live_graph_inv s : reachable_live hwm scheme s → graph_inv None s.
Proof.
  induction 1 as [|s fuel msg _ IH _ Hdone].
  - split_and!.
    + intros m r j mid Hq. cbn in Hq. by rewrite lookup_empty in Hq.
    + intros mid [g Hg]. cbn in Hg. by rewrite lookup_empty in Hg.
    + intros m r Hq. cbn in Hq. by rewrite lookup_empty in Hq.
  - pose proof (gi_handler fuel msg s IH) as H. unfold wp, live in H. unfold step.
    apply H. rewrite Hdone. done.
Qed.

Lemma graph_inv_lists s m r j :
  graph_inv None s → queue_map s !! m = Some r → jobs s !! r = Some j → graph_lists s j m.
Proof.
  intros (Hr & Ho & _) Hq Hj mid g Hmid Hg.
  destruct (Hr _ _ _ _ Hq Hj Hmid) as [Hd|(g' & Hg' & Hin)].
  - specialize (Ho mid (ex_intro _ g Hg) Hd). done.
  - congruence.
Qed.

(** *** A failed id stays out of [queue_map] *)

Section Absent.
Variable m : MsgId.

Lemma absent_delete m' s :
  absent m s → absent m (set_queue_map (delete m' (queue_map s)) s).
Proof. unfold absent. cbn. intros H. rewrite lookup_delete. by case_decide. Qed.

Lemma absent_temp m' r s :
  absent m s →
  absent m (set_queue_map
              (delete m' (queue_map (set_queue_map (<[m':=r]> (queue_map s)) s)))
              (set_queue_map (<[m':=r]> (queue_map s)) s)).
Proof.
  unfold absent. cbn. intros H. rewrite lookup_delete. case_decide; [done|].
  by rewrite lookup_insert_ne.
Qed.

Ltac absent_peel :=
  lazymatch goal with
  | H : absent ?m ?s |- absent ?m ?s => exact H
  | |- absent _ (set_queue_map (delete ?m' (queue_map (set_queue_map (<[?m':=_]> _) _)))
                   (set_queue_map (<[?m':=_]> (queue_map ?s')) ?s')) =>
      apply absent_temp; absent_peel
  | |- absent _ (set_queue_map (delete _ (queue_map ?s')) ?s') =>
      apply absent_delete; absent_peel
  | |- absent ?m (set_jobs _ ?s') => change (absent m s'); absent_peel
  | |- absent ?m (set_graph _ ?s') => change (absent m s'); absent_peel
  | |- absent ?m (set_trace _ ?s') => change (absent m s'); absent_peel
  | |- absent ?m (set_queue _ ?s') => change (absent m s'); absent_peel
  | |- absent ?m (set_all_done _ ?s') => change (absent m s'); absent_peel
  | |- absent ?m (set_all_failed _ ?s') => change (absent m s'); absent_peel
  | |- absent ?m (set_draws _ ?s') => change (absent m s'); absent_peel
  | |- absent ?m (set_loads _ ?s') => change (absent m s'); absent_peel
  | |- absent ?m (set_targets _ ?s') => change (absent m s'); absent_peel
  | |- absent ?m (set_pending _ ?s') => change (absent m s'); absent_peel
  end.

Ltac absent_leaf :=
  lazymatch goal with
  | |- post _ _ _ _ => split; [ absent_peel | first [ done | intros ? [=]; done ] ]
  end.

Ltac absent_call lem := eapply wp_post_bind; [ lem | intros ? ? ? ? ].

Lemma absent_core {A} (c : M A) s :
  resp same_core c → absent m s → wp c (post (absent m) (λ _, True)) s.
Proof.
  intros Hc H. split; [|done]. destruct (Hc s) as (E & _). unfold absent. by rewrite E.
Qed.

Lemma absent_graph_removes m' l s :
  absent m s → wp (for_each l (graph_remove m')) (post (absent m) (λ _, True)) s.
Proof.
  intros H. apply wp_post_for_each; [|done]. intros mid s' H'. unfold wp.
  rewrite graph_remove_eval.
  destruct (graph s' !! mid); [case_bool_decide|]; (split; [|done]); done.
Qed.

Lemma absent_fail_unreachable_with ug m' why s :
  (∀ d b s', absent m s' → wp (ug d b) (post (absent m) (λ _, True)) s') →
  absent m (set_queue_map (delete m' (queue_map s)) s) →
  wp (fail_unreachable_with ug m' why) (post (absent m) (λ _, True)) s.
Proof.
  intros Hug H. unfold fail_unreachable_with. wp_step.
  destruct (queue_map s !! m') as [r|] eqn:Hq.
  2: { wp_step. split; [|done]. unfold absent in *. cbn in H.
       by rewrite delete_id in H. }
  repeat first
    [ wp_step
    | absent_call ltac:(apply absent_graph_removes; absent_peel)
    | apply Hug; absent_peel
    | absent_leaf ].
Qed.

Lemma absent_maybe_run_with ug r s :
  (∀ d b s', absent m s' → wp (ug d b) (post (absent m) (λ _, True)) s') →
  absent m s →
  wp (maybe_run_with hwm scheme ug r) (post (absent m) (λ _, True)) s.
Proof.
  intros Hug H. unfold maybe_run_with.
  repeat first
    [ wp_step
    | absent_call ltac:(first
        [ apply absent_fail_unreachable_with; [exact Hug | absent_peel]
        | apply absent_core; [apply core_submit_task | absent_peel] ])
    | absent_leaf ].
Qed.

Lemma absent_ug_loop ug k :
  (∀ d b s', absent m s' → wp (ug d b) (post (absent m) (λ _, True)) s') →
  ∀ local to_restore s, absent m s →
  wp (ug_loop hwm scheme ug k local to_restore) (post (absent m) (λ _, True)) s.
Proof.
  intros Hug. induction k as [|k IH]; intros local tr s H; [by split|].
  cbn [ug_loop].
  repeat first
    [ wp_step
    | apply IH; absent_peel
    | absent_call ltac:(first
        [ apply absent_fail_unreachable_with; [exact Hug | absent_peel]
        | apply absent_maybe_run_with; [exact Hug | absent_peel]
        | apply absent_graph_removes; absent_peel ])
    | absent_leaf ].
Qed.

Lemma absent_update_graph fuel :
  ∀ d b s, absent m s →
  wp (update_graph hwm scheme fuel d b) (post (absent m) (λ _, True)) s.
Proof.
  induction fuel as [|n IH]; intros d b s H; [by split|].
  cbn [update_graph].
  repeat first
    [ wp_step
    | absent_call ltac:(apply absent_ug_loop; [exact IH | absent_peel])
    | absent_leaf ].
Qed.

Lemma absent_fail_unreachable fuel why s :
  absent m (fail_unreachable hwm scheme fuel m why s).1.
Proof.
  assert (wp (fail_unreachable hwm scheme fuel m why) (post (absent m) (λ _, True)) s)
    as [H _]; [|exact H].
  apply absent_fail_unreachable_with; [intros; by apply absent_update_graph|].
  unfold absent. cbn. apply lookup_delete_eq.
Qed.

End Absent.

(** [fail_unreachable] on an id that is not in [queue_map] returns at
    once: the whole state, trace included, is as before.  And whatever the
    state [fail_unreachable] is called in, it leaves the id out of
    [queue_map], so that calling it again on this id does nothing. *)
Lemma fail_unreachable_not_queued fuel m why s :
  (queue_map s !! m = None → fail_unreachable hwm scheme fuel m why s = (s, Done tt)) ∧
  (∀ fuel' why',
     let s' := (fail_unreachable hwm scheme fuel m why s).1 in
     fail_unreachable hwm scheme fuel' m why' s' = (s', Done tt)).
Proof.
  assert (∀ fuel0 why0 s0, queue_map s0 !! m = None →
            fail_unreachable hwm scheme fuel0 m why0 s0 = (s0, Done tt)) as Hnoop.
  { intros fuel0 why0 s0 H. unfold fail_unreachable, fail_unreachable_with. exec.
    rewrite H. reflexivity. }
  split; [apply Hnoop|]. intros fuel' why'. cbv zeta. apply Hnoop.
  apply absent_fail_unreachable.
Qed.

End Properties.

(** ** The theorems at concrete schedulers *)

Section Concrete.
Local Open Scope string_scope.

(** C1 (the code at the failing input). Two jobs wait in submission order
    for [t0]; a full rescan, as the registration of an engine triggers,
    restores them in the opposite order: the younger job is at the front. *)
Theorem rescan_reverses_parked_jobs :
  queue_stamps two_parked = [Some 2; Some 3] ∧
  (update_graph 1 pick_leastload 20 None true two_parked).2 = Done tt ∧
  queue_stamps (update_graph 1 pick_leastload 20 None true two_parked).1
  = [Some 3; Some 2] ∧
  queue_stamps (step 1 pick_leastload 20 (EngineUp "B") two_parked) = [Some 3; Some 2].
Proof. vm_compute. repeat split. Qed.

(** C9 (the code at the failing input). [t1], for [A] only, waits for
    [t0]; when [t0] completes, [update_graph] sends [t1] to [A] and takes
    it out of [queue_map], but leaves it in [queue] without the tombstone
    that [fail_unreachable] sets.  [A] goes down and [B] comes up: the
    rescan finds [t1] in the queue, and [maybe_run], with no target left,
    puts it back in [queue_map] and fails it.  The reply made up for the
    task stranded on [A] finds a retry left and no engine off the
    blacklist, and fails it again: the client gets two error replies. *)
Theorem job_failed_twice :
  let s3 := run 2 pick_leastload 20 (take 4 twice_msgs) initial in
  let s5 := run 2 pick_leastload 20 (take 6 twice_msgs) initial in
  (queue s3 = [1%nat] ∧ removed <$> jobs s3 !! 1%nat = Some false ∧
   queue_map s3 !! "t1" = None ∧ pending s3 !! "A" = Some {["t1" := 1%nat]}) ∧
  (omap (is_error_reply "t1") (trace s5) = [ImpossibleDependency] ∧
   queue_map s5 !! "t1" = None ∧ all_failed s5 = {["t1"]}) ∧
  trace s5 !! 8%nat = Some (AddTimeout 9 (StrandedTasks "A")) ∧
  omap (is_error_reply "t1") (trace failed_twice)
  = [ImpossibleDependency; ImpossibleDependency] ∧
  (λ k, (handler 2 pick_leastload 20 (default (EngineUp "A") (twice_msgs !! k))
           (run 2 pick_leastload 20 (take k twice_msgs) initial)).2) <$> seq 0 7
  = replicate 7 (Done tt).
Proof.
  split_and!; vm_compute; reflexivity.
Qed.

(** The slip in [fail_unreachable]: [t2] depends on [t0], for which [t1]
    waits, and on the unknown [t9].  The entry of [t0] in [graph] does not
    list [t2], taking it out raises [KeyError], and the client gets no
    reply. *)
Lemma unregistered_job_fails_silently :
  let sub := with_after (on_success ["t0"; "t9"] true) (task "t2") in
  (dispatch_submission_body 1 pick_leastload 20 3 sub one_waiting).2 = Raised KeyError ∧
  new_events (dispatch_submission 1 pick_leastload 20 3 sub) one_waiting
  = [MonIntask ["t2"]].
Proof. split; by vm_compute. Qed.

(** A job that [A] has refused goes to [B], although [A] comes first. *)
Lemma refused_job_goes_elsewhere :
  let s := run 1 pick_leastload 20 [EngineUp "A"; EngineUp "B"] initial in
  dispatch_target
    <$> new_events (maybe_run 1 pick_leastload 20 1%nat)
          (set_jobs (<[1%nat:=refused_by_A]> (jobs s)) s)
  = [Some "B"; None].
Proof. by vm_compute. Qed.

Lemma reachable_one_done : reachable 1 pick_leastload one_done.
Proof.
  unfold one_done, run. cbn [foldl].
  repeat (apply reachable_step; [|exact I]). apply reachable_initial.
Qed.

Lemma hwm_respected_witness : loads_ok 1 one_done.
Proof.
  apply (proj2 (proj2 (hwm_respected 1 pick_leastload ltac:(lia)))).
  apply reachable_one_done.
Defined.

Lemma after_is_canonical_witness :
  ∃ j, jobs (dispatch_submission 1 pick_leastload 20 3
               (with_after (on_success ["t0"; "t5"] true) (task "t1")) one_done).1
         !! new_ref one_done = Some j ∧
       msg_id j = "t1" ∧ after j = spec_after (on_success ["t0"; "t5"] true) one_done.
Proof.
  apply (after_is_canonical 1 pick_leastload 20 3
           (with_after (on_success ["t0"; "t5"] true) (task "t1")) one_done
           (on_success ["t0"; "t5"] true)); reflexivity.
Defined.

(** C3 (counterexample). The only engine refuses [t1], whose targets are
    [A] and [B]: the blacklist, now [A] alone, differs from the targets,
    and yet the job is failed as unreachable. *)
Lemma refusal_fails_unsaturated_job :
  jobs pending_on_A !! 0%nat = Some pending_job ∧
  {["A"]} ∪ blacklist pending_job ≠ job_targets pending_job ∧
  is_error_reply "t1"
    <$> new_events (dispatch_result 1 pick_leastload 20 2 (refusal "A" "t1")) pending_on_A
  = [Some ImpossibleDependency; None].
Proof. split_and!; [by vm_compute | by vm_compute | by vm_compute]. Qed.

(** C4 (counterexample). [t1] names itself in an [after] that is met
    through [t0] ([all] is off): the submission is not answered with an
    error, and the task is dispatched. *)
Lemma self_reference_dispatched :
  let sub := with_after (on_success ["t1"; "t0"] false) (task "t1") in
  let evs := new_events (dispatch_submission 1 pick_leastload 20 3 sub) one_done in
  "t1" ∈ dep_ids (on_success ["t1"; "t0"] false) ∧
  is_error_reply "t1" <$> evs = [None; None; None] ∧
  is_dispatch_of "t1" <$> evs = [false; true; false].
Proof. split_and!; [set_solver | by vm_compute | by vm_compute]. Qed.

(** C5 (counterexample). [t0] ran on [A], the only engine, and the job
    follows [t0] and is for [B] only: the filter leaves no engine, the
    finished ids of [follow] ran on one engine, and the job is failed.  It
    is the state in which [dispatch_submission] calls [maybe_run] for such
    a submission, which is answered with the error. *)
Lemma no_live_target_fails_job :
  jobs only_A_up !! 1%nat = Some only_B_job ∧
  available_engines 1 only_A_up = inr [0%nat] ∧
  filter_exn (can_run 1 only_A_up only_B_job) [0%nat] = inr [] ∧
  dep_all (follow only_B_job) = true ∧
  follow_dests only_A_up only_B_job = inr {["A"]} ∧
  (maybe_run 1 pick_leastload 20 1%nat only_A_up).2 = Done false ∧
  is_error_reply "t1" <$> new_events (maybe_run 1 pick_leastload 20 1%nat) only_A_up
  = [Some ImpossibleDependency; None] ∧
  is_error_reply "t1"
    <$> new_events (dispatch_submission 1 pick_leastload 20 3
                      (with_follow (on_success ["t0"] true)
                         (with_targets ["B"] (task "t1")))) one_done
  = [None; Some ImpossibleDependency; None].
Proof. split_and!; by vm_compute. Qed.



Lemma reachable_live_timed_parked : reachable_live 1 pick_leastload timed_parked.
Proof.
  unfold timed_parked, run. cbn [foldl].
  apply live_step; [apply live_initial | exact I | by vm_compute].
Qed.

End Concrete.

(** ** Further properties *)

(** ** Further properties of the code *)

(** *** The chooser [leastload] *)

Lemma foldr_min_le x l : foldr Z.min x l ≤ x ∧ ∀ y, y ∈ l → foldr Z.min x l ≤ y.
Proof.
  induction l as [|z l [IH1 IH2]]; cbn [foldr].
  - split; [lia|]. intros y Hy. by apply elem_of_nil in Hy.
  - split; [lia|]. intros y [->|Hy]%elem_of_cons; [lia|]. specialize (IH2 y Hy). lia.
Qed.

Lemma foldr_min_in x l : foldr Z.min x l ∈ x :: l.
Proof.
  induction l as [|z l IH]; cbn [foldr]; [set_solver|].
  destruct (Z.min_spec z (foldr Z.min x l)) as [[_ ->]|[_ ->]]; [set_solver|].
  apply elem_of_cons in IH as [->|IH]; set_solver.
Qed.

Lemma index_of_spec x l :
  x ∈ l →
  l !! index_of x l = Some x ∧
  ∀ i y, (i < index_of x l)%nat → l !! i = Some y → y ≠ x.
Proof.
  induction l as [|z l IH]; intros Hin; [by apply elem_of_nil in Hin|].
  cbn [index_of]. case_bool_decide as Hz.
  - subst z. split; [done|]. intros i y Hi. lia.
  - apply elem_of_cons in Hin as [->|Hin]; [done|]. destruct (IH Hin) as [H1 H2].
    split; [exact H1|]. intros [|i] y Hi; cbn; [congruence|]. apply H2. lia.
Qed.

Lemma leastload_spec (loads : list Z) :
  loads ≠ [] →
  ∃ m, loads !! leastload loads = Some m ∧
       (∀ l, l ∈ loads → m ≤ l) ∧
       (∀ i l, (i < leastload loads)%nat → loads !! i = Some l → m < l).
Proof.
  destruct loads as [|x l]; [done|]. intros _. unfold leastload.
  set (m := foldr Z.min x l).
  destruct (index_of_spec m (x :: l) (foldr_min_in x l)) as [H1 H2].
  destruct (foldr_min_le x l) as [Hx Hl].
  assert (∀ y, y ∈ x :: l → m ≤ y) as Hmin.
  { intros y [->|Hy]%elem_of_cons; [exact Hx | by apply Hl]. }
  exists m. split_and!; [exact H1 | exact Hmin |].
  intros i y Hi Hy. specialize (H2 i y Hi Hy).
  assert (m ≤ y) by (apply Hmin; by eapply list_elem_of_lookup_2). lia.
Qed.

(** X1. On a list that is not empty, [leastload] returns the index of the
    first occurrence of the least load. *)
Theorem leastload_first_minimum (loads : list Z) :
  loads ≠ [] →
  ∃ m, loads !! leastload loads = Some m ∧
       (∀ l, l ∈ loads → m ≤ l) ∧
       (∀ i l, (i < leastload loads)%nat → loads !! i = Some l → m < l).
Proof. apply leastload_spec. Qed.

(** Steps of the proofs by symbolic execution: [on f tac] runs [tac] when
    the computation under consideration is a call of [f]. *)
Ltac head_of t :=
  lazymatch t with
  | ?f _ => head_of f
  | _ => t
  end.

Ltac on f tac :=
  lazymatch goal with
  | |- _ _ (fst (?c _)) => let h := head_of c in constr_eq h f; tac
  | |- wp ?c _ _ => let h := head_of c in constr_eq h f; tac
  end.

Section More.
Variable hwm : Z.
Variable scheme : nat → list Z → nat.

(** *** Results that the scheduler does not expect *)

Lemma stray_result_eval fuel now res s :
  retries s !! res_msg_id res = None →
  md_dependencies_met res ≠ Some false →
  dispatch_result hwm scheme fuel now res s
  = (match find_index (res_engine res) (targets s) with
     | Some idx => match loads s !! idx with
                   | Some l => set_loads (<[idx := l - 1]> (loads s)) s
                   | None => s
                   end
     | None => s
     end, Done tt).
Proof.
  intros Hr Hmet.
  assert (default true (md_dependencies_met res) = true) as Hd.
  { destruct (md_dependencies_met res) as [[]|]; done. }
  unfold dispatch_result, dispatch_result_body, log_errors, finish_job, at_index, item.
  exec. destruct (find_index (res_engine res) (targets s)) as [idx|]; cbn.
  - destruct (loads s !! idx) as [l|]; cbn; [|done].
    rewrite Hd. cbn. rewrite Hr. done.
  - rewrite Hd. cbn. rewrite Hr. done.
Qed.

(** X2. A result, other than a refusal, for an id without an entry in
    [retries] (never submitted, or answered already) is dropped: nothing is
    sent, nothing is recorded, and only the load of the engine, if it is
    registered, goes down by one. *)
Theorem stray_result_dropped fuel now res s :
  retries s !! res_msg_id res = None →
  md_dependencies_met res ≠ Some false →
  dispatch_result hwm scheme fuel now res s
  = (match find_index (res_engine res) (targets s) with
     | Some idx => match loads s !! idx with
                   | Some l => set_loads (<[idx := l - 1]> (loads s)) s
                   | None => s
                   end
     | None => s
     end, Done tt).
Proof. apply stray_result_eval. Qed.

Lemma resp_wp {A} (R : relation State) (c : M A) s : resp R c → wp c (λ s' _, R s s') s.
Proof. intros H. apply H. Qed.

Lemma handle_result_relays fuel engine client m ok s :
  wp (handle_result hwm scheme fuel engine client m ok)
    (λ s' _, retries s' = retries s ∧
             ∃ evs, trace s' = trace s ++ Relay client engine m ok :: evs) s.
Proof.
  unfold handle_result. wp_step.
  eapply wp_mono; [apply (resp_wp frame); frame_auto; apply frame_update_graph|].
  intros s' _ (Hr & [evs Ht] & _). split; [exact Hr|].
  exists evs. rewrite Ht. cbn. by rewrite <- app_assoc.
Qed.

(** X3. A result that is final (a success, or a failure with no retry
    left) for an id with an entry in [retries] is relayed to the client and
    takes the entry away, so that any further result for the id, other than
    a refusal, sends nothing. *)
Theorem final_result_relayed_once fuel now res s n :
  (length (targets s) ≤ length (loads s))%nat →
  retries s !! res_msg_id res = Some n →
  md_dependencies_met res ≠ Some false →
  md_status_ok res = true ∨ n ≤ 0 →
  let s1 := (dispatch_result hwm scheme fuel now res s).1 in
  (∃ evs, trace s1 = trace s ++ Relay (res_client res) (res_engine res) (res_msg_id res)
                                  (md_status_ok res) :: evs) ∧
  retries s1 !! res_msg_id res = None ∧
  ∀ fuel' now' res',
    res_msg_id res' = res_msg_id res → md_dependencies_met res' ≠ Some false →
    trace (dispatch_result hwm scheme fuel' now' res' s1).1 = trace s1.
Proof.
  intros Hlen Hn Hmet Hfinal. cbv zeta.
  assert (default true (md_dependencies_met res) = true) as Hd.
  { destruct (md_dependencies_met res) as [[]|]; done. }
  assert (negb (md_status_ok res) && bool_decide (0 < n) = false) as Hc.
  { destruct Hfinal as [->|Hle]; [done|]. rewrite bool_decide_eq_false_2 by lia.
    apply andb_false_r. }
  assert (wp (dispatch_result_body hwm scheme fuel now res)
            (λ s' _, (∃ evs, trace s' = trace s ++ Relay (res_client res) (res_engine res)
                                           (res_msg_id res) (md_status_ok res) :: evs) ∧
                     retries s' !! res_msg_id res = None) s) as [Ht Hr].
  { unfold dispatch_result_body. wp_step.
    destruct (attempt_finish_job s (res_engine res) Hlen) as [L HL].
    eapply wp_bind_eval; [exact HL|]. cbv beta iota. rewrite Hd. wp_step.
    wp_step. unfold item. cbn [retries set_loads]. rewrite Hn. cbv beta iota.
    rewrite Hc. wp_step. apply wp_bind.
    eapply wp_mono; [apply handle_result_relays|].
    cbn [retries set_retries set_loads trace]. intros s' [[]|e|] [Hr [evs Ht]].
    - wp_step. cbn [trace set_trace retries]. split.
      + exists (evs ++ [MonOuttask (res_msg_id res)]). rewrite Ht.
        by rewrite <- !app_assoc.
      + rewrite Hr. apply lookup_delete_eq.
    - split; [eauto|]. rewrite Hr. apply lookup_delete_eq.
    - split; [eauto|]. rewrite Hr. apply lookup_delete_eq. }
  assert ((dispatch_result hwm scheme fuel now res s).1
          = (dispatch_result_body hwm scheme fuel now res s).1) as ->
    by apply log_errors_state.
  split; [exact Ht|]. split; [exact Hr|].
  intros fuel' now' res' Hid Hmet'. rewrite stray_result_eval; [|by rewrite Hid|done].
  cbn [fst]. destruct (find_index _ _) as [idx|]; [destruct (loads _ !! idx)|]; reflexivity.
Qed.

(** *** Engines that come and go *)

Lemma wp_eq {A} (c : M A) s s' r : wp c (λ s'' r', s'' = s' ∧ r' = r) s → c s = (s', r).
Proof. unfold wp. destruct (c s) as [s'' r']. cbn. by intros [-> ->]. Qed.

Lemma set_queue_same s : set_queue (queue s) s = s.
Proof. by destruct s. Qed.

Lemma update_graph_nothing_waits fuel s :
  queue s = [] → (2 ≤ fuel)%nat → update_graph hwm scheme fuel None true s = (s, Done tt).
Proof.
  intros Hq Hf. destruct fuel as [|[|k]]; [lia | lia |].
  cbn [update_graph ug_loop]. exec. cbn. rewrite Hq. cbn.
  by rewrite set_queue_same.
Qed.

(** X4. An engine that registers while nothing waits and is unregistered
    at once leaves the lists of engines and loads as they were; the engine
    keeps an empty entry in [pending], and its entries in [completed] and
    [failed], those of an earlier registration included, are gone. *)
Theorem register_unregister_round_trip fuel now uid s :
  queue s = [] → (2 ≤ fuel)%nat →
  let s1 := (register_engine hwm scheme fuel uid s).1 in
  (register_engine hwm scheme fuel uid s).2 = Done tt ∧
  unregister_engine now uid s1
  = (set_pending (<[uid := ∅]> (pending s))
       (set_failed (delete uid (failed s))
          (set_completed (delete uid (completed s)) s)), Done tt).
Proof.
  intros Hq Hf. cbv zeta. unfold register_engine. exec.
  rewrite update_graph_nothing_waits by done. cbn [fst snd]. split; [done|].
  apply wp_eq. unfold unregister_engine. wp_step.
  cbn [targets set_loads set_targets set_pending set_failed set_completed find_index].
  rewrite bool_decide_eq_true_2 by done. do 2 wp_step. cbn. wp_step.
  wp_step. unfold item. cbn [pending set_pending]. rewrite lookup_insert_eq. cbv beta iota.
  rewrite bool_decide_eq_true_2 by done.
  wp_step. unfold item. cbn [completed set_pending set_failed set_completed].
  rewrite lookup_insert_eq. cbv beta iota. wp_step.
  wp_step. unfold item. cbn [failed set_pending set_failed set_completed].
  rewrite lookup_insert_eq. cbv beta iota. wp_step.
  cbn. rewrite !delete_insert_eq. by destruct s.
Qed.

Lemma find_index_None x l : find_index x l = None ↔ x ∉ l.
Proof.
  induction l as [|y l IH]; cbn; [set_solver|].
  case_bool_decide; [set_solver|]. destruct (find_index x l); cbn; [|set_solver].
  split; [done|]. intros Hn. exfalso. apply Hn. right. apply dec_stable. intros Hx.
  by apply IH in Hx.
Qed.

(** *** Parking a job *)

Lemma register_all_exact m ds s :
  ∃ G, for_each ds (λ dep_id, modify (λ s', set_graph
         (<[dep_id := {[m]} ∪ default ∅ (graph s' !! dep_id)]> (graph s')) s')) s
       = (set_graph G s, Done tt) ∧
       ∀ d, G !! d = if bool_decide (d ∈ ds)
                     then Some ({[m]} ∪ default ∅ (graph s !! d))
                     else graph s !! d.
Proof.
  revert s. induction ds as [|d0 ds IH]; intros s; cbn [for_each].
  - exists (graph s). split; [by destruct s|]. intros d.
    rewrite bool_decide_eq_false_2; [done|]. apply not_elem_of_nil.
  - destruct (IH (set_graph (<[d0:={[m]} ∪ default ∅ (graph s !! d0)]> (graph s)) s))
      as (G & HG & HL).
    exists G. split; [exact HG|]. intros d. rewrite HL. cbn [graph set_graph].
    destruct (decide (d = d0)) as [->|Hne].
    + rewrite lookup_insert_eq. cbn.
      rewrite (bool_decide_eq_true_2 (d0 ∈ d0 :: ds)) by set_solver.
      case_bool_decide; [|done]. f_equal. set_solver.
    + rewrite lookup_insert_ne by done.
      case_bool_decide as H1; case_bool_decide as H2; try done; set_solver.
Qed.

Lemma save_unmet_eval now r s j :
  jobs s !! r = Some j →
  ∃ G, listed_under (msg_id j) (dependents j ∖ all_done s) (graph s) G ∧
       save_unmet now r s
       = (set_trace (trace s ++ timer_of now r j)
            (set_jobs (<[r := armed j]> (jobs s))
               (set_graph G
                  (set_queue (queue s ++ [r])
                     (set_queue_map (<[msg_id j := r]> (queue_map s)) s)))), Done tt).
Proof using Type.
  clear scheme. intros Hj. unfold save_unmet.
  destruct (register_all_exact (msg_id j)
              (elements ((dep_ids (after j) ∪ dep_ids (follow j)) ∖ all_done s))
              (set_queue (queue s ++ [r])
                 (set_queue_map (<[msg_id j := r]> (queue_map s)) s)))
    as (G & HG & HL).
  exists G. split.
  - intros d. rewrite HL. cbn [graph set_queue set_queue_map].
    assert (d ∈ elements ((dep_ids (after j) ∪ dep_ids (follow j)) ∖ all_done s)
            ↔ d ∈ dependents j ∖ all_done s) as Hiff.
    { rewrite elem_of_elements. unfold dependents. set_solver. }
    case_bool_decide as H1; case_bool_decide as H2; try done;
      [by apply Hiff in H1 | by apply Hiff in H2].
  - apply wp_eq. wp_step. rewrite Hj. do 3 wp_step.
    eapply wp_bind_eval; [exact HG|].
    assert (<[r:=j]> (jobs s) = jobs s) as Hid by (by apply insert_id).
    unfold armed, timer_of, has_timeout. destruct (timeout j) as [t|]; [case_bool_decide|];
      cbn [negb].
    + wp_step. cbn. rewrite Hid, app_nil_r. by destruct s.
    + assert (alter (with_timeout_id (S (timeout_id j))) r (jobs s)
              = <[r := with_timeout_id (S (timeout_id j)) j]> (jobs s)) as Halt.
      { apply map_eq. intros r'. destruct (decide (r' = r)) as [->|Hne].
        * by rewrite lookup_alter_eq, lookup_insert_eq, Hj.
        * by rewrite lookup_alter_ne, lookup_insert_ne. }
      do 2 wp_step. cbn. by rewrite Halt.
    + wp_step. cbn. rewrite Hid, app_nil_r. by destruct s.
Qed.

(** X5. [save_unmet] puts the job at the back of the queue and into
    [queue_map], lists it in [graph] under each id it depends on that has
    not finished, leaving the other entries alone, and arms a timer with
    the next [timeout_id] exactly when the job has a timeout other than
    zero. *)
Theorem save_unmet_parks now r s j :
  jobs s !! r = Some j →
  let out := save_unmet now r s in
  out.2 = Done tt ∧
  queue out.1 = queue s ++ [r] ∧
  queue_map out.1 = <[msg_id j := r]> (queue_map s) ∧
  listed_under (msg_id j) (dependents j ∖ all_done s) (graph s) (graph out.1) ∧
  trace out.1 = trace s ++ timer_of now r j ∧
  jobs out.1 = <[r := armed j]> (jobs s).
Proof using Type.
  intros Hj. destruct (save_unmet_eval now r s j Hj) as (G & HG & ->). cbn.
  split_and!; done.
Qed.

(** X6. Parking a job a second time, as happens when an engine refuses
    it, makes the timer of the first time stale: when that timer fires,
    nothing changes. *)
Theorem reparked_job_ignores_old_timer fuel now now' r s j t :
  jobs s !! r = Some j → timeout j = Some t → t ≠ 0 →
  let s1 := (save_unmet now r s).1 in
  let s2 := (save_unmet now' r s1).1 in
  AddTimeout (now + t) (JobTimeout r (S (timeout_id j))) ∈ trace s1 ∧
  job_timeout hwm scheme fuel r (S (timeout_id j)) s2 = (s2, Done tt).
Proof.
  intros Hj Ht Hne. cbv zeta.
  assert (timer_of now r j = [AddTimeout (now + t) (JobTimeout r (S (timeout_id j)))])
    as Htimer.
  { unfold timer_of, has_timeout. rewrite Ht. by rewrite bool_decide_eq_false_2. }
  assert (armed j = with_timeout_id (S (timeout_id j)) j) as Harmed.
  { unfold armed, has_timeout. rewrite Ht. by rewrite bool_decide_eq_false_2. }
  destruct (save_unmet_eval now r s j Hj) as (G & _ & ->). cbn [fst].
  match goal with |- context [save_unmet now' r ?s1] =>
    destruct (save_unmet_eval now' r s1 (armed j)) as (G' & _ & ->)
  end.
  { cbn. apply lookup_insert_eq. }
  cbn [fst]. split.
  - cbn. rewrite Htimer. set_solver.
  - eapply (proj1 (job_timeout_cases hwm scheme fuel r _ _ (armed (armed j)) _)).
    rewrite Harmed. unfold armed, has_timeout. cbn. rewrite Ht.
    rewrite bool_decide_eq_false_2 by done. cbn. lia.
    Unshelve. cbn. apply lookup_insert_eq.
Qed.

(** *** Submissions *)

Lemma available_engines_none s : targets s = [] → available_engines hwm s = inr [].
Proof. intros H. unfold available_engines. rewrite H. cbn. by destruct (hwm_on hwm). Qed.

(** X7. A submission that passes validation while no engine is registered
    is parked, whatever the fuel: the monitor gets the message, the job is
    queued, put in [queue_map] and listed in [graph], its timer is armed,
    and nothing is dispatched or answered. *)
Theorem submission_without_engines_parks fuel now sub s :
  let m := sub_msg_id sub in
  let aft := canonical_after (md_after sub) s in
  let fol := default MET (md_follow sub) in
  let r := new_ref s in
  let j := new_job now sub aft in
  targets s = [] →
  faultless m (submitted sub s) aft → faultless m (submitted sub s) fol →
  m ∉ all_failed s →
  let out := dispatch_submission hwm scheme fuel now sub s in
  out.2 = Done tt ∧
  trace out.1 = trace s ++ MonIntask (sub_raw_msg sub) :: timer_of now r j ∧
  queue out.1 = queue s ++ [r] ∧
  queue_map out.1 = <[m := r]> (queue_map s) ∧
  jobs out.1 = <[r := armed j]> (jobs s) ∧
  listed_under m (dependents j ∖ all_done s) (graph s) (graph out.1) ∧
  retries out.1 = <[m := md_retries sub]> (retries s) ∧
  all_ids out.1 = {[m]} ∪ all_ids s.
Proof.
  intros m aft fol r j Hno Ha Hf Hnf. cbv zeta.
  set (Q := λ (s' : State) (res : Res unit),
         res = Done tt ∧
         trace s' = trace s ++ MonIntask (sub_raw_msg sub) :: timer_of now r j ∧
         queue s' = queue s ++ [r] ∧
         queue_map s' = <[m := r]> (queue_map s) ∧
         jobs s' = <[r := armed j]> (jobs s) ∧
         listed_under m (dependents j ∖ all_done s) (graph s) (graph s') ∧
         retries s' = <[m := md_retries sub]> (retries s) ∧
         all_ids s' = {[m]} ∪ all_ids s).
  assert (wp (dispatch_submission_body hwm scheme fuel now sub) Q s) as HQ.
  { unfold dispatch_submission_body. do 5 wp_step.
    repeat match goal with
    | |- context [canonical_after (md_after sub) ?x] =>
        lazymatch x with
        | s => fail
        | _ => change (canonical_after (md_after sub) x)
                 with (canonical_after (md_after sub) s)
        end
    | |- context [new_ref ?x] =>
        lazymatch x with s => fail | _ => change (new_ref x) with (new_ref s) end
    end.
    fold m r aft j.
    apply validate_faultless in Ha, Hf.
    match goal with |- context [validate ?mm (after ?jj) ?s1] =>
      change (validate mm (after jj) s1) with (validate m aft (submitted sub s))
    end.
    rewrite Ha.
    match goal with |- context [validate ?mm (follow ?jj) ?s1] =>
      change (validate mm (follow jj) s1) with (validate m fol (submitted sub s))
    end.
    rewrite Hf. cbv beta iota.
    match goal with |- wp _ _ ?s3 =>
      destruct (save_unmet_eval now r s3 j) as (G & HG & Hsave);
        [cbn; apply lookup_insert_eq|];
      assert (wp (save_unmet now r) Q s3) as Hpark
    end.
    { unfold wp. rewrite Hsave. cbn. unfold Q. cbn. split_and!; try done.
      - by rewrite <- app_assoc.
      - apply insert_insert_eq. }
    match goal with |- wp (if ?c then _ else _) _ _ => destruct c end; [|exact Hpark].
    unfold maybe_run, maybe_run_with. do 2 wp_step. cbn [jobs set_jobs].
    rewrite lookup_insert_eq. do 4 wp_step.
    rewrite available_engines_none by done. cbv beta iota. wp_step. cbv iota. wp_step.
    cbn [all_failed set_jobs set_retries set_all_ids set_trace].
    rewrite bool_decide_eq_false_2 by done. exact Hpark. }
  unfold dispatch_submission, log_errors. unfold wp in HQ.
  destruct (dispatch_submission_body hwm scheme fuel now sub s) as [s' res].
  unfold Q in HQ. cbn [fst snd] in HQ. destruct HQ as (-> & HQ). cbn [fst snd].
  split; [done | exact HQ].
Qed.

(** *** Placing a job *)

Lemma list_delete_insert_same {A} (l : list A) i x : delete i (<[i:=x]> l) = delete i l.
Proof. revert i. induction l as [|y l IH]; intros [|i]; cbn; [done..|]. by rewrite IH. Qed.

Lemma add_job_eval idx s t l :
  targets s !! idx = Some t → loads s !! idx = Some l →
  add_job idx s
  = (set_loads (delete idx (loads s) ++ [l + 1])
       (set_targets (delete idx (targets s) ++ [t]) s), Done tt).
Proof.
  intros Ht Hl. apply wp_eq. unfold add_job. wp_step. wp_known Hl. wp_step.
  wp_step. unfold at_index. cbn [targets set_loads]. rewrite Ht. cbv beta iota.
  do 2 wp_step. cbn. rewrite list_delete_insert_same. by destruct s.
Qed.

Lemma submit_task_eval r ix s j ls idx target l p :
  jobs s !! r = Some j →
  match given ix with
  | Some ixs => mapM (λ i, loads s !! i) ixs = Some ls
                ∧ ixs !! scheme (draws s) ls = Some idx
  | None => ls = loads s ∧ idx = scheme (draws s) ls
  end →
  targets s !! idx = Some target → loads s !! idx = Some l →
  pending s !! target = Some p →
  submit_task scheme r ix s = (dispatched s r j idx target l p, Done tt).
Proof.
  intros Hj Hix Ht Hl Hp. apply wp_eq. unfold submit_task. wp_step. rewrite Hj.
  wp_step. wp_step.
  assert (match given ix with
          | Some ixs => match mapM (λ i, loads s !! i) ixs with
                        | Some ls => inr ls
                        | None => inl IndexError
                        end
          | None => inr (loads s)
          end = inr ls) as ->.
  { destruct (given ix); [destruct Hix as [-> _]|destruct Hix as [-> _]]; done. }
  wp_step. wp_step.
  assert (match given ix with
          | Some ixs => at_index ixs (scheme (draws s) ls)
          | None => inr (scheme (draws s) ls)
          end = inr idx) as ->.
  { destruct (given ix); [destruct Hix as [_ Hi]|destruct Hix as [_ ->]]; [|done].
    unfold at_index. by rewrite Hi. }
  wp_step. unfold at_index. cbn [targets set_draws]. rewrite Ht. cbv beta iota.
  wp_step. cbn [loads set_draws]. rewrite Hl.
  eapply wp_bind_eval.
  { apply add_job_eval; cbn; eassumption. }
  wp_step. unfold item. rewrite Hp. cbv beta iota. do 2 wp_step.
  cbn. unfold dispatched. cbn. rewrite <- app_assoc. by destruct s.
Qed.

Lemma mapM_lookup_seq {A} (l : list A) :
  mapM (λ i, l !! i) (seq 0 (length l)) = Some l.
Proof.
  apply mapM_Some_2. apply Forall2_same_length_lookup_2.
  - by rewrite length_seq.
  - intros i x y Hx Hy. apply lookup_seq in Hx as [-> _]. done.
Qed.

Lemma filter_exn_nil_inv {A} (p : A → Exn + bool) x l :
  filter_exn p [] ≠ inr (x :: l).
Proof. cbn. congruence. Qed.

Lemma available_engines_lt s av i :
  available_engines hwm s = inr av → i ∈ av → (i < length (targets s))%nat.
Proof.
  unfold available_engines. intros H Hi.
  assert (i ∈ seq 0 (length (targets s))) as Hs.
  { destruct (hwm_on hwm); [|by simplify_eq].
    by destruct (filter_exn_inr _ _ _ _ H Hi). }
  apply elem_of_seq in Hs. lia.
Qed.

Lemma available_engines_off s :
  hwm_on hwm = false → available_engines hwm s = inr (seq 0 (length (targets s))).
Proof. intros H. unfold available_engines. by rewrite H. Qed.

Lemma maybe_run_eval fuel r s j i ixs ls idx target l p :
  length (targets s) = length (loads s) →
  jobs s !! r = Some j →
  candidates hwm s j = inr (i :: ixs) →
  mapM (λ k, loads s !! k) (i :: ixs) = Some ls →
  (i :: ixs) !! scheme (draws s) ls = Some idx →
  targets s !! idx = Some target → loads s !! idx = Some l →
  pending s !! target = Some p →
  maybe_run hwm scheme fuel r s = (dispatched s r j idx target l p, Done true).
Proof.
  intros Hlen Hj Hc Hls Hpick Ht Hl Hp. apply wp_eq.
  unfold maybe_run, maybe_run_with. wp_step. rewrite Hj. wp_step.
  unfold candidates in Hc. fold (needs_filter hwm j).
  destruct (available_engines hwm s) as [e|avl] eqn:Hav; [done|].
  wp_step. cbv beta iota.
  destruct (needs_filter hwm j) eqn:Hnf.
  - destruct avl as [|a avl]; [by apply filter_exn_nil_inv in Hc|].
    wp_step. rewrite Hc. cbv beta iota.
    eapply wp_bind_eval.
    { apply (submit_task_eval r (Some (i :: ixs)) s j ls idx target l p); done. }
    wp_step. done.
  - simplify_eq.
    assert (hwm_on hwm = false) as Hoff.
    { unfold needs_filter in Hnf. by apply orb_false_iff in Hnf as [_ ?]. }
    rewrite available_engines_off in Hav by done. injection Hav as Hav.
    assert (ls = loads s) as ->.
    { rewrite <- Hav, Hlen, mapM_lookup_seq in Hls. by simplify_eq. }
    assert (idx = scheme (draws s) (loads s)) as Hidx.
    { rewrite <- Hav in Hpick. apply lookup_seq in Hpick as [-> _]. done. }
    eapply wp_bind_eval.
    { apply (submit_task_eval r None s j (loads s) idx target l p); done. }
    wp_step. done.
Qed.

(** X8. When engines are left among which to choose (those below the high
    water mark that pass the filter of the job, or all of them when the
    job needs no filter), [maybe_run] sends the job to the engine that the
    scheme picks among them and returns true: one dispatch and one
    notification are sent, the engine goes to the back of the line with
    its load one higher, and the job is in the engine's [pending]; queue,
    graph and job objects are as before.  The entry of the chosen engine in
    [pending] must exist. *)
Theorem maybe_run_dispatches fuel r s j i ixs ls idx target l p :
  length (targets s) = length (loads s) →
  jobs s !! r = Some j →
  candidates hwm s j = inr (i :: ixs) →
  mapM (λ k, loads s !! k) (i :: ixs) = Some ls →
  (i :: ixs) !! scheme (draws s) ls = Some idx →
  targets s !! idx = Some target → loads s !! idx = Some l →
  pending s !! target = Some p →
  maybe_run hwm scheme fuel r s = (dispatched s r j idx target l p, Done true).
Proof. apply maybe_run_eval. Qed.

(** *** Nothing is taken back *)

#[local] Instance extends_preorder : PreOrder extends.
Proof.
  split.
  - intros s. unfold extends. split_and!; reflexivity.
  - intros s1 s2 s3 (?&?&?&?&?&?&?&?) (?&?&?&?&?&?&?&?). unfold extends.
    split_and!; etransitivity; eassumption.
Qed.

Ltac extends_explicit :=
  unfold extends; cbn;
  rewrite ?dom_insert_L, ?dom_alter_L;
  split_and!;
  first [ reflexivity | prefix_solve | apply union_subseteq_r | set_solver ].

Ltac extends_leaf := apply (resp_modify _ _); intros ?; extends_explicit.
Ltac extends_auto := repeat first [ resp_step | extends_leaf ].
Ltac extends_run lem :=
  rel_start extends;
  repeat first [ wp_step | rel_call extends lem extends_explicit
               | rel_here extends extends_explicit ].

Lemma extends_add_job idx : resp extends (add_job idx).
Proof. unfold add_job. extends_auto. Qed.

Lemma extends_finish_job idx : resp extends (finish_job idx).
Proof. unfold finish_job. extends_auto. Qed.

Lemma extends_submit_task r indices : resp extends (submit_task scheme r indices).
Proof. unfold submit_task. extends_auto. apply extends_add_job. Qed.

Lemma extends_graph_remove m mid : resp extends (graph_remove m mid).
Proof. unfold graph_remove. extends_auto. Qed.

Lemma extends_graph_removes m l : resp extends (for_each l (graph_remove m)).
Proof. apply (resp_for_each extends _). intros ?. apply extends_graph_remove. Qed.

Lemma extends_fail_unreachable_with ug m why :
  (∀ d b, resp extends (ug d b)) → resp extends (fail_unreachable_with ug m why).
Proof.
  intros Hug. unfold fail_unreachable_with.
  extends_run ltac:(first [ on (@for_each) ltac:(apply extends_graph_removes)
                          | on ug ltac:(apply Hug) ]).
Qed.

Lemma extends_maybe_run_with ug r :
  (∀ d b, resp extends (ug d b)) → resp extends (maybe_run_with hwm scheme ug r).
Proof.
  intros Hug. unfold maybe_run_with.
  extends_run ltac:(first
    [ on fail_unreachable_with ltac:(by apply extends_fail_unreachable_with)
    | on submit_task ltac:(apply extends_submit_task) ]).
Qed.

Lemma extends_ug_loop ug k :
  (∀ d b, resp extends (ug d b)) → ∀ local to_restore,
  resp extends (ug_loop hwm scheme ug k local to_restore).
Proof.
  intros Hug. induction k as [|k IH]; intros local to_restore; [intros s; reflexivity|].
  cbn [ug_loop].
  extends_run ltac:(first
    [ on fail_unreachable_with ltac:(by apply extends_fail_unreachable_with)
    | on maybe_run_with ltac:(by apply extends_maybe_run_with)
    | on ug_loop ltac:(apply IH)
    | on (@for_each) ltac:(apply extends_graph_removes) ]).
Qed.

Lemma extends_update_graph fuel : ∀ d b, resp extends (update_graph hwm scheme fuel d b).
Proof.
  induction fuel as [|n IH]; intros d b; [intros s; reflexivity|].
  cbn [update_graph]. extends_run ltac:(idtac; on ug_loop ltac:(by apply extends_ug_loop)).
Qed.

Lemma extends_fail_unreachable fuel m why :
  resp extends (fail_unreachable hwm scheme fuel m why).
Proof. apply extends_fail_unreachable_with, extends_update_graph. Qed.

Lemma extends_maybe_run fuel r : resp extends (maybe_run hwm scheme fuel r).
Proof. apply extends_maybe_run_with, extends_update_graph. Qed.

Lemma extends_save_unmet now r : resp extends (save_unmet now r).
Proof.
  unfold save_unmet.
  extends_run ltac:(idtac; on (@for_each) ltac:(apply (resp_for_each extends _); intros ?;
                                      extends_auto)).
Qed.

Lemma extends_dispatch_submission fuel now sub :
  resp extends (dispatch_submission hwm scheme fuel now sub).
Proof.
  unfold dispatch_submission. apply (resp_log_errors _ _). unfold dispatch_submission_body.
  extends_run ltac:(first
    [ on fail_unreachable ltac:(apply extends_fail_unreachable)
    | on maybe_run ltac:(apply extends_maybe_run)
    | on save_unmet ltac:(apply extends_save_unmet) ]).
Qed.

Lemma extends_job_timeout fuel r tid : resp extends (job_timeout hwm scheme fuel r tid).
Proof.
  unfold job_timeout.
  extends_run ltac:(idtac; on fail_unreachable ltac:(apply extends_fail_unreachable)).
Qed.

Lemma extends_handle_result fuel engine client m ok :
  resp extends (handle_result hwm scheme fuel engine client m ok).
Proof.
  unfold handle_result.
  extends_run ltac:(idtac; on update_graph ltac:(apply extends_update_graph)).
Qed.

Lemma extends_handle_unmet_dependency fuel now engine m :
  resp extends (handle_unmet_dependency hwm scheme fuel now engine m).
Proof.
  unfold handle_unmet_dependency.
  extends_run ltac:(first
    [ on fail_unreachable ltac:(apply extends_fail_unreachable)
    | on maybe_run ltac:(apply extends_maybe_run)
    | on save_unmet ltac:(apply extends_save_unmet)
    | on update_graph ltac:(apply extends_update_graph) ]).
Qed.

Lemma extends_dispatch_result fuel now res :
  resp extends (dispatch_result hwm scheme fuel now res).
Proof.
  unfold dispatch_result. apply (resp_log_errors _ _). unfold dispatch_result_body.
  extends_run ltac:(first
    [ on attempt ltac:(apply (resp_attempt _ _); extends_auto; apply extends_finish_job)
    | on handle_unmet_dependency ltac:(apply extends_handle_unmet_dependency)
    | on handle_result ltac:(apply extends_handle_result) ]).
Qed.

Lemma extends_register_engine fuel uid : resp extends (register_engine hwm scheme fuel uid).
Proof.
  unfold register_engine.
  extends_run ltac:(idtac; on update_graph ltac:(apply extends_update_graph)).
Qed.

Lemma extends_unregister_engine now uid : resp extends (unregister_engine now uid).
Proof. unfold unregister_engine. extends_run ltac:(fail). Qed.

Lemma extends_handle_stranded_tasks fuel now uid :
  resp extends (handle_stranded_tasks hwm scheme fuel now uid).
Proof.
  unfold handle_stranded_tasks.
  extends_run ltac:(idtac; on (@for_each) ltac:(apply (resp_for_each extends _); intros ?;
                                      extends_auto; apply extends_dispatch_result)).
Qed.

(** X9. Whatever message is handled, in whatever state and with whatever
    outcome, nothing is taken back: the trace, [all_ids], [all_done],
    [all_completed], [all_failed], the keys of [destinations] and of
    [pending], and the job objects are only added to. *)
Theorem handlers_only_add fuel msg s :
  extends s (step hwm scheme fuel msg s).
Proof.
  unfold step. revert s. change (resp extends (handler hwm scheme fuel msg)).
  destruct msg as [now sub|now res|uid|now uid|now [r tid|uid]]; cbn [handler].
  - apply extends_dispatch_submission.
  - apply extends_dispatch_result.
  - apply (resp_log_errors _ _), extends_register_engine.
  - apply (resp_log_errors _ _), extends_unregister_engine.
  - apply (resp_log_errors _ _), extends_job_timeout.
  - apply (resp_log_errors _ _), extends_handle_stranded_tasks.
Qed.

End More.

(** *** Placing a job with [leastload] *)

Lemma candidates_lt hwm s j ixs k :
  candidates hwm s j = inr ixs → k ∈ ixs → (k < length (targets s))%nat.
Proof.
  unfold candidates. intros H Hk.
  destruct (available_engines hwm s) as [e|av] eqn:Hav; [done|].
  apply (available_engines_lt hwm s av k Hav).
  destruct (needs_filter hwm j); [|by simplify_eq].
  by destruct (filter_exn_inr _ _ _ _ H Hk).
Qed.

(** X10. With the scheme [leastload], a job for which engines are left to
    choose among goes to the one of least load among them, the first such
    in the order of the line.  Every registered engine must have its entry
    in [pending]. *)
Theorem leastload_dispatch hwm fuel r s j i ixs :
  length (targets s) = length (loads s) →
  jobs s !! r = Some j →
  candidates hwm s j = inr (i :: ixs) →
  (∀ t, t ∈ targets s → is_Some (pending s !! t)) →
  ∃ pos idx target l p,
    maybe_run hwm (λ _, leastload) fuel r s = (dispatched s r j idx target l p, Done true) ∧
    (i :: ixs) !! pos = Some idx ∧ targets s !! idx = Some target ∧
    loads s !! idx = Some l ∧
    (∀ k l', k ∈ i :: ixs → loads s !! k = Some l' → l ≤ l') ∧
    (∀ a k l', (a < pos)%nat → (i :: ixs) !! a = Some k → loads s !! k = Some l' → l < l').
Proof.
  intros Hlen Hj Hc Hpend.
  assert (∃ ls, mapM (λ k, loads s !! k) (i :: ixs) = Some ls) as [ls Hls].
  { apply mapM_is_Some, Forall_forall. intros k Hk.
    apply lookup_lt_is_Some_2. rewrite <- Hlen. by eapply candidates_lt. }
  pose proof (mapM_Some_1 _ _ _ Hls) as HF.
  assert (ls ≠ []) as Hne.
  { apply Forall2_length in HF. destruct ls; [done|discriminate]. }
  destruct (leastload_spec ls Hne) as (m & Hm & Hmin & Hfirst).
  set (pos := leastload ls) in *.
  destruct (Forall2_lookup_r _ _ _ _ _ HF Hm) as (idx & Hidx & Hload).
  assert (is_Some (targets s !! idx)) as [target Ht].
  { apply lookup_lt_is_Some_2. eapply candidates_lt; [exact Hc|].
    by eapply list_elem_of_lookup_2. }
  destruct (Hpend target) as [p Hp]; [by eapply list_elem_of_lookup_2|].
  exists pos, idx, target, m, p. split_and!; try done.
  - by apply (maybe_run_eval hwm (λ _, leastload) fuel r s j i ixs ls).
  - intros k l' Hk Hl'. apply list_elem_of_lookup_1 in Hk as [a Ha].
    destruct (Forall2_lookup_l _ _ _ _ _ HF Ha) as (y & Hy & Hky).
    apply Hmin. rewrite Hl' in Hky. simplify_eq. by eapply list_elem_of_lookup_2.
  - intros a k l' Ha Hk Hl'.
    destruct (Forall2_lookup_l _ _ _ _ _ HF Hk) as (y & Hy & Hky).
    rewrite Hl' in Hky. simplify_eq. by apply (Hfirst a).
Qed.

(** *** What placing jobs does to the engines *)

Lemma dispatches_app evs1 evs2 :
  dispatches (evs1 ++ evs2) = (dispatches evs1 + dispatches evs2)%nat.
Proof. unfold dispatches. by rewrite List.filter_app, length_app. Qed.

Lemma dispatches_none evs :
  Forall (λ e, is_dispatch e = false) evs → dispatches evs = 0%nat.
Proof.
  unfold dispatches. induction 1 as [|e evs He _ IH]; [done|]. cbn. by rewrite He.
Qed.

#[local] Instance places_preorder : PreOrder places.
Proof.
  split.
  - intros s. exists []. split_and!; [by rewrite app_nil_r | constructor |].
    intros Hp. split_and!; [done | done | cbn; lia].
  - intros s1 s2 s3 (e1 & E1 & F1 & H1) (e2 & E2 & F2 & H2). exists (e1 ++ e2).
    split_and!.
    + by rewrite E2, E1, app_assoc.
    + by apply Forall_app.
    + intros Hp. destruct (H1 Hp) as (P2 & Q2 & T2). destruct (H2 P2) as (P3 & Q3 & T3).
      split_and!; [done | by etransitivity |]. rewrite dispatches_app. lia.
Qed.

Lemma places_intro s s' evs :
  trace s' = trace s ++ evs → Forall (λ e, is_dispatch e = false) evs →
  targets s' = targets s → loads s' = loads s → places s s'.
Proof.
  intros Ht Hevs Htg Hl. exists evs. split_and!; [done | |].
  - eapply Forall_impl; [exact Hevs|]. by intros [].
  - intros Hp. unfold parallel, total_load in *. rewrite Htg, Hl. split_and!; [done..|].
    rewrite (dispatches_none evs Hevs). lia.
Qed.

Ltac places_explicit :=
  eapply places_intro; cbn;
  [ first [ symmetry; apply app_nil_r | rewrite <- ?app_assoc; reflexivity ]
  | cbn; repeat (constructor; [reflexivity|]); constructor
  | reflexivity | reflexivity ].

Ltac places_leaf := apply (resp_modify _ _); intros ?; places_explicit.
Ltac places_auto := repeat first [ resp_step | places_leaf ].
Ltac places_run lem :=
  rel_start places;
  repeat first [ wp_step | rel_call places lem places_explicit
               | rel_here places places_explicit ].

Section Placing.
Variable hwm : Z.
Variable scheme : nat → list Z → nat.

Lemma sum_app (a b : list Z) :
  foldr Z.add 0 (a ++ b) = foldr Z.add 0 a + foldr Z.add 0 b.
Proof. induction a as [|x a IH]; cbn [foldr app]; lia. Qed.

Lemma total_load_rotate (l : list Z) idx x :
  l !! idx = Some x → foldr Z.add 0 (delete idx l ++ [x + 1]) = foldr Z.add 0 l + 1.
Proof.
  intros H. rewrite <- (take_drop_middle l idx x H) at 2.
  rewrite delete_take_drop, !sum_app. cbn [foldr]. lia.
Qed.

Lemma delete_rotate_perm {A} (l : list A) idx x :
  l !! idx = Some x → delete idx l ++ [x] ≡ₚ l.
Proof.
  intros H. rewrite (delete_Permutation l idx x H) at 2.
  by rewrite Permutation_app_comm.
Qed.

Lemma places_submit_task r ix s j :
  jobs s !! r = Some j →
  match given ix with
  | Some l => ∀ i, i ∈ l → ∃ t, targets s !! i = Some t ∧
                                (job_targets j ≠ ∅ → t ∈ job_targets j)
  | None => job_targets j = ∅
  end →
  places s (submit_task scheme r ix s).1.
Proof.
  intros Hj Hix.
  change (wp (submit_task scheme r ix) (λ s' _, places s s') s).
  unfold submit_task. wp_step. rewrite Hj. wp_step.
  wp_step. wp_step; [cbv beta; places_explicit|]. rename l into ls.
  wp_step. wp_step. wp_step; [cbv beta; places_explicit|]. rename n into idx.
  wp_step. wp_step; [cbv beta; places_explicit|]. rename s0 into target.
  match goal with H : at_index (targets _) idx = inr target |- _ =>
    unfold at_index in H; cbn [targets set_draws] in H;
    destruct (targets s !! idx) as [t|] eqn:Ht; [|done]; simplify_eq end.
  assert (job_targets j ≠ ∅ → target ∈ job_targets j) as Hon.
  { destruct (given ix) as [ixs|].
    - match goal with H : at_index ixs _ = inr idx |- _ =>
        unfold at_index in H; destruct (ixs !! _) as [i|] eqn:Hp; [|done]; simplify_eq end.
      destruct (Hix idx) as (t & Ht' & Hin); [by eapply list_elem_of_lookup_2|].
      rewrite Ht in Ht'. by simplify_eq.
    - simplify_eq. intros Hne. by rewrite Hix in Hne. }
  wp_step. cbn [loads set_draws].
  destruct (loads s !! idx) as [l|] eqn:Hl.
  - eapply wp_bind_eval; [apply (add_job_eval _ _ target l); cbn; eassumption|].
    assert (∀ s' tl,
      trace s' = (trace s ++ [Dispatch target r j (Some l)]) ++ tl →
      Forall (λ e, is_dispatch e = false) tl →
      targets s' = delete idx (targets s) ++ [target] →
      loads s' = delete idx (loads s) ++ [l + 1] →
      places s s') as Hdone.
    { intros s' tl Htr Htl Htg Hld. exists ([Dispatch target r j (Some l)] ++ tl).
      split_and!.
      - by rewrite Htr, <- app_assoc.
      - apply Forall_app. split; [by constructor|].
        eapply Forall_impl; [exact Htl|]. by intros [].
      - intros Hp. unfold parallel, total_load in *. rewrite Htg, Hld. split_and!.
        + rewrite !length_app, !length_delete by eauto. cbn. lia.
        + by apply delete_rotate_perm.
        + rewrite total_load_rotate by done.
          pose proof (dispatches_none tl Htl) as Hz.
          unfold dispatches in *. cbn [app List.filter is_dispatch length]. rewrite Hz. lia. }
    wp_step. wp_step.
    + cbv beta. apply (Hdone _ []); cbn; [by rewrite app_nil_r | constructor | done | done].
    + do 2 wp_step. apply (Hdone _ [TaskDestination (msg_id j) target]); cbn;
        [done | by repeat constructor | done | done].
  - unfold add_job, at_index. wp_step. wp_step. cbn [loads set_trace set_draws].
    rewrite Hl. wp_step. exists [Dispatch target r j None]. split_and!.
    + done.
    + by constructor.
    + intros Hp. unfold parallel in Hp.
      apply lookup_lt_Some in Ht. apply lookup_ge_None in Hl. lia.
Qed.

Lemma can_run_on_targets s j i :
  can_run hwm s j i = inr true →
  ∃ t, targets s !! i = Some t ∧ (job_targets j ≠ ∅ → t ∈ job_targets j).
Proof.
  unfold can_run, at_index. intros H.
  destruct (if hwm_on hwm then _ else _) as [e|[|]]; try done.
  destruct (targets s !! i) as [t|]; [|done]. exists t. split; [done|].
  intros Hne. case_bool_decide; [done|].
  rewrite (bool_decide_eq_false_2 (job_targets j = ∅)) in H by done. cbn in H.
  case_bool_decide; [done|]. by cbn in H.
Qed.

Lemma places_graph_remove m mid : resp places (graph_remove m mid).
Proof. unfold graph_remove. places_auto. Qed.

Lemma places_graph_removes m l : resp places (for_each l (graph_remove m)).
Proof. apply (resp_for_each places _). intros ?. apply places_graph_remove. Qed.

Lemma places_fail_unreachable_with ug m why :
  (∀ d b, resp places (ug d b)) → resp places (fail_unreachable_with ug m why).
Proof.
  intros Hug. unfold fail_unreachable_with.
  places_run ltac:(first [ on (@for_each) ltac:(apply places_graph_removes)
                         | on ug ltac:(apply Hug) ]).
Qed.

Lemma places_maybe_run_with ug r :
  (∀ d b, resp places (ug d b)) → resp places (maybe_run_with hwm scheme ug r).
Proof.
  intros Hug. rel_start places. unfold maybe_run_with.
  wp_step. destruct (jobs s !! r) as [j|] eqn:Hj; [|rel_here places places_explicit].
  wp_step. wp_step. wp_step; [rel_here places places_explicit|]. rename l into available.
  destruct available as [|a available]; [wp_step; rel_here places places_explicit|].
  fold (needs_filter hwm j). destruct (needs_filter hwm j) eqn:Hnf.
  - wp_step. wp_step; [rel_here places places_explicit|]. rename l into indices.
    destruct indices as [|i indices].
    + repeat first
        [ wp_step
        | rel_call places
            ltac:(idtac; on fail_unreachable_with
                           ltac:(by apply places_fail_unreachable_with))
            places_explicit
        | rel_here places places_explicit ].
    + apply (wp_rel_bind places _);
        [ eapply places_submit_task; [exact Hj|] | exact H0
        | clear H0; intros ? ? ?; wp_step; rel_here places places_explicit ].
      cbn [given]. intros k Hk.
      match goal with H : filter_exn _ _ = inr _ |- _ =>
        destruct (filter_exn_inr _ _ _ _ H Hk) as [_ Hcan] end.
      by apply can_run_on_targets in Hcan.
  - apply (wp_rel_bind places _);
      [ eapply places_submit_task; [exact Hj|] | exact H0
      | clear H0; intros ? ? ?; wp_step; rel_here places places_explicit ].
    cbn [given]. unfold needs_filter, set_nonempty in Hnf.
    repeat (apply orb_false_elim in Hnf as [Hnf ?]).
    repeat case_bool_decide; done.
Qed.

Lemma places_ug_loop ug k :
  (∀ d b, resp places (ug d b)) → ∀ local to_restore,
  resp places (ug_loop hwm scheme ug k local to_restore).
Proof.
  intros Hug. induction k as [|k IH]; intros local to_restore; [intros s; reflexivity|].
  cbn [ug_loop].
  places_run ltac:(first
    [ on fail_unreachable_with ltac:(by apply places_fail_unreachable_with)
    | on maybe_run_with ltac:(by apply places_maybe_run_with)
    | on ug_loop ltac:(apply IH)
    | on (@for_each) ltac:(apply places_graph_removes) ]).
Qed.

Lemma places_update_graph fuel : ∀ d b, resp places (update_graph hwm scheme fuel d b).
Proof.
  induction fuel as [|n IH]; intros d b; [intros s; reflexivity|].
  cbn [update_graph]. places_run ltac:(idtac; on ug_loop ltac:(by apply places_ug_loop)).
Qed.

Lemma places_fail_unreachable fuel m why :
  resp places (fail_unreachable hwm scheme fuel m why).
Proof. apply places_fail_unreachable_with, places_update_graph. Qed.

Lemma places_maybe_run fuel r : resp places (maybe_run hwm scheme fuel r).
Proof. apply places_maybe_run_with, places_update_graph. Qed.

Lemma places_save_unmet now r : resp places (save_unmet now r).
Proof.
  unfold save_unmet.
  places_run ltac:(idtac; on (@for_each) ltac:(apply (resp_for_each places _); intros ?;
                                               places_auto)).
Qed.

Lemma places_dispatch_submission fuel now sub :
  resp places (dispatch_submission hwm scheme fuel now sub).
Proof.
  unfold dispatch_submission. apply (resp_log_errors _ _). unfold dispatch_submission_body.
  places_run ltac:(first
    [ on fail_unreachable ltac:(apply places_fail_unreachable)
    | on maybe_run ltac:(apply places_maybe_run)
    | on save_unmet ltac:(apply places_save_unmet) ]).
Qed.

Lemma places_job_timeout fuel r tid : resp places (job_timeout hwm scheme fuel r tid).
Proof.
  unfold job_timeout.
  places_run ltac:(idtac; on fail_unreachable ltac:(apply places_fail_unreachable)).
Qed.

Lemma places_new_events {A} (c : M A) s :
  places s (c s).1 →
  Forall on_targets (new_events c s) ∧
  (parallel s →
   parallel (c s).1 ∧ targets (c s).1 ≡ₚ targets s ∧
   total_load (c s).1 = total_load s + Z.of_nat (dispatches (new_events c s))).
Proof.
  intros (evs & E & F & H). unfold new_events. rewrite E, drop_app_length. done.
Qed.

(** X11. The functions that place, park and fail jobs keep the books of
    the engines: if [targets] and [loads] are parallel lists, they stay
    so, the engines are the same up to their order, and the sum of the
    loads grows by exactly the number of dispatches made. *)
Theorem placing_counts_dispatches fuel s :
  parallel s →
  (∀ r, let c := maybe_run hwm scheme fuel r in
        parallel (c s).1 ∧ targets (c s).1 ≡ₚ targets s ∧
        total_load (c s).1 = total_load s + Z.of_nat (dispatches (new_events c s))) ∧
  (∀ d b, let c := update_graph hwm scheme fuel d b in
        parallel (c s).1 ∧ targets (c s).1 ≡ₚ targets s ∧
        total_load (c s).1 = total_load s + Z.of_nat (dispatches (new_events c s))) ∧
  (∀ m why, let c := fail_unreachable hwm scheme fuel m why in
        parallel (c s).1 ∧ targets (c s).1 ≡ₚ targets s ∧
        total_load (c s).1 = total_load s + Z.of_nat (dispatches (new_events c s))) ∧
  (∀ now sub, let c := dispatch_submission hwm scheme fuel now sub in
        parallel (c s).1 ∧ targets (c s).1 ≡ₚ targets s ∧
        total_load (c s).1 = total_load s + Z.of_nat (dispatches (new_events c s))) ∧
  (∀ r tid, let c := job_timeout hwm scheme fuel r tid in
        parallel (c s).1 ∧ targets (c s).1 ≡ₚ targets s ∧
        total_load (c s).1 = total_load s + Z.of_nat (dispatches (new_events c s))).
Proof.
  intros Hp. split_and!; intros; cbv zeta.
  - by apply places_new_events; [apply places_maybe_run|].
  - by apply places_new_events; [apply places_update_graph|].
  - by apply places_new_events; [apply places_fail_unreachable|].
  - by apply places_new_events; [apply places_dispatch_submission|].
  - by apply places_new_events; [apply places_job_timeout|].
Qed.

Lemma places_handle_result fuel engine client m ok :
  resp places (handle_result hwm scheme fuel engine client m ok).
Proof.
  unfold handle_result.
  places_run ltac:(idtac; on update_graph ltac:(apply places_update_graph)).
Qed.

Lemma places_handle_unmet_dependency fuel now engine m :
  resp places (handle_unmet_dependency hwm scheme fuel now engine m).
Proof.
  unfold handle_unmet_dependency.
  places_run ltac:(first
    [ on fail_unreachable ltac:(apply places_fail_unreachable)
    | on maybe_run ltac:(apply places_maybe_run)
    | on save_unmet ltac:(apply places_save_unmet)
    | on update_graph ltac:(apply places_update_graph) ]).
Qed.

(** *** What every handler keeps *)

#[local] Instance handled_preorder : PreOrder handled.
Proof.
  split.
  - intros s. split; [apply grows_refl | done].
  - intros s1 s2 s3 [G1 P1] [G2 P2]. split; [by eapply grows_trans | auto].
Qed.

Lemma places_handled s s' : places s s' → handled s s'.
Proof.
  intros (evs & E & F & H). split; [by exists evs|]. intros Hp. by destruct (H Hp).
Qed.

Ltac handled_grows :=
  first [ apply grows_refl | apply grows_snoc; [ handled_grows | exact I ] ].

Ltac handled_explicit :=
  split; [ cbn; handled_grows | cbn; intros ?; assumption ].

Ltac handled_run lem :=
  rel_start handled;
  repeat first [ wp_step | rel_call handled lem handled_explicit
               | rel_here handled handled_explicit ].

Lemma handled_finish_job idx : resp handled (finish_job idx).
Proof.
  intros s. unfold finish_job, at_index. exec.
  destruct (loads s !! idx) as [l|]; [|reflexivity]. cbn.
  split; [apply grows_refl|]. unfold parallel. cbn. by rewrite length_insert.
Qed.

Lemma handled_dispatch_result fuel now res :
  resp handled (dispatch_result hwm scheme fuel now res).
Proof.
  unfold dispatch_result. apply (resp_log_errors _ _). unfold dispatch_result_body.
  handled_run ltac:(first
    [ on attempt ltac:(apply (resp_attempt _ _);
                       repeat resp_step; first [ apply handled_finish_job | done ])
    | on handle_unmet_dependency
        ltac:(intros; apply places_handled, places_handle_unmet_dependency)
    | on handle_result ltac:(intros; apply places_handled, places_handle_result) ]).
Qed.

Lemma handled_register_engine fuel uid :
  resp handled (register_engine hwm scheme fuel uid).
Proof.
  intros s. unfold register_engine. exec.
  etransitivity; [|apply places_handled, places_update_graph].
  split; [apply grows_refl|]. unfold parallel. cbn. lia.
Qed.

Lemma handled_unregister_engine now uid : resp handled (unregister_engine now uid).
Proof.
  rel_start handled. unfold unregister_engine. wp_step.
  destruct (find_index uid (targets s)) as [idx|] eqn:Hidx;
    [|wp_step; rel_here handled handled_explicit].
  apply find_index_lt in Hidx.
  wp_step. wp_step. wp_step.
  - cbv beta. etransitivity; [exact H0|]. split; [apply grows_refl|].
    unfold parallel. cbn. intros Hp.
    match goal with H : at_index (loads s) idx = inl _ |- _ =>
      unfold at_index in H; destruct (loads s !! idx) eqn:Hl; [done|] end.
    apply lookup_ge_None in Hl. lia.
  - match goal with H : at_index (loads s) idx = inr _ |- _ =>
      unfold at_index in H; destruct (loads s !! idx) eqn:Hl; [|done] end.
    apply lookup_lt_Some in Hl. wp_step.
    assert (handled s0 (set_loads (delete idx (loads s))
                          (set_targets (delete idx (targets s)) s))) as H1.
    { etransitivity; [exact H0|]. split; [apply grows_refl|].
      unfold parallel. cbn. intros Hp. rewrite !length_delete by
        (apply lookup_lt_is_Some_2; lia). lia. }
    clear H0. cbn [loads set_targets].
    repeat first [ wp_step | rel_here handled handled_explicit ].
Qed.

Lemma handled_handle_stranded_tasks fuel now uid :
  resp handled (handle_stranded_tasks hwm scheme fuel now uid).
Proof.
  unfold handle_stranded_tasks.
  handled_run ltac:(idtac; on (@for_each)
    ltac:(apply (resp_for_each handled _); intros ?;
          repeat resp_step; apply handled_dispatch_result)).
Qed.

Lemma handled_handler fuel msg : resp handled (handler hwm scheme fuel msg).
Proof.
  destruct msg as [now sub|now res|uid|now uid|now [r tid|uid]]; cbn [handler].
  - intros s. apply places_handled, places_dispatch_submission.
  - apply handled_dispatch_result.
  - apply (resp_log_errors _ _), handled_register_engine.
  - apply (resp_log_errors _ _), handled_unregister_engine.
  - apply (resp_log_errors _ _). intros s. apply places_handled, places_job_timeout.
  - apply (resp_log_errors _ _), handled_handle_stranded_tasks.
Qed.

(** X12. Whatever the state and the message handled, no dispatch sends a
    job that has targets to an engine that is not one of them. *)
Theorem dispatches_within_targets fuel msg s :
  Forall on_targets (new_events (handler hwm scheme fuel msg) s).
Proof.
  destruct (handled_handler fuel msg s) as [(evs & E & F) _].
  unfold new_events. by rewrite E, drop_app_length.
Qed.

(** X13. In every state the scheduler reaches, [targets] and [loads] are
    parallel lists. *)
Theorem reachable_parallel s : reachable hwm scheme s → parallel s.
Proof.
  induction 1 as [|s fuel msg _ IH _]; [done|].
  by apply (handled_handler fuel msg s).
Qed.

End Placing.

(** *** The records of what finished *)

#[local] Instance keeps_records_preorder : PreOrder keeps_records.
Proof.
  split.
  - intros s H. exact H.
  - intros s1 s2 s3 H1 H2 H. apply H2, H1, H.
Qed.

Ltac records_explicit :=
  unfold keeps_records, recorded; cbn;
  first
    [ exact (λ H, H)
    | let H1 := fresh in let H2 := fresh in
      intros [H1 H2]; rewrite ?dom_insert_L; split; [rewrite H1; set_solver | set_solver] ].

Ltac records_leaf := apply (resp_modify _ _); intros ?; records_explicit.
Ltac records_auto := repeat first [ resp_step | records_leaf ].
Ltac records_run lem :=
  rel_start keeps_records;
  repeat first [ wp_step | rel_call keeps_records lem records_explicit
               | rel_here keeps_records records_explicit ].

Section Records.
Variable hwm : Z.
Variable scheme : nat → list Z → nat.

Lemma records_add_job idx : resp keeps_records (add_job idx).
Proof. unfold add_job. records_auto. Qed.

Lemma records_finish_job idx : resp keeps_records (finish_job idx).
Proof. unfold finish_job. records_auto. Qed.

Lemma records_submit_task r indices : resp keeps_records (submit_task scheme r indices).
Proof. unfold submit_task. records_auto. apply records_add_job. Qed.

Lemma records_graph_remove m mid : resp keeps_records (graph_remove m mid).
Proof. unfold graph_remove. records_auto. Qed.

Lemma records_graph_removes m l : resp keeps_records (for_each l (graph_remove m)).
Proof. apply (resp_for_each keeps_records _). intros ?. apply records_graph_remove. Qed.

Lemma records_fail_unreachable_with ug m why :
  (∀ d b, resp keeps_records (ug d b)) → resp keeps_records (fail_unreachable_with ug m why).
Proof.
  intros Hug. unfold fail_unreachable_with.
  records_run ltac:(first [ on (@for_each) ltac:(apply records_graph_removes)
                          | on ug ltac:(apply Hug) ]).
Qed.

Lemma records_maybe_run_with ug r :
  (∀ d b, resp keeps_records (ug d b)) → resp keeps_records (maybe_run_with hwm scheme ug r).
Proof.
  intros Hug. unfold maybe_run_with.
  records_run ltac:(first
    [ on fail_unreachable_with ltac:(by apply records_fail_unreachable_with)
    | on submit_task ltac:(apply records_submit_task) ]).
Qed.

Lemma records_ug_loop ug k :
  (∀ d b, resp keeps_records (ug d b)) → ∀ local to_restore,
  resp keeps_records (ug_loop hwm scheme ug k local to_restore).
Proof.
  intros Hug. induction k as [|k IH]; intros local to_restore; [intros s; reflexivity|].
  cbn [ug_loop].
  records_run ltac:(first
    [ on fail_unreachable_with ltac:(by apply records_fail_unreachable_with)
    | on maybe_run_with ltac:(by apply records_maybe_run_with)
    | on ug_loop ltac:(apply IH)
    | on (@for_each) ltac:(apply records_graph_removes) ]).
Qed.

Lemma records_update_graph fuel :
  ∀ d b, resp keeps_records (update_graph hwm scheme fuel d b).
Proof.
  induction fuel as [|n IH]; intros d b; [intros s; reflexivity|].
  cbn [update_graph]. records_run ltac:(idtac; on ug_loop ltac:(by apply records_ug_loop)).
Qed.

Lemma records_fail_unreachable fuel m why :
  resp keeps_records (fail_unreachable hwm scheme fuel m why).
Proof. apply records_fail_unreachable_with, records_update_graph. Qed.

Lemma records_maybe_run fuel r : resp keeps_records (maybe_run hwm scheme fuel r).
Proof. apply records_maybe_run_with, records_update_graph. Qed.

Lemma records_save_unmet now r : resp keeps_records (save_unmet now r).
Proof.
  unfold save_unmet.
  records_run ltac:(idtac; on (@for_each)
    ltac:(apply (resp_for_each keeps_records _); intros ?; records_auto)).
Qed.

Lemma records_dispatch_submission fuel now sub :
  resp keeps_records (dispatch_submission hwm scheme fuel now sub).
Proof.
  unfold dispatch_submission. apply (resp_log_errors _ _). unfold dispatch_submission_body.
  records_run ltac:(first
    [ on fail_unreachable ltac:(apply records_fail_unreachable)
    | on maybe_run ltac:(apply records_maybe_run)
    | on save_unmet ltac:(apply records_save_unmet) ]).
Qed.

Lemma records_job_timeout fuel r tid :
  resp keeps_records (job_timeout hwm scheme fuel r tid).
Proof.
  unfold job_timeout.
  records_run ltac:(idtac; on fail_unreachable ltac:(apply records_fail_unreachable)).
Qed.

Lemma records_handle_result fuel engine client m ok :
  resp keeps_records (handle_result hwm scheme fuel engine client m ok).
Proof.
  unfold handle_result.
  records_run ltac:(idtac; on update_graph ltac:(apply records_update_graph)).
Qed.

Lemma records_handle_unmet_dependency fuel now engine m :
  resp keeps_records (handle_unmet_dependency hwm scheme fuel now engine m).
Proof.
  unfold handle_unmet_dependency.
  records_run ltac:(first
    [ on fail_unreachable ltac:(apply records_fail_unreachable)
    | on maybe_run ltac:(apply records_maybe_run)
    | on save_unmet ltac:(apply records_save_unmet)
    | on update_graph ltac:(apply records_update_graph) ]).
Qed.

Lemma records_dispatch_result fuel now res :
  resp keeps_records (dispatch_result hwm scheme fuel now res).
Proof.
  unfold dispatch_result. apply (resp_log_errors _ _). unfold dispatch_result_body.
  records_run ltac:(first
    [ on attempt ltac:(apply (resp_attempt _ _);
                       repeat resp_step; first [ apply records_finish_job | done ])
    | on handle_unmet_dependency ltac:(apply records_handle_unmet_dependency)
    | on handle_result ltac:(apply records_handle_result) ]).
Qed.

Lemma records_register_engine fuel uid :
  resp keeps_records (register_engine hwm scheme fuel uid).
Proof.
  unfold register_engine.
  records_run ltac:(idtac; on update_graph ltac:(apply records_update_graph)).
Qed.

Lemma records_unregister_engine now uid : resp keeps_records (unregister_engine now uid).
Proof. unfold unregister_engine. records_run ltac:(fail). Qed.

Lemma records_handle_stranded_tasks fuel now uid :
  resp keeps_records (handle_stranded_tasks hwm scheme fuel now uid).
Proof.
  unfold handle_stranded_tasks.
  records_run ltac:(idtac; on (@for_each)
    ltac:(apply (resp_for_each keeps_records _); intros ?;
          repeat resp_step; apply records_dispatch_result)).
Qed.

Lemma records_handler fuel msg : resp keeps_records (handler hwm scheme fuel msg).
Proof.
  destruct msg as [now sub|now res|uid|now uid|now [r tid|uid]]; cbn [handler].
  - apply records_dispatch_submission.
  - apply records_dispatch_result.
  - apply (resp_log_errors _ _), records_register_engine.
  - apply (resp_log_errors _ _), records_unregister_engine.
  - apply (resp_log_errors _ _), records_job_timeout.
  - apply (resp_log_errors _ _), records_handle_stranded_tasks.
Qed.

(** X14. In every state the scheduler reaches, an id is in [all_done]
    exactly when it is in [all_completed] or in [all_failed], and every id
    in [all_completed] has an entry in [destinations]. *)
Theorem reachable_recorded s :
  reachable hwm scheme s →
  all_done s = all_completed s ∪ all_failed s ∧
  all_completed s ⊆ dom (destinations s).
Proof.
  induction 1 as [|s fuel msg _ IH _].
  - split; set_solver.
  - by apply (records_handler fuel msg s).
Qed.

(** X15. In every state the scheduler reaches (handlers given fuel
    enough), each job in [queue_map] is listed in [graph] under every id it
    depends on that has not finished, and [graph] keeps no entry for an id
    that has finished. *)
Theorem reachable_graph_registered s :
  reachable_live hwm scheme s →
  (∀ m r j mid, queue_map s !! m = Some r → jobs s !! r = Some j →
                mid ∈ dependents j → mid ∉ all_done s →
                ∃ g, graph s !! mid = Some g ∧ m ∈ g) ∧
  (∀ mid, mid ∈ all_done s → graph s !! mid = None).
Proof.
  intros Hs. destruct (reachable_live_graph_inv hwm scheme s Hs) as (Hr & Ho & _). split.
  - intros m r j mid Hq Hj Hmid Hnd. by destruct (Hr m r j mid Hq Hj Hmid).
  - intros mid Hd. destruct (graph s !! mid) as [g|] eqn:Hg; [|done].
    by specialize (Ho mid (ex_intro _ g Hg) Hd).
Qed.

End Records.

(** *** Termination of [update_graph] *)

Lemma elem_of_live_refs r s :
  r ∈ live_refs s ↔ ∃ j, jobs s !! r = Some j ∧ removed j = false.
Proof.
  unfold live_refs. rewrite elem_of_dom. split.
  - intros [j Hj]. apply map_lookup_filter_Some in Hj as [Hj Hr]. eauto.
  - intros (j & Hj & Hr). exists j. by apply map_lookup_filter_Some.
Qed.

Lemma live_refs_mark r s :
  live_refs (set_jobs (alter (with_removed true) r (jobs s)) s) = live_refs s ∖ {[r]}.
Proof.
  apply set_eq. intros x. rewrite elem_of_difference, !elem_of_live_refs, elem_of_singleton.
  cbn [jobs set_jobs]. destruct (decide (x = r)) as [->|Hne].
  - rewrite lookup_alter_eq. split.
    + intros (j & Hj & Hr). destruct (jobs s !! r); simplify_eq/=.
    + intros [_ ?]. done.
  - rewrite lookup_alter_ne by done. split; [intros H; split; [exact H | done] | by intros [H _]].
Qed.

Lemma live_refs_alter f r s :
  (∀ j, removed (f j) = removed j) →
  live_refs (set_jobs (alter f r (jobs s)) s) = live_refs s.
Proof.
  intros Hf. apply set_eq. intros x. rewrite !elem_of_live_refs. cbn [jobs set_jobs].
  destruct (decide (x = r)) as [->|Hne].
  - rewrite lookup_alter_eq. destruct (jobs s !! r) as [j|]; cbn.
    + split; intros (j' & Hj & Hr); simplify_eq; eexists; split; try done;
        [by rewrite <- Hf | by rewrite Hf].
    + split; intros (j' & Hj & _); done.
  - by rewrite lookup_alter_ne.
Qed.

Lemma size_remove `{Countable K} (X : gset K) x : x ∈ X → (size (X ∖ {[x]}) + 1 = size X)%nat.
Proof.
  intros Hx. rewrite size_difference by set_solver. rewrite size_singleton.
  assert (size X ≠ 0)%nat; [|lia]. apply size_non_empty_iff. set_solver.
Qed.

Lemma size_remove_le `{Countable K} (X : gset K) x : (size (X ∖ {[x]}) ≤ size X)%nat.
Proof. apply subseteq_size. set_solver. Qed.

Lemma bounded_mono Q q l Q' q' l' s :
  bounded Q' q' l' s → (Q' ≤ Q)%nat → q' ⊆ q → l' ⊆ l → bounded Q q l s.
Proof.
  intros (H1 & H2 & H3) ? ? ?. split_and!; [lia | set_solver | set_solver].
Qed.

Lemma bounded_work Q q l s : bounded Q q l s → (work s ≤ Q + size q + size l)%nat.
Proof.
  intros (H1 & H2 & H3). unfold work.
  apply subseteq_size in H2, H3. lia.
Qed.

Lemma wp_ends_bind {A B} Q q l (m : M A) (f : A → M B) s :
  wp m (ends Q q l) s →
  (∀ a s', bounded Q q l s' → wp (f a) (ends Q q l) s') →
  wp (m ≫= f) (ends Q q l) s.
Proof.
  intros Hm Hf. apply wp_bind. unfold wp in Hm |- *. unfold ends in Hm at 1.
  destruct (m s) as [s' [a|e|]]; cbn [fst snd] in *; destruct Hm as [Hne Hb].
  - by apply Hf.
  - split; [done | exact Hb].
  - done.
Qed.

Lemma wp_ends_mono {A} Q q l Q' q' l' (m : M A) s :
  wp m (ends Q' q' l') s → (Q' ≤ Q)%nat → q' ⊆ q → l' ⊆ l → wp m (ends Q q l) s.
Proof.
  intros H ? ? ?. eapply wp_mono; [exact H|]. intros s' res [Hne Hb].
  split; [done | by eapply bounded_mono].
Qed.

Lemma bounded_alter f r Q q l s :
  (∀ j, removed (f j) = removed j) →
  bounded Q q l s → bounded Q q l (set_jobs (alter f r (jobs s)) s).
Proof.
  intros Hf (H1 & H2 & H3). split_and!; [done | done |]. by rewrite live_refs_alter.
Qed.

(** A leaf: the result is there and the bounds are those of a hypothesis,
    the fields they speak of being untouched. *)
Ltac ends_leaf :=
  lazymatch goal with
  | H : bounded ?Q ?q ?l _ |- ends ?Q ?q ?l _ _ =>
      split; [ discriminate
             | first [ exact H | apply bounded_alter; [reflexivity | exact H] ] ]
  end.

(** A branch that the case analysis made up. *)
Ltac junk :=
  match goal with
  | H : true = false |- _ => discriminate H
  | H : false = true |- _ => discriminate H
  end.

Ltac ends_call lem := eapply wp_ends_bind; [ lem | intros ? ? ? ].

Section Termination.
Variable hwm : Z.
Variable scheme : nat → list Z → nat.

Lemma ends_graph_removes m xs Q q l s :
  bounded Q q l s → wp (for_each xs (graph_remove m)) (ends Q q l) s.
Proof.
  revert s. induction xs as [|mid xs IH]; intros s H; cbn [for_each].
  - wp_step. ends_leaf.
  - ends_call ltac:(idtac).
    + unfold wp. rewrite graph_remove_eval.
      destruct (graph s !! mid); [case_bool_decide|]; cbn [fst snd]; ends_leaf.
    + by apply IH.
Qed.

Lemma ends_add_job idx Q q l s :
  bounded Q q l s → wp (add_job idx) (ends Q q l) s.
Proof. intros H. unfold add_job. repeat first [ wp_step | ends_leaf ]. Qed.

Lemma ends_submit_task r ix Q q l s :
  bounded Q q l s → wp (submit_task scheme r ix) (ends Q q l) s.
Proof.
  intros H. unfold submit_task.
  repeat first [ wp_step | ends_call ltac:(apply ends_add_job; exact H) | ends_leaf ].
Qed.

Lemma term_fail_unreachable_with n ug m why Q q l s :
  ends_with n ug →
  bounded Q q l (set_queue_map (delete m (queue_map s)) s) →
  (∀ r', queue_map s !! m = Some r' →
         (length (queue s) + size (dom (queue_map s) ∖ {[m]})
          + size (live_refs s ∖ {[r']}) + 2 ≤ n)%nat) →
  wp (fail_unreachable_with ug m why) (ends Q q l) s.
Proof.
  intros Hug Hb Hfuel. unfold fail_unreachable_with. wp_step.
  destruct (queue_map s !! m) as [r'|] eqn:Hq.
  2: { wp_step. split; [discriminate|].
       destruct (Hb : _ ∧ _ ∧ _) as (H1 & H2 & H3). cbn in H1, H2. rewrite delete_id in H2 by done.
       split_and!; done. }
  specialize (Hfuel r' eq_refl).
  eapply (wp_ends_mono Q q l (length (queue s)) (dom (queue_map s) ∖ {[m]})
            (live_refs s ∖ {[r']})).
  2: { by destruct (Hb : _ ∧ _ ∧ _) as (H1 & _). }
  2: { destruct (Hb : _ ∧ _ ∧ _) as (_ & H2 & _). cbn in H2. by rewrite dom_delete_L in H2. }
  2: { destruct (Hb : _ ∧ _ ∧ _) as (_ & _ & H3). etransitivity; [|exact H3].
       apply subseteq_difference_l. reflexivity. }
  wp_step. wp_step. cbn [jobs set_queue_map].
  destruct (jobs s !! r') as [j|] eqn:Hj.
  2: { split; [discriminate|]. split_and!; cbn.
       - done.
       - by rewrite dom_delete_L.
       - transitivity (live_refs s); [done|]. intros x Hx.
         apply elem_of_difference. split; [done|]. intros ->%elem_of_singleton.
         apply elem_of_live_refs in Hx as (j & Hj' & _). congruence. }
  wp_step.
  match goal with |- wp _ _ ?s2 =>
    assert (bounded (length (queue s)) (dom (queue_map s) ∖ {[m]})
              (live_refs s ∖ {[r']}) s2) as Hb2
  end.
  { split_and!.
    - done.
    - cbn. by rewrite dom_delete_L.
    - rewrite (live_refs_mark r' (set_queue_map (delete m (queue_map s)) s)). done. }
  ends_call ltac:(apply ends_graph_removes; exact Hb2).
  do 4 wp_step. apply Hug; [done|lia].
Qed.

Lemma term_maybe_run_with n ug r Q q l s :
  ends_with n ug →
  bounded Q q l s →
  (length (queue s) + size (dom (queue_map s)) + size (live_refs s ∖ {[r]}) + 2 ≤ n)%nat →
  wp (maybe_run_with hwm scheme ug r) (ends Q q l) s.
Proof.
  intros Hug Hb Hfuel. unfold maybe_run_with.
  assert (∀ f s1, queue s1 = queue s → queue_map s1 = queue_map s →
            live_refs s1 = live_refs s →
            wp (fail_unreachable_with ug f ImpossibleDependency) (ends Q q l)
              (set_queue_map (<[f := r]> (queue_map s1)) s1)) as Hfail.
  { intros f s1 E1 E2 E3. apply term_fail_unreachable_with with (n := n); [done | |].
    - destruct (Hb : _ ∧ _ ∧ _) as (H1 & H2 & H3). split_and!; cbn.
      + by rewrite E1.
      + rewrite E2, dom_delete_L, dom_insert_L. set_solver.
      + change (live_refs s1 ⊆ l). by rewrite E3.
    - intros r'. cbn. rewrite lookup_insert_eq. intros [= <-].
      change (live_refs (set_queue_map (<[f:=r]> (queue_map s1)) s1)) with (live_refs s1).
      rewrite E1, E2, E3, dom_insert_L.
      assert (size (({[f]} ∪ dom (queue_map s)) ∖ {[f]}) ≤ size (dom (queue_map s)))%nat.
      { apply subseteq_size. set_solver. }
      lia. }
  repeat first
    [ junk
    | wp_step
    | ends_call ltac:(first
        [ on fail_unreachable_with
            ltac:(first [ apply (Hfail _ s); reflexivity
                        | apply (Hfail _ (set_jobs _ s)); [reflexivity | reflexivity |];
                          apply live_refs_alter; reflexivity ])
        | on submit_task ltac:(apply ends_submit_task; exact Hb) ])
    | ends_leaf ].
Qed.

Lemma wp_ends_then {A B} Q' q l (m : M A) (f : A → M B) (P : State → Res B → Prop) s :
  wp m (ends Q' q l) s →
  (∀ e s', bounded Q' q l s' → P s' (Raised e)) →
  (∀ a s', bounded Q' q l s' → wp (f a) P s') →
  wp (m ≫= f) P s.
Proof.
  intros Hm Hr Hf. apply wp_bind. unfold wp in Hm |- *. unfold ends in Hm at 1.
  destruct (m s) as [s' [a|e|]]; cbn [fst snd] in *; destruct Hm as [Hne Hb].
  - by apply Hf.
  - by apply Hr.
  - done.
Qed.

Lemma loop_ends_raised Q Q' q l s e :
  bounded Q' q l s → (Q' ≤ Q)%nat → loop_ends Q q l s (Raised e).
Proof.
  intros Hb Hle. split; [discriminate|]. split; [|intros ? [=]].
  eapply bounded_mono; [exact Hb | done..].
Qed.

Lemma term_ug_loop n ug :
  ends_with n ug →
  ∀ k local tr Q q l s,
  (length tr + length (queue s) ≤ Q)%nat → dom (queue_map s) ⊆ q → live_refs s ⊆ l →
  (Q + size q + size l + 1 ≤ n)%nat →
  (length (default (queue s) local) < k)%nat →
  wp (ug_loop hwm scheme ug k local tr) (loop_ends Q q l) s.
Proof.
  intros Hug. induction k as [|k IH]; intros local tr Q q l s HQ Hq Hl Hn Hk; [lia|].
  cbn [ug_loop]. wp_step.
  destruct (default (queue s) local) as [|r rest] eqn:Hd.
  { wp_step. split; [discriminate|]. split; [split_and!; [lia | done | done]|].
    intros ? [= <-]. done. }
  (* the state once the job is popped, and what is known of it *)
  set (s1 := if local is None then set_queue rest s else s).
  set (kept := if local is None then tr ++ [r] else tr).
  set (local' := (λ _ : list JobRef, rest) <$> local).
  assert (wp (j ← deref r;
              if removed j then ug_loop hwm scheme ug k local' tr
              else
                s1 ← get;
                if unreachable (after j) (all_completed s1) (all_failed s1)
                   || unreachable (follow j) (all_completed s1) (all_failed s1)
                then
                  fail_unreachable_with ug (msg_id j) ImpossibleDependency;;
                  ug_loop hwm scheme ug k local' tr
                else if check (after j) (all_completed s1) (all_failed s1) then
                  ran ← maybe_run_with hwm scheme ug r;
                  if ran : bool then
                    s2 ← get;
                    _ ← lift (item (queue_map s2) (msg_id j));
                    modify (set_queue_map (delete (msg_id j) (queue_map s2)));;
                    for_each (elements (dependents j)) (graph_remove (msg_id j));;
                    s3 ← get;
                    available ← lift (available_engines hwm s3);
                    if available is [] then mret tr
                    else ug_loop hwm scheme ug k local' tr
                  else ug_loop hwm scheme ug k local' kept
                else ug_loop hwm scheme ug k local' kept)
             (loop_ends Q q l) s1) as Hbody.
  2: { destruct local as [ls|]; cbn in Hd; subst s1 kept local'; cbn [fmap option_fmap option_map].
       - wp_step. exact Hbody.
       - wp_step. exact Hbody. }
  assert ((length kept + length (queue s1) ≤ Q)%nat ∧ queue_map s1 = queue_map s
          ∧ live_refs s1 = live_refs s ∧ jobs s1 = jobs s
          ∧ (length tr + length (queue s1) ≤ Q)%nat) as (HK & E2 & E3 & E4 & HQ1).
  { destruct local as [ls|]; cbn in Hd; subst s1 kept; cbn.
    - split_and!; try done; lia.
    - rewrite Hd in HQ. cbn in HQ. rewrite length_app. cbn. split_and!; try done; lia. }
  assert (∀ s', (length (queue s') ≤ length (queue s1))%nat →
            (length (default (queue s') local') < k)%nat) as Hnext.
  { intros s' Hle. cbn [length] in Hk.
    destruct local as [ls|]; subst s1 local'; cbn in *; lia. }
  assert (bounded (length (queue s1)) q l s1) as Hb1.
  { split_and!; [done | by rewrite E2 | by rewrite E3]. }
  clearbody s1 kept local'. clear Hd Hk HQ.
  pose proof (subseteq_size _ _ Hq) as Sq. pose proof (subseteq_size _ _ Hl) as Sl.
  wp_step. destruct (jobs s1 !! r) as [j|] eqn:Hj.
  2: { eapply loop_ends_raised; [exact Hb1 | lia]. }
  destruct (removed j) eqn:Hrem.
  { apply IH; try done; [by rewrite E2 | by rewrite E3 | by apply (Hnext s1)]. }
  assert (r ∈ live_refs s1) as Hlive by (apply elem_of_live_refs; eauto).
  pose proof (size_remove _ _ Hlive) as Sr.
  wp_step.
  assert (∀ trX s', bounded (length (queue s1)) q l s' →
            (length trX + length (queue s1) ≤ Q)%nat →
            wp (ug_loop hwm scheme ug k local' trX) (loop_ends Q q l) s') as Hgo.
  { intros trX s' (B1 & B2 & B3) HX. apply IH; try done; [lia | by apply (Hnext s')]. }
  destruct (unreachable (after j) _ _ || unreachable (follow j) _ _).
  { eapply (wp_ends_then (length (queue s1)) q l).
    - apply term_fail_unreachable_with with (n := n); [done | |].
      + destruct (Hb1 : _ ∧ _ ∧ _) as (B1 & B2 & B3). split_and!; [done | | done].
        cbn. rewrite dom_delete_L. set_solver.
      + intros r' Hr'. assert (msg_id j ∈ dom (queue_map s1)) as Hin by (by apply elem_of_dom).
        pose proof (size_remove _ _ Hin). pose proof (size_remove_le (live_refs s1) r').
        rewrite E2, E3 in *. lia.
    - intros e s' Hb'. eapply loop_ends_raised; [exact Hb' | lia].
    - intros _ s' Hb'. by apply Hgo. }
  destruct (check (after j) _ _); [|by apply Hgo].
  eapply (wp_ends_then (length (queue s1)) q l).
  - apply term_maybe_run_with with (n := n); [done | exact Hb1 |].
    rewrite E2, E3 in *. lia.
  - intros e s' Hb'. eapply loop_ends_raised; [exact Hb' | lia].
  - intros [|] s' Hb'; [|by apply Hgo].
    wp_step. wp_step. wp_step; [eapply loop_ends_raised; [exact Hb' | lia]|].
    wp_step.
    match goal with |- wp _ _ ?s3 =>
      assert (bounded (length (queue s1)) q l s3) as Hb3
    end.
    { destruct (Hb' : _ ∧ _ ∧ _) as (B1 & B2 & B3). split_and!; cbn; [done | | done].
      rewrite dom_delete_L. set_solver. }
    eapply (wp_ends_then (length (queue s1)) q l).
    + apply ends_graph_removes. exact Hb3.
    + intros e s'' Hb''. eapply loop_ends_raised; [exact Hb'' | lia].
    + intros _ s'' Hb''. wp_step. wp_step.
      wp_step; [eapply loop_ends_raised; [exact Hb'' | lia]|].
      match goal with |- wp (match ?av with [] => _ | _ :: _ => _ end) _ _ =>
        destruct av end; [|by apply Hgo].
      wp_step. destruct (Hb'' : _ ∧ _ ∧ _) as (B1 & B2 & B3).
      split; [discriminate|]. split; [split_and!; [lia | done | done]|].
      intros ? [= <-]. lia.
Qed.

Lemma mapM_lookup_size (qm : gmap MsgId JobRef) (X : gset MsgId) refs :
  mapM (λ m, qm !! m) (elements X) = Some refs →
  (length refs ≤ size (dom qm))%nat.
Proof.
  intros H. rewrite <- (length_mapM _ _ _ H).
  change (length (elements X)) with (size X). apply subseteq_size.
  intros x Hx. apply elem_of_elements in Hx.
  apply mapM_Some_1 in H. apply list_elem_of_lookup_1 in Hx as [i Hi].
  destruct (Forall2_lookup_l _ _ _ _ _ H Hi) as (y & _ & Hy). by apply elem_of_dom.
Qed.

Lemma term_update_graph n : ends_with n (update_graph hwm scheme n).
Proof.
  induction n as [|n IH]; intros d b Q q l s Hb Hn; [lia|].
  destruct (Hb : _ ∧ _ ∧ _) as (B1 & B2 & B3).
  pose proof (subseteq_size _ _ B2) as Sq.
  cbn [update_graph]. wp_step.
  set (s2 := if d is Some d' then set_graph (delete d' (graph s)) s else s).
  assert (queue s2 = queue s ∧ queue_map s2 = queue_map s ∧ live_refs s2 = live_refs s)
    as (E1 & E2 & E3) by (by destruct d).
  assert (∀ local (k : list JobRef → M unit),
            (length (default (queue s2) local) < n)%nat →
            (∀ tr s', bounded Q q l s' → (length tr + length (queue s') ≤ Q)%nat →
                      wp (k tr) (ends Q q l) s') →
            wp (ug_loop hwm scheme (update_graph hwm scheme n) n local [] ≫= k)
              (ends Q q l) s2) as Hloop.
  { intros local k Hlen Hk. apply wp_bind.
    eapply wp_mono.
    - apply (term_ug_loop n _ IH n local [] Q q l s2); cbn [length];
        [rewrite E1; lia | by rewrite E2 | by rewrite E3 | lia | exact Hlen].
    - intros s' [tr|e|] (Hne & Hb' & Htr); [| |done].
      + apply Hk; [done | by apply Htr].
      + split; [discriminate | done]. }
  assert (∀ rest : M unit, wp rest (ends Q q l) s2 →
            wp ((if d is Some d' then modify (set_graph (delete d' (graph s)))
                 else mret tt) ≫= λ _, rest) (ends Q q l) s) as Hpre.
  { intros rest H. subst s2. destruct d; wp_step; exact H. }
  apply Hpre. clear Hpre.
  destruct (bool_decide (d = None) || _) eqn:Huq.
  - wp_step. apply Hloop; [cbn; rewrite E1; lia|].
    intros tr s' Hb' Htr. wp_step.
    destruct (Hb' : _ ∧ _ ∧ _) as (B1' & B2' & B3').
    split; [discriminate|]. split_and!; cbn; [|done|done].
    rewrite length_app, length_reverse. lia.
  - assert (ends Q q l s2 (Raised KeyError : Res unit) ∧
            ends Q q l s2 (Raised BadRef : Res unit)) as [R1 R2].
    { split; (split; [discriminate|]); subst s2; by destruct d. }
    wp_step. wp_step.
    destruct (mapM (λ m, queue_map s !! m) (elements _)) as [refs|] eqn:Hrefs;
      [|exact R1].
    wp_step. wp_step.
    destruct (mapM (λ r, pair r <$> jobs s !! r) refs) as [js|] eqn:Hjs; [|exact R2].
    wp_step.
    apply Hloop.
    + cbn [default from_option id].
      apply mapM_lookup_size in Hrefs.
      rewrite (Permutation_length (sorted_jobs_refs js)), length_fmap.
      rewrite <- (length_mapM _ _ _ Hjs). lia.
    + intros tr s' Hb' Htr. wp_step. split; [discriminate | done].
Qed.

(** X16. [update_graph] comes to an end: with more fuel than the jobs in
    the queue, the ids in [queue_map] and the job objects not yet removed
    taken together, plus one, it does not run out of fuel, and neither do
    [fail_unreachable] and [maybe_run] that call it. *)
Theorem update_graph_terminates fuel s :
  (work s + 2 ≤ fuel)%nat →
  (∀ d b, (update_graph hwm scheme fuel d b s).2 ≠ OutOfFuel) ∧
  (∀ m why, (fail_unreachable hwm scheme fuel m why s).2 ≠ OutOfFuel) ∧
  (∀ r, (maybe_run hwm scheme fuel r s).2 ≠ OutOfFuel).
Proof.
  intros Hf. unfold work in Hf.
  assert (bounded (length (queue s)) (dom (queue_map s)) (live_refs s) s) as Hb.
  { by split_and!. }
  split_and!.
  - intros d b. by destruct (term_update_graph fuel d b _ _ _ s Hb Hf).
  - intros m why.
    assert (wp (fail_unreachable hwm scheme fuel m why)
              (ends (length (queue s)) (dom (queue_map s)) (live_refs s)) s) as [H _];
      [|exact H].
    apply term_fail_unreachable_with with (n := fuel); [apply term_update_graph | |].
    + split_and!; cbn; [done | | done]. rewrite dom_delete_L. set_solver.
    + intros r' _. pose proof (size_remove_le (dom (queue_map s)) m).
      pose proof (size_remove_le (live_refs s) r'). lia.
  - intros r.
    assert (wp (maybe_run hwm scheme fuel r)
              (ends (length (queue s)) (dom (queue_map s)) (live_refs s)) s) as [H _];
      [|exact H].
    apply term_maybe_run_with with (n := fuel); [apply term_update_graph | done |].
    pose proof (size_remove_le (live_refs s) r). lia.
Qed.

End Termination.

(** *** More fuel changes nothing *)

Lemma agrees_refl {A} (c : M A) : agrees c c.
Proof. by intros s _. Qed.

Lemma agrees_bind {A B} (m m' : M A) (f f' : A → M B) :
  agrees m m' → (∀ a, agrees (f a) (f' a)) → agrees (m ≫= f) (m' ≫= f').
Proof.
  intros Hm Hf s. unfold mbind, M_bind. specialize (Hm s).
  destruct (m s) as [s1 [a|e|]]; cbn [snd] in *.
  - intros H. rewrite Hm by discriminate. by apply Hf.
  - intros _. by rewrite Hm by discriminate.
  - done.
Qed.

Ltac agrees_step :=
  lazymatch goal with
  | |- agrees (match ?x with _ => _ end) _ => destruct x
  | |- agrees (_ ≫= _) (_ ≫= _) => apply agrees_bind; [ | intros ? ]
  end.

Section Fuel.
Variable hwm : Z.
Variable scheme : nat → list Z → nat.

Lemma agrees_fail_unreachable_with ug ug' m why :
  (∀ d b, agrees (ug d b) (ug' d b)) →
  agrees (fail_unreachable_with ug m why) (fail_unreachable_with ug' m why).
Proof.
  intros Hug. unfold fail_unreachable_with.
  repeat first [ apply Hug | agrees_step | apply agrees_refl ].
Qed.

Lemma agrees_maybe_run_with ug ug' r :
  (∀ d b, agrees (ug d b) (ug' d b)) →
  agrees (maybe_run_with hwm scheme ug r) (maybe_run_with hwm scheme ug' r).
Proof.
  intros Hug. unfold maybe_run_with.
  repeat first [ by apply agrees_fail_unreachable_with | agrees_step | apply agrees_refl ].
Qed.

Lemma agrees_ug_loop ug ug' :
  (∀ d b, agrees (ug d b) (ug' d b)) →
  ∀ k k' local tr, (k ≤ k')%nat →
  agrees (ug_loop hwm scheme ug k local tr) (ug_loop hwm scheme ug' k' local tr).
Proof.
  intros Hug. induction k as [|k IH]; intros k' local tr Hk; [by intros s H|].
  destruct k' as [|k']; [lia|]. cbn [ug_loop].
  repeat first
    [ apply IH; lia
    | by apply agrees_fail_unreachable_with
    | by apply agrees_maybe_run_with
    | agrees_step
    | apply agrees_refl ].
Qed.

Lemma agrees_update_graph n n' :
  (n ≤ n')%nat → ∀ d b, agrees (update_graph hwm scheme n d b) (update_graph hwm scheme n' d b).
Proof.
  revert n'. induction n as [|n IH]; intros n' Hn d b; [by intros s H|].
  destruct n' as [|n']; [lia|]. cbn [update_graph].
  repeat first
    [ apply agrees_ug_loop; [intros; apply IH; lia | lia]
    | agrees_step
    | apply agrees_refl ].
Qed.

End Fuel.

(** *** Every handler runs to its end *)

Lemma sure_ret {A} (a : A) : sure (mret a).
Proof. by intros s. Qed.

Lemma sure_raise {A} e : sure (raise (A:=A) e).
Proof. by intros s. Qed.

Lemma sure_get : sure get.
Proof. by intros s. Qed.

Lemma sure_modify g : sure (modify g).
Proof. by intros s. Qed.

Lemma sure_lift {A} (x : Exn + A) : sure (lift x).
Proof. intros s. by destruct x. Qed.

Lemma sure_deref r : sure (deref r).
Proof. intros s. unfold deref. by destruct (jobs s !! r). Qed.

Lemma sure_bind {A B} (m : M A) (f : A → M B) :
  sure m → (∀ a, sure (f a)) → sure (m ≫= f).
Proof.
  intros Hm Hf s. unfold mbind, M_bind. specialize (Hm s).
  destruct (m s) as [s' [a|e|]]; cbn [snd] in *; [apply Hf | done | done].
Qed.

Lemma sure_for_each {A} (xs : list A) body : (∀ x, sure (body x)) → sure (for_each xs body).
Proof.
  intros H. induction xs as [|x xs IH]; cbn [for_each]; [apply sure_ret|].
  apply sure_bind; [apply H | intros _; exact IH].
Qed.

Lemma sure_attempt m : sure m → sure (attempt m).
Proof. intros H s. specialize (H s). unfold attempt. by destruct (m s) as [s' [| |]]. Qed.

Ltac sure_step :=
  lazymatch goal with
  | |- sure (mret _) => apply sure_ret
  | |- sure (raise _) => apply sure_raise
  | |- sure get => apply sure_get
  | |- sure (modify _) => apply sure_modify
  | |- sure (emit _) => apply sure_modify
  | |- sure (update_job _ _) => apply sure_modify
  | |- sure (lift _) => apply sure_lift
  | |- sure (deref _) => apply sure_deref
  | |- sure (for_each _ _) => apply sure_for_each; intros ?
  | |- sure (attempt _) => apply sure_attempt
  | |- sure (_ ≫= _) => apply sure_bind; [ | intros ? ]
  | |- sure (match ?x with _ => _ end) => destruct x
  | |- sure (graph_remove _ _) => unfold graph_remove
  | |- sure (add_job _) => unfold add_job
  | |- sure (finish_job _) => unfold finish_job
  | |- sure (submit_task _ _ _) => unfold submit_task
  | |- sure (save_unmet _ _) => unfold save_unmet
  end.

Ltac sure_auto := repeat sure_step.

Lemma total_const {A} (c : M A) : sure c → total (λ _, c).
Proof. intros H s. exists 0%nat. intros fuel _. split; [apply H | done]. Qed.

Lemma total_bind {A B} (m : nat → M A) (f : nat → A → M B) :
  total m → (∀ a, total (λ fuel, f fuel a)) → total (λ fuel, m fuel ≫= f fuel).
Proof.
  intros Hm Hf s. destruct (Hm s) as [N1 H1]. unfold mbind, M_bind.
  destruct (m N1 s) as [s1 r1] eqn:E1.
  assert (∀ fuel, (N1 ≤ fuel)%nat → m fuel s = (s1, r1)) as Em.
  { intros fuel Hle. destruct (H1 fuel Hle) as [_ ->]. done. }
  assert (r1 ≠ OutOfFuel) as Hr1.
  { destruct (H1 N1 (le_n _)) as [H _]. by rewrite E1 in H. }
  destruct r1 as [a|e|]; [| |done].
  - destruct (Hf a s1) as [N2 H2]. exists (Nat.max N1 N2). intros fuel Hle.
    rewrite (Em fuel) by lia. rewrite (Em (Nat.max N1 N2)) by lia.
    destruct (H2 fuel ltac:(lia)) as [Hne E].
    destruct (H2 (Nat.max N1 N2) ltac:(lia)) as [Hne' E'].
    split; [exact Hne|]. by rewrite E, E'.
  - exists N1. intros fuel Hle. rewrite (Em fuel) by lia. rewrite E1. done.
Qed.

Lemma total_log_errors (m : nat → M unit) : total m → total (λ fuel, log_errors (m fuel)).
Proof.
  intros Hm s. destruct (Hm s) as [N H]. exists N. intros fuel Hle.
  destruct (H fuel Hle) as [Hne E]. unfold log_errors. rewrite E in Hne |- *.
  split; [|done]. by destruct (m N s) as [s' [| |]].
Qed.

Lemma total_for_each {A} (xs : list A) (body : nat → A → M unit) :
  (∀ x, total (λ fuel, body fuel x)) → total (λ fuel, for_each xs (body fuel)).
Proof.
  intros H. induction xs as [|x xs IH]; cbn [for_each].
  - apply total_const, sure_ret.
  - apply (total_bind (λ fuel, body fuel x) (λ fuel _, for_each xs (body fuel)));
      [apply H | intros _; exact IH].
Qed.

Ltac total_step leaf :=
  lazymatch goal with
  | |- total (λ fuel, match ?x with _ => _ end) => destruct x
  | |- total (λ fuel, _ ≫= _) => apply total_bind; [ | intros ? ]
  | |- total (λ fuel, log_errors _) => apply total_log_errors
  | |- total (λ _, ?c) => apply total_const; sure_auto
  | |- total _ => leaf
  end.

Section Total.
Variable hwm : Z.
Variable scheme : nat → list Z → nat.

Lemma total_update_graph d b : total (λ fuel, update_graph hwm scheme fuel d b).
Proof.
  intros s. exists (work s + 2)%nat. intros fuel Hle.
  assert (bounded (length (queue s)) (dom (queue_map s)) (live_refs s) s) as Hb.
  { by split_and!. }
  assert ((update_graph hwm scheme (work s + 2) d b s).2 ≠ OutOfFuel) as H0.
  { by destruct (term_update_graph hwm scheme (work s + 2) d b _ _ _ s Hb (le_n _)). }
  rewrite (agrees_update_graph hwm scheme _ fuel Hle d b s H0). done.
Qed.

Lemma total_fail_unreachable m why : total (λ fuel, fail_unreachable hwm scheme fuel m why).
Proof.
  unfold fail_unreachable, fail_unreachable_with.
  repeat total_step ltac:(apply total_update_graph).
Qed.

Lemma total_maybe_run r : total (λ fuel, maybe_run hwm scheme fuel r).
Proof.
  unfold maybe_run, maybe_run_with.
  repeat total_step ltac:(apply total_fail_unreachable).
Qed.

Lemma total_dispatch_submission now sub :
  total (λ fuel, dispatch_submission hwm scheme fuel now sub).
Proof.
  unfold dispatch_submission, dispatch_submission_body. cbv zeta.
  repeat total_step ltac:(first [ apply total_fail_unreachable | apply total_maybe_run ]).
Qed.

Lemma total_job_timeout r tid : total (λ fuel, job_timeout hwm scheme fuel r tid).
Proof.
  unfold job_timeout. repeat total_step ltac:(apply total_fail_unreachable).
Qed.

Lemma total_handle_result engine client m ok :
  total (λ fuel, handle_result hwm scheme fuel engine client m ok).
Proof.
  unfold handle_result. repeat total_step ltac:(apply total_update_graph).
Qed.

Lemma total_handle_unmet_dependency now engine m :
  total (λ fuel, handle_unmet_dependency hwm scheme fuel now engine m).
Proof.
  unfold handle_unmet_dependency.
  repeat total_step ltac:(first [ apply total_fail_unreachable | apply total_maybe_run
                                | apply total_update_graph ]).
Qed.

Lemma total_dispatch_result now res :
  total (λ fuel, dispatch_result hwm scheme fuel now res).
Proof.
  unfold dispatch_result, dispatch_result_body.
  repeat total_step ltac:(first [ apply total_handle_unmet_dependency
                                | apply total_handle_result ]).
Qed.

Lemma total_register_engine uid : total (λ fuel, register_engine hwm scheme fuel uid).
Proof.
  unfold register_engine. repeat total_step ltac:(apply total_update_graph).
Qed.

Lemma total_handle_stranded_tasks now uid :
  total (λ fuel, handle_stranded_tasks hwm scheme fuel now uid).
Proof.
  unfold handle_stranded_tasks.
  repeat total_step ltac:(first
    [ apply total_dispatch_result
    | apply total_for_each; intros ?; cbv beta ]).
Qed.

Lemma total_handler msg : total (λ fuel, handler hwm scheme fuel msg).
Proof.
  destruct msg as [now sub|now res|uid|now uid|now [r tid|uid]]; cbn [handler].
  - apply total_dispatch_submission.
  - apply total_dispatch_result.
  - apply total_log_errors, total_register_engine.
  - apply total_const. intros s.
    assert (sure (unregister_engine now uid)) as H by (unfold unregister_engine; sure_auto).
    specialize (H s). unfold log_errors.
    by destruct (unregister_engine now uid s) as [s' [| |]].
  - apply total_log_errors, total_job_timeout.
  - apply total_log_errors, total_handle_stranded_tasks.
Qed.

Lemma handler_done fuel msg s :
  (handler hwm scheme fuel msg s).2 ≠ OutOfFuel → (handler hwm scheme fuel msg s).2 = Done tt.
Proof.
  assert (∀ c s', (log_errors c s').2 ≠ OutOfFuel → (log_errors c s').2 = Done tt) as H.
  { intros c s'. unfold log_errors. by destruct (c s') as [s'' [[]| |]]. }
  destruct msg as [now sub|now res|uid|now uid|now [r tid|uid]]; cbn [handler]; apply H.
Qed.

(** X17. Every handler runs to its end: from every state and for every
    message there is an amount of fuel from which on the handler returns,
    and the state it ends in is the same whatever the fuel beyond.  As
    handlers log and drop exceptions, they return normally. *)
Theorem handlers_complete msg s :
  ∃ N, ∀ fuel, (N ≤ fuel)%nat →
    (handler hwm scheme fuel msg s).2 = Done tt ∧
    step hwm scheme fuel msg s = step hwm scheme N msg s.
Proof.
  destruct (total_handler msg s) as [N H]. exists N. intros fuel Hle.
  destruct (H fuel Hle) as [Hne E]. split; [by apply handler_done|].
  unfold step. by rewrite E.
Qed.

End Total.

(** *** Running a computation up to a call *)

Lemma bind_run {A B} (m : M A) (f : A → M B) s s' a :
  m s = (s', Done a) → (m ≫= f) s = f a s'.
Proof. intros H. unfold mbind, M_bind. by rewrite H. Qed.

Lemma bind_assoc_run {A B C} (m : M A) (f : A → M B) (g : B → M C) s :
  ((m ≫= f) ≫= g) s = (m ≫= λ a, f a ≫= g) s.
Proof. unfold mbind, M_bind. by destruct (m s) as [s' [a|e|]]. Qed.

Lemma wp_bind_raise {A B} (m : M A) (f : A → M B) Q s s' e :
  m s = (s', Raised e) → Q s' (Raised e) → wp (m ≫= f) Q s.
Proof. intros H HQ. unfold wp, mbind, M_bind. by rewrite H. Qed.

(** Taking an id out of graph entries changes the graph only, and ends
    normally or in the [KeyError] of [set.remove]. *)
Lemma graph_removes_cases m l : ∀ s,
  ∃ G, for_each l (graph_remove m) s = (set_graph G s, Done tt) ∨
       for_each l (graph_remove m) s = (set_graph G s, Raised KeyError).
Proof.
  induction l as [|mid l IH]; intros s; cbn [for_each].
  - exists (graph s). left. by destruct s.
  - unfold mbind, M_bind. rewrite graph_remove_eval.
    destruct (graph s !! mid) as [g|] eqn:Hg.
    + case_bool_decide.
      * destruct (IH (set_graph (<[mid:=g ∖ {[m]}]> (graph s)) s)) as [G HG].
        exists G. exact HG.
      * exists (graph s). right. by destruct s.
    + apply IH.
Qed.

(** *** The tombstone *)

#[local] Instance tombs_preorder : PreOrder tombs.
Proof.
  split.
  - intros s r j Hj Hr. eauto.
  - intros s1 s2 s3 H1 H2 r j Hj Hr.
    destruct (H1 r j Hj Hr) as (j' & Hj' & Hr'). eauto.
Qed.

Lemma keeps_alter (J : gmap JobRef Job) f r r0 :
  (∀ j, removed j = true → removed (f j) = true) →
  (∃ j', J !! r0 = Some j' ∧ removed j' = true) →
  ∃ j', alter f r J !! r0 = Some j' ∧ removed j' = true.
Proof.
  intros Hf (j' & Hj' & Hr'). destruct (decide (r0 = r)) as [->|Hne].
  - exists (f j'). rewrite lookup_alter_eq, Hj'. split; [done | by apply Hf].
  - exists j'. by rewrite lookup_alter_ne.
Qed.

Ltac tombs_explicit :=
  let r0 := fresh "r0" in let j0 := fresh "j0" in
  intros r0 j0 ? ?; cbn;
  repeat (apply keeps_alter; [ intros ? ?; cbn; first [ assumption | reflexivity ] | ]);
  solve [eauto].

Ltac tombs_leaf := apply (resp_modify _ _); intros ?; tombs_explicit.
Ltac tombs_auto := repeat first [ resp_step | tombs_leaf ].
Ltac tombs_run lem :=
  rel_start tombs;
  repeat first [ wp_step | rel_call tombs lem tombs_explicit
               | rel_here tombs tombs_explicit ].

(** *** Timers are armed for jobs with a timeout *)

Lemma timer_ok_persists (J J' : gmap JobRef Job) e :
  (∀ r j, J !! r = Some j → ∃ j', J' !! r = Some j' ∧ timeout j' = timeout j) →
  timer_ok J e → timer_ok J' e.
Proof.
  intros HJ. destruct e as [| | | | | | d [r tid|uid]]; try done.
  intros (j & Hj & Ht). destruct (HJ r j Hj) as (j' & Hj' & E).
  exists j'. by rewrite E.
Qed.

#[local] Instance keeps_timers_preorder : PreOrder keeps_timers.
Proof.
  split.
  - intros s. split; [eauto | apply grows_refl].
  - intros s1 s2 s3 [P1 G1] [P2 G2]. split.
    + intros r j Hj. destruct (P1 r j Hj) as (j' & Hj' & E1).
      destruct (P2 r j' Hj') as (j'' & Hj'' & E2). exists j''. by rewrite E2.
    + eapply grows_trans; [|exact G2].
      destruct G1 as (evs & E & F). exists evs. split; [done|].
      eapply Forall_impl; [exact F|]. intros e. by apply timer_ok_persists.
Qed.

Lemma persists_alter (J : gmap JobRef Job) f r r0 (t : option Z) :
  (∀ j, timeout (f j) = timeout j) →
  (∃ j', J !! r0 = Some j' ∧ timeout j' = t) →
  ∃ j', alter f r J !! r0 = Some j' ∧ timeout j' = t.
Proof.
  intros Hf (j' & Hj' & Ht). destruct (decide (r0 = r)) as [->|Hne].
  - exists (f j'). rewrite lookup_alter_eq, Hj'. split; [done | by rewrite Hf].
  - exists j'. by rewrite lookup_alter_ne.
Qed.

Lemma persists_insert_fresh (J : gmap JobRef Job) r j r0 (t : option Z) :
  J !! r = None →
  (∃ j', J !! r0 = Some j' ∧ timeout j' = t) →
  ∃ j', <[r := j]> J !! r0 = Some j' ∧ timeout j' = t.
Proof.
  intros Hr (j' & Hj' & Ht). exists j'. split; [|done].
  rewrite lookup_insert_ne; [done|]. intros ->. congruence.
Qed.

Lemma new_ref_fresh (J : gmap JobRef Job) s : jobs s = J → J !! new_ref s = None.
Proof. intros <-. apply not_elem_of_dom. unfold new_ref. apply is_fresh. Qed.

Ltac timers_persist :=
  intros ? ? ?; cbn;
  repeat first
    [ apply persists_alter; [ intros ?; reflexivity | ]
    | apply persists_insert_fresh; [ apply new_ref_fresh; reflexivity | ] ];
  solve [eauto].

Ltac timers_grows :=
  first [ apply grows_refl | apply grows_snoc; [ timers_grows | exact I ] ].

Ltac timers_explicit := split; [ timers_persist | cbn; timers_grows ].
Ltac timers_leaf := apply (resp_modify _ _); intros ?; timers_explicit.
Ltac timers_auto := repeat first [ resp_step | timers_leaf ].
Ltac timers_run lem :=
  rel_start keeps_timers;
  repeat first [ wp_step | rel_call keeps_timers lem timers_explicit
               | rel_here keeps_timers timers_explicit ].

Section Failing.
Variable hwm : Z.
Variable scheme : nat → list Z → nat.

Lemma tombs_add_job idx : resp tombs (add_job idx).
Proof. unfold add_job. tombs_auto. Qed.

Lemma tombs_submit_task r indices : resp tombs (submit_task scheme r indices).
Proof. unfold submit_task. tombs_auto. apply tombs_add_job. Qed.

Lemma tombs_graph_remove m mid : resp tombs (graph_remove m mid).
Proof. unfold graph_remove. tombs_auto. Qed.

Lemma tombs_graph_removes m l : resp tombs (for_each l (graph_remove m)).
Proof. apply (resp_for_each tombs _). intros ?. apply tombs_graph_remove. Qed.

Lemma tombs_fail_unreachable_with ug m why :
  (∀ d b, resp tombs (ug d b)) → resp tombs (fail_unreachable_with ug m why).
Proof.
  intros Hug. unfold fail_unreachable_with.
  tombs_run ltac:(first [ on (@for_each) ltac:(apply tombs_graph_removes)
                        | on ug ltac:(apply Hug) ]).
Qed.

Lemma tombs_maybe_run_with ug r :
  (∀ d b, resp tombs (ug d b)) → resp tombs (maybe_run_with hwm scheme ug r).
Proof.
  intros Hug. unfold maybe_run_with.
  tombs_run ltac:(first
    [ on fail_unreachable_with ltac:(by apply tombs_fail_unreachable_with)
    | on submit_task ltac:(apply tombs_submit_task) ]).
Qed.

Lemma tombs_ug_loop ug k :
  (∀ d b, resp tombs (ug d b)) → ∀ local to_restore,
  resp tombs (ug_loop hwm scheme ug k local to_restore).
Proof.
  intros Hug. induction k as [|k IH]; intros local to_restore; [intros s; reflexivity|].
  cbn [ug_loop].
  tombs_run ltac:(first
    [ on fail_unreachable_with ltac:(by apply tombs_fail_unreachable_with)
    | on maybe_run_with ltac:(by apply tombs_maybe_run_with)
    | on ug_loop ltac:(apply IH)
    | on (@for_each) ltac:(apply tombs_graph_removes) ]).
Qed.

Lemma tombs_update_graph fuel :
  ∀ d b, resp tombs (update_graph hwm scheme fuel d b).
Proof.
  induction fuel as [|n IH]; intros d b; [intros s; reflexivity|].
  cbn [update_graph]. tombs_run ltac:(idtac; on ug_loop ltac:(by apply tombs_ug_loop)).
Qed.

Lemma timers_add_job idx : resp keeps_timers (add_job idx).
Proof. unfold add_job. timers_auto. Qed.

Lemma timers_finish_job idx : resp keeps_timers (finish_job idx).
Proof. unfold finish_job. timers_auto. Qed.

Lemma timers_submit_task r indices : resp keeps_timers (submit_task scheme r indices).
Proof. unfold submit_task. timers_auto. apply timers_add_job. Qed.

Lemma timers_graph_remove m mid : resp keeps_timers (graph_remove m mid).
Proof. unfold graph_remove. timers_auto. Qed.

Lemma timers_graph_removes m l : resp keeps_timers (for_each l (graph_remove m)).
Proof. apply (resp_for_each keeps_timers _). intros ?. apply timers_graph_remove. Qed.

Lemma timers_fail_unreachable_with ug m why :
  (∀ d b, resp keeps_timers (ug d b)) → resp keeps_timers (fail_unreachable_with ug m why).
Proof.
  intros Hug. unfold fail_unreachable_with.
  timers_run ltac:(first [ on (@for_each) ltac:(apply timers_graph_removes)
                         | on ug ltac:(apply Hug) ]).
Qed.

Lemma timers_maybe_run_with ug r :
  (∀ d b, resp keeps_timers (ug d b)) → resp keeps_timers (maybe_run_with hwm scheme ug r).
Proof.
  intros Hug. unfold maybe_run_with.
  timers_run ltac:(first
    [ on fail_unreachable_with ltac:(by apply timers_fail_unreachable_with)
    | on submit_task ltac:(apply timers_submit_task) ]).
Qed.

Lemma timers_ug_loop ug k :
  (∀ d b, resp keeps_timers (ug d b)) → ∀ local to_restore,
  resp keeps_timers (ug_loop hwm scheme ug k local to_restore).
Proof.
  intros Hug. induction k as [|k IH]; intros local to_restore; [intros s; reflexivity|].
  cbn [ug_loop].
  timers_run ltac:(first
    [ on fail_unreachable_with ltac:(by apply timers_fail_unreachable_with)
    | on maybe_run_with ltac:(by apply timers_maybe_run_with)
    | on ug_loop ltac:(apply IH)
    | on (@for_each) ltac:(apply timers_graph_removes) ]).
Qed.

Lemma timers_update_graph fuel :
  ∀ d b, resp keeps_timers (update_graph hwm scheme fuel d b).
Proof.
  induction fuel as [|n IH]; intros d b; [intros s; reflexivity|].
  cbn [update_graph]. timers_run ltac:(idtac; on ug_loop ltac:(by apply timers_ug_loop)).
Qed.

Lemma timers_fail_unreachable fuel m why :
  resp keeps_timers (fail_unreachable hwm scheme fuel m why).
Proof. apply timers_fail_unreachable_with, timers_update_graph. Qed.

Lemma timers_maybe_run fuel r : resp keeps_timers (maybe_run hwm scheme fuel r).
Proof. apply timers_maybe_run_with, timers_update_graph. Qed.

Lemma timers_save_unmet now r : resp keeps_timers (save_unmet now r).
Proof.
  intros s. destruct (jobs s !! r) as [j|] eqn:Hj.
  - destruct (save_unmet_eval now r s j Hj) as (G & _ & ->). cbn [fst]. split.
    + intros r0 j0 Hj0. cbn. destruct (decide (r0 = r)) as [->|Hne].
      * exists (armed j). rewrite lookup_insert_eq. split; [done|].
        assert (j0 = j) as -> by congruence. unfold armed. by destruct (has_timeout j).
      * exists j0. by rewrite lookup_insert_ne.
    + cbn. exists (timer_of now r j). split; [done|].
      unfold timer_of. destruct (timeout j) as [t|] eqn:Ht; [|constructor].
      destruct (has_timeout j) eqn:Hh; constructor; [|constructor].
      cbn. exists (armed j). rewrite lookup_insert_eq. split; [done|].
      unfold armed. rewrite Hh. cbn. by rewrite Ht.
  - unfold save_unmet, deref. exec. rewrite Hj. reflexivity.
Qed.

Lemma timers_dispatch_submission fuel now sub :
  resp keeps_timers (dispatch_submission hwm scheme fuel now sub).
Proof.
  unfold dispatch_submission. apply (resp_log_errors _ _). unfold dispatch_submission_body.
  timers_run ltac:(first
    [ on fail_unreachable ltac:(apply timers_fail_unreachable)
    | on maybe_run ltac:(apply timers_maybe_run)
    | on save_unmet ltac:(apply timers_save_unmet) ]).
Qed.

Lemma timers_job_timeout fuel r tid : resp keeps_timers (job_timeout hwm scheme fuel r tid).
Proof.
  unfold job_timeout.
  timers_run ltac:(idtac; on fail_unreachable ltac:(apply timers_fail_unreachable)).
Qed.

Lemma timers_handle_result fuel engine client m ok :
  resp keeps_timers (handle_result hwm scheme fuel engine client m ok).
Proof.
  unfold handle_result.
  timers_run ltac:(idtac; on update_graph ltac:(apply timers_update_graph)).
Qed.

Lemma timers_handle_unmet_dependency fuel now engine m :
  resp keeps_timers (handle_unmet_dependency hwm scheme fuel now engine m).
Proof.
  unfold handle_unmet_dependency.
  timers_run ltac:(first
    [ on fail_unreachable ltac:(apply timers_fail_unreachable)
    | on maybe_run ltac:(apply timers_maybe_run)
    | on save_unmet ltac:(apply timers_save_unmet)
    | on update_graph ltac:(apply timers_update_graph) ]).
Qed.

Lemma timers_dispatch_result fuel now res :
  resp keeps_timers (dispatch_result hwm scheme fuel now res).
Proof.
  unfold dispatch_result. apply (resp_log_errors _ _). unfold dispatch_result_body.
  timers_run ltac:(first
    [ on attempt ltac:(apply (resp_attempt _ _); timers_auto; apply timers_finish_job)
    | on handle_unmet_dependency ltac:(apply timers_handle_unmet_dependency)
    | on handle_result ltac:(apply timers_handle_result) ]).
Qed.

Lemma timers_register_engine fuel uid :
  resp keeps_timers (register_engine hwm scheme fuel uid).
Proof.
  unfold register_engine.
  timers_run ltac:(idtac; on update_graph ltac:(apply timers_update_graph)).
Qed.

Lemma timers_unregister_engine now uid : resp keeps_timers (unregister_engine now uid).
Proof. unfold unregister_engine. timers_run ltac:(fail). Qed.

Lemma timers_handle_stranded_tasks fuel now uid :
  resp keeps_timers (handle_stranded_tasks hwm scheme fuel now uid).
Proof.
  unfold handle_stranded_tasks.
  timers_run ltac:(idtac; on (@for_each)
    ltac:(apply (resp_for_each keeps_timers _); intros ?;
          timers_auto; apply timers_dispatch_result)).
Qed.

Lemma timers_handler fuel msg : resp keeps_timers (handler hwm scheme fuel msg).
Proof.
  destruct msg as [now sub|now res|uid|now uid|now [r tid|uid]]; cbn [handler].
  - apply timers_dispatch_submission.
  - apply timers_dispatch_result.
  - apply (resp_log_errors _ _), timers_register_engine.
  - apply (resp_log_errors _ _), timers_unregister_engine.
  - apply (resp_log_errors _ _), timers_job_timeout.
  - apply (resp_log_errors _ _), timers_handle_stranded_tasks.
Qed.

Lemma reachable_live_timers s : reachable_live hwm scheme s → timers_armed s.
Proof.
  induction 1 as [|s fuel msg _ IH _ _]; [constructor|].
  destruct (timers_handler fuel msg s) as [P (evs & E & F)].
  unfold timers_armed, step. rewrite E. apply Forall_app. split; [|done].
  eapply Forall_impl; [exact IH|]. intros e. by apply timer_ok_persists.
Qed.

(** *** What [fail_unreachable] does to a job in [queue_map] *)

(** The job leaves [queue_map] and is marked as removed; if the graph
    entries under its dependencies all list it, or no exception ends the
    call, the reply and the notification are sent and the id is recorded
    as failed. *)
Lemma fail_unreachable_outcome fuel m why s r j :
  queue_map s !! m = Some r → jobs s !! r = Some j →
  let out := fail_unreachable hwm scheme fuel m why s in
  queue_map out.1 !! m = None ∧
  removed <$> jobs out.1 !! r = Some true ∧
  (graph_lists s j m ∨ ¬ raises out.2 →
   (∃ evs, trace out.1 = trace s ++ ErrorReply m why (idents j) :: MonOuttask m :: evs) ∧
   m ∈ all_failed out.1 ∧ m ∈ all_done out.1).
Proof.
  intros Hq Hj out. subst out. split_and!.
  - apply (absent_fail_unreachable hwm scheme m).
  - change (wp (fail_unreachable hwm scheme fuel m why)
              (λ s' _, removed <$> jobs s' !! r = Some true) s).
    unfold fail_unreachable, fail_unreachable_with. wp_step. rewrite Hq. wp_step. wp_step.
    cbn [jobs set_queue_map]. rewrite Hj. wp_step.
    match goal with |- wp ?K _ ?s1 => assert (tombs s1 (K s1).1) as HT end.
    { tombs_run ltac:(first [ on (@for_each) ltac:(apply tombs_graph_removes)
                            | on update_graph ltac:(apply tombs_update_graph) ]). }
    unfold wp. destruct (HT r (with_removed true j)) as (j' & -> & Hr'); [|done|].
    + cbn. by rewrite lookup_alter_eq, Hj.
    + cbn. by rewrite Hr'.
  - change (wp (fail_unreachable hwm scheme fuel m why)
              (λ s' res, graph_lists s j m ∨ ¬ raises res →
                 (∃ evs, trace s' = trace s ++ ErrorReply m why (idents j)
                                           :: MonOuttask m :: evs) ∧
                 m ∈ all_failed s' ∧ m ∈ all_done s') s).
    unfold fail_unreachable, fail_unreachable_with. wp_step. rewrite Hq. wp_step. wp_step.
    cbn [jobs set_queue_map]. rewrite Hj. wp_step.
    match goal with |- wp (for_each ?l ?b ≫= _) _ ?s1 =>
      destruct (graph_removes_cases m l s1) as [G [HG|HG]]
    end.
    + eapply wp_bind_eval; [exact HG|]. do 4 wp_step.
      match goal with |- wp (update_graph _ _ _ ?d ?b) _ ?s2 =>
        destruct (frame_update_graph hwm scheme fuel d b s2) as (_ & [evs Ht] & _);
        destruct (extends_update_graph hwm scheme fuel d b s2) as (_ & _ & Hd & _ & Hf & _)
      end.
      unfold wp. intros _. split_and!.
      * exists evs. rewrite Ht. cbn. by rewrite <- !app_assoc.
      * apply Hf. cbn. set_solver.
      * apply Hd. cbn. set_solver.
    + eapply wp_bind_raise; [exact HG|]. intros [Hg|Hn].
      * exfalso.
        match type of HG with for_each ?l _ ?s1 = _ =>
          destruct (graph_removes_done m l s1) as [G' HG']
        end.
        { apply NoDup_elements. }
        { intros mid g Hin. cbn. apply Hg. by apply elem_of_elements. }
        congruence.
      * exfalso. apply Hn. by eexists.
Qed.

(** C7. A timer that carries another [timeout_id] than the job's changes
    nothing, and neither does one whose job is no longer in [queue_map].
    In every state the scheduler reaches (handlers given fuel enough), when
    a timer that has been armed carries the job's [timeout_id] and the
    job's [msg_id] is in [queue_map], the job is failed: the client gets
    the [TaskTimeout] reply, the monitor its notification, the id leaves
    [queue_map] and is recorded in [all_failed] and [all_done], and the job
    object is marked as removed. *)
Theorem job_timeout_spec fuel r tid s j :
  jobs s !! r = Some j →
  (timeout_id j ≠ tid → job_timeout hwm scheme fuel r tid s = (s, Done tt)) ∧
  (queue_map s !! msg_id j = None → (job_timeout hwm scheme fuel r tid s).1 = s) ∧
  (reachable_live hwm scheme s →
   (∃ deadline, AddTimeout deadline (JobTimeout r tid) ∈ trace s) →
   timeout_id j = tid →
   ∀ r' j', queue_map s !! msg_id j = Some r' → jobs s !! r' = Some j' →
     let s' := (job_timeout hwm scheme fuel r tid s).1 in
     (∃ evs, trace s' = trace s ++ ErrorReply (msg_id j) TaskTimeout (idents j')
                                 :: MonOuttask (msg_id j) :: evs) ∧
     queue_map s' !! msg_id j = None ∧
     msg_id j ∈ all_failed s' ∧ msg_id j ∈ all_done s' ∧
     removed <$> jobs s' !! r' = Some true).
Proof.
  intros Hj. destruct (job_timeout_cases hwm scheme fuel r tid s j Hj) as (H1 & H2 & H3).
  split_and!; [exact H1 | intros H; apply H2; by right |].
  intros Hs [d Harmed] Htid r' j' Hq Hj' s'. subst s'.
  assert (is_Some (timeout j)) as Ht.
  { pose proof (reachable_live_timers s Hs) as HT.
    apply (proj1 (Forall_forall _ _) HT) in Harmed.
    destruct Harmed as (j0 & Hj0 & Ht0). by assert (j0 = j) as <- by congruence. }
  rewrite H3 by eauto.
  destruct (fail_unreachable_outcome fuel (msg_id j) TaskTimeout s r' j' Hq Hj')
    as (Ha & Hr & Hrest).
  destruct Hrest as (He & Hf & Hd).
  { left. apply (graph_inv_lists s (msg_id j) r' j'); [|done..].
    by apply (reachable_live_graph_inv hwm scheme). }
  done.
Qed.

(** *** Results: retries, blacklist and resubmission *)

Lemma attempt_finish_job_eval s engine :
  (length (targets s) ≤ length (loads s))%nat →
  attempt (match find_index engine (targets s) with
           | Some idx => finish_job idx
           | None => mret tt
           end) s = (unloaded engine s, Done true).
Proof.
  intros Hlen. unfold unloaded, attempt.
  destruct (find_index engine (targets s)) as [idx|] eqn:Hidx; [|done].
  apply find_index_lt in Hidx.
  destruct (lookup_lt_is_Some_2 (loads s) idx) as [l Hl]; [lia|].
  unfold finish_job. exec. unfold at_index. rewrite Hl. done.
Qed.

Lemma handle_unmet_dependency_resubmits fuel now engine m s p r j :
  pending s !! engine = Some p → p !! m = Some r → jobs s !! r = Some j →
  handle_unmet_dependency hwm scheme fuel now engine m s
  = (resubmit hwm scheme fuel now m r;; rescan_if_freed hwm scheme fuel engine)
      (refused_by engine m r s).
Proof.
  intros Hp Hm Hj.
  assert (refused_by engine m r s
          = set_jobs (alter (with_blacklist ({[engine]} ∪ blacklist j)) r (jobs s))
              (set_pending (<[engine := delete m p]> (pending s)) s)) as ->.
  { unfold refused_by.
    assert (alter (λ j0, with_blacklist ({[engine]} ∪ blacklist j0) j0) r (jobs s)
            = alter (with_blacklist ({[engine]} ∪ blacklist j)) r (jobs s)) as ->.
    { apply map_eq. intros r'. destruct (decide (r' = r)) as [->|Hne].
      - by rewrite !lookup_alter_eq, Hj.
      - by rewrite !lookup_alter_ne. }
    assert (alter (delete m) engine (pending s) = <[engine := delete m p]> (pending s)) as ->.
    { apply map_eq. intros e'. destruct (decide (e' = engine)) as [->|Hne].
      - by rewrite lookup_alter_eq, lookup_insert_eq, Hp.
      - by rewrite lookup_alter_ne, lookup_insert_ne. }
    done. }
  unfold handle_unmet_dependency, resubmit.
  rewrite (bind_run get _ s s s) by done.
  rewrite (bind_run (lift (item (pending s) engine)) _ s s p)
    by (unfold item; by rewrite Hp).
  rewrite (bind_run (lift (item p m)) _ s s r) by (unfold item; by rewrite Hm).
  erewrite (bind_run (modify _)) by reflexivity.
  erewrite (bind_run (deref r) _ _ _ j) by (unfold deref; cbn; by rewrite Hj).
  erewrite (bind_run (update_job r _)) by reflexivity.
  rewrite (bind_assoc_run (deref r)).
  erewrite (bind_run (deref r) _ _ _ (with_blacklist ({[engine]} ∪ blacklist j) j))
    by (unfold deref; cbn; by rewrite lookup_alter_eq, Hj).
  reflexivity.
Qed.

Lemma rescan_if_freed_grows fuel engine s :
  frame s (rescan_if_freed hwm scheme fuel engine s).1 ∧
  extends s (rescan_if_freed hwm scheme fuel engine s).1.
Proof.
  assert (frame s s ∧ extends s s) as Hrefl.
  { split; [reflexivity|]. unfold extends. split_and!; reflexivity. }
  unfold rescan_if_freed. destruct (hwm_on hwm); [|exact Hrefl]. exec.
  destruct (find_index engine (targets s)) as [idx|]; [|exact Hrefl].
  unfold at_index. destruct (loads s !! idx) as [l|]; [|exact Hrefl]. cbn.
  case_bool_decide; [|exact Hrefl].
  split; [apply frame_update_graph | apply extends_update_graph].
Qed.

Lemma resubmit_fails fuel now engine m r s0 j0 :
  jobs s0 !! r = Some j0 → blacklist j0 = job_targets j0 →
  let out := (resubmit hwm scheme fuel now m r;;
              rescan_if_freed hwm scheme fuel engine) s0 in
  ¬ raises out.2 →
  (∃ evs, trace out.1 = trace s0 ++ ErrorReply m ImpossibleDependency (idents j0)
                                  :: MonOuttask m :: evs) ∧
  m ∈ all_failed out.1.
Proof.
  intros Hj Hb out. subst out. unfold resubmit.
  rewrite bind_assoc_run.
  rewrite (bind_run (deref r) _ s0 s0 j0) by (unfold deref; by rewrite Hj).
  rewrite bool_decide_eq_true_2 by done.
  rewrite bind_assoc_run. erewrite (bind_run (modify _)) by reflexivity.
  set (s1 := set_queue_map _ s0).
  destruct (fail_unreachable_outcome fuel m ImpossibleDependency s1 r j0)
    as (_ & _ & Hrest).
  { subst s1. cbn. apply lookup_insert_eq. }
  { exact Hj. }
  cbv zeta in Hrest. unfold mbind, M_bind.
  destruct (fail_unreachable hwm scheme fuel m ImpossibleDependency s1)
    as [s2 [[]|e|]]; cbn [fst snd] in *.
  - intros _. destruct Hrest as ([evs He] & Hf & _); [right; by intros [e [=]]|].
    destruct (rescan_if_freed_grows fuel engine s2)
      as ((_ & [evs' Ht] & _) & (_ & _ & _ & _ & Hf' & _)).
    split; [|by apply Hf'].
    exists (evs ++ evs'). rewrite Ht, He. subst s1. cbn. by rewrite <- !app_assoc.
  - intros Hn. exfalso. apply Hn. by eexists.
  - intros _. destruct Hrest as (He & Hf & _); [right; by intros [e [=]]|]. done.
Qed.

(** C3 (amended). For the result of a job pending on the engine: a
    refusal ([dependencies_met] false) leaves [retries] as it is, a failure
    with retries left takes one off, and both put the engine on the job's
    blacklist and resubmit the job: it goes to [fail_unreachable] when the
    blacklist then equals its targets (when no exception ends the handler,
    the client has the [ImpossibleDependency] reply and the id is in
    [all_failed]), and otherwise to [maybe_run], and to [save_unmet] when
    [maybe_run] neither placed nor failed it.  Any other result removes
    the [retries] entry. *)
Theorem result_retries_and_blacklist fuel now res s p r j :
  (length (targets s) ≤ length (loads s))%nat →
  pending s !! res_engine res = Some p → p !! res_msg_id res = Some r →
  jobs s !! r = Some j →
  let out := dispatch_result hwm scheme fuel now res s in
  let m := res_msg_id res in
  let resubmitted_with rt :=
    retries out.1 = rt ∧
    blacklist <$> jobs out.1 !! r = Some ({[res_engine res]} ∪ blacklist j) ∧
    out = log_errors (resubmit hwm scheme fuel now m r;;
                      rescan_if_freed hwm scheme fuel (res_engine res))
            (refused_by (res_engine res) m r
               (set_retries rt (unloaded (res_engine res) s))) ∧
    ({[res_engine res]} ∪ blacklist j = job_targets j →
     ¬ raises (dispatch_result_body hwm scheme fuel now res s).2 →
     (∃ evs, trace out.1 = trace s ++ ErrorReply m ImpossibleDependency (idents j)
                                    :: MonOuttask m :: evs) ∧
     m ∈ all_failed out.1) in
  match md_dependencies_met res with
  | Some false => resubmitted_with (retries s)
  | _ =>
    ∀ n, retries s !! m = Some n →
      if negb (md_status_ok res) && bool_decide (0 < n)
      then resubmitted_with (<[m:=n - 1]> (retries s))
      else retries out.1 = delete m (retries s)
  end.
Proof.
  intros Hlen Hp Hm Hj out m. subst out m.
  assert (∀ s0, pending s0 = pending s → jobs s0 = jobs s →
            dispatch_result_body hwm scheme fuel now res s
            = handle_unmet_dependency hwm scheme fuel now (res_engine res) (res_msg_id res) s0 →
            retries (dispatch_result hwm scheme fuel now res s).1 = retries s0 ∧
            blacklist <$> jobs (dispatch_result hwm scheme fuel now res s).1 !! r
            = Some ({[res_engine res]} ∪ blacklist j) ∧
            dispatch_result hwm scheme fuel now res s
            = log_errors (resubmit hwm scheme fuel now (res_msg_id res) r;;
                          rescan_if_freed hwm scheme fuel (res_engine res))
                (refused_by (res_engine res) (res_msg_id res) r s0) ∧
            (trace s0 = trace s →
             {[res_engine res]} ∪ blacklist j = job_targets j →
             ¬ raises (dispatch_result_body hwm scheme fuel now res s).2 →
             (∃ evs, trace (dispatch_result hwm scheme fuel now res s).1
                     = trace s ++ ErrorReply (res_msg_id res) ImpossibleDependency
                                    (idents j) :: MonOuttask (res_msg_id res) :: evs) ∧
             res_msg_id res ∈ all_failed (dispatch_result hwm scheme fuel now res s).1))
    as Hre.
  { intros s0 Ep Ej Hbody.
    assert (handle_unmet_dependency hwm scheme fuel now (res_engine res) (res_msg_id res) s0
            = (resubmit hwm scheme fuel now (res_msg_id res) r;;
               rescan_if_freed hwm scheme fuel (res_engine res))
                (refused_by (res_engine res) (res_msg_id res) r s0)) as Hh.
    { apply (handle_unmet_dependency_resubmits _ _ _ _ _ p r j); by rewrite ?Ep, ?Ej. }
    unfold dispatch_result. rewrite log_errors_state, Hbody.
    split_and!; [| | unfold log_errors; by rewrite Hbody, Hh |].
    3: { intros Et Hb Hn. rewrite Hh in Hn |- *.
         destruct (resubmit_fails fuel now (res_engine res) (res_msg_id res) r
                     (refused_by (res_engine res) (res_msg_id res) r s0)
                     (with_blacklist ({[res_engine res]} ∪ blacklist j) j))
           as [[evs He] Hf];
           [ unfold refused_by; cbn; by rewrite Ej, lookup_alter_eq, Hj
           | exact Hb | exact Hn | ].
         split; [|exact Hf]. exists evs. rewrite He. unfold refused_by. cbn.
         by rewrite Et. }
    - rewrite Hh.
      assert (resp frame (resubmit hwm scheme fuel now (res_msg_id res) r;;
                          rescan_if_freed hwm scheme fuel (res_engine res))) as Hf.
      { unfold resubmit, rescan_if_freed.
        frame_auto; first [ apply frame_fail_unreachable | apply frame_maybe_run
                          | apply frame_save_unmet | apply frame_update_graph ]. }
      destruct (Hf (refused_by (res_engine res) (res_msg_id res) r s0)) as (-> & _). done.
    - rewrite Hh.
      assert (resp frame (resubmit hwm scheme fuel now (res_msg_id res) r;;
                          rescan_if_freed hwm scheme fuel (res_engine res))) as Hf.
      { unfold resubmit, rescan_if_freed.
        frame_auto; first [ apply frame_fail_unreachable | apply frame_maybe_run
                          | apply frame_save_unmet | apply frame_update_graph ]. }
      destruct (Hf (refused_by (res_engine res) (res_msg_id res) r s0)) as (_ & _ & HJ).
      destruct (HJ r (with_blacklist ({[res_engine res]} ∪ blacklist j) j))
        as (j' & -> & F).
      { unfold refused_by. cbn. by rewrite Ej, lookup_alter_eq, Hj. }
      destruct F as (_ & _ & _ & _ & _ & _ & _ & Hbl & _). cbn. by rewrite Hbl. }
  assert (retries (unloaded (res_engine res) s) = retries s) as Er
    by (unfold unloaded; by repeat case_match).
  assert (dispatch_result_body hwm scheme fuel now res s
          = (if default true (md_dependencies_met res) then
               let m := res_msg_id res in
               s1 ← get;
               n ← lift (item (retries s1) m);
               if negb (md_status_ok res) && bool_decide (0 < n) then
                 modify (set_retries (<[m := n - 1]> (retries s1)));;
                 handle_unmet_dependency hwm scheme fuel now (res_engine res) m
               else
                 modify (set_retries (delete m (retries s1)));;
                 handle_result hwm scheme fuel (res_engine res) (res_client res) m
                   (md_status_ok res);;
                 emit (MonOuttask m)
             else handle_unmet_dependency hwm scheme fuel now (res_engine res)
                    (res_msg_id res)) (unloaded (res_engine res) s)) as Hbody.
  { unfold dispatch_result_body.
    rewrite (bind_run get _ s s s) by done.
    erewrite (bind_run (attempt _)) by (by apply attempt_finish_job_eval).
    reflexivity. }
  cbv zeta in Hbody |- *.
  assert (∀ n, retries s !! res_msg_id res = Some n →
            default true (md_dependencies_met res) = true →
            dispatch_result_body hwm scheme fuel now res s
            = (if negb (md_status_ok res) && bool_decide (0 < n) then
                 modify (set_retries (<[res_msg_id res := n - 1]>
                                        (retries (unloaded (res_engine res) s))));;
                 handle_unmet_dependency hwm scheme fuel now (res_engine res)
                   (res_msg_id res)
               else
                 modify (set_retries (delete (res_msg_id res)
                                        (retries (unloaded (res_engine res) s))));;
                 handle_result hwm scheme fuel (res_engine res) (res_client res)
                   (res_msg_id res) (md_status_ok res);;
                 emit (MonOuttask (res_msg_id res))) (unloaded (res_engine res) s))
    as Hreal.
  { intros n Hn Hd. rewrite Hbody, Hd.
    rewrite (bind_run get _ _ _ (unloaded (res_engine res) s)) by done.
    erewrite (bind_run (lift _) _ _ _ n) by (unfold item; by rewrite Er, Hn).
    reflexivity. }
  assert (∀ n, retries s !! res_msg_id res = Some n →
            default true (md_dependencies_met res) = true →
            if negb (md_status_ok res) && bool_decide (0 < n)
            then retries (dispatch_result hwm scheme fuel now res s).1
                 = retries (set_retries (<[res_msg_id res:=n - 1]> (retries s))
                              (unloaded (res_engine res) s)) ∧
                 blacklist <$> jobs (dispatch_result hwm scheme fuel now res s).1 !! r
                 = Some ({[res_engine res]} ∪ blacklist j) ∧
                 dispatch_result hwm scheme fuel now res s
                 = log_errors (resubmit hwm scheme fuel now (res_msg_id res) r;;
                               rescan_if_freed hwm scheme fuel (res_engine res))
                     (refused_by (res_engine res) (res_msg_id res) r
                        (set_retries (<[res_msg_id res:=n - 1]> (retries s))
                           (unloaded (res_engine res) s))) ∧
                 ({[res_engine res]} ∪ blacklist j = job_targets j →
                  ¬ raises (dispatch_result_body hwm scheme fuel now res s).2 →
                  (∃ evs, trace (dispatch_result hwm scheme fuel now res s).1
                          = trace s ++ ErrorReply (res_msg_id res) ImpossibleDependency
                                         (idents j) :: MonOuttask (res_msg_id res) :: evs) ∧
                  res_msg_id res ∈ all_failed (dispatch_result hwm scheme fuel now res s).1)
            else retries (dispatch_result hwm scheme fuel now res s).1
                 = delete (res_msg_id res) (retries s)) as Hcases.
  { intros n Hn Hd. specialize (Hreal n Hn Hd).
    destruct (negb (md_status_ok res) && bool_decide (0 < n)) eqn:Hc.
    - assert (trace (unloaded (res_engine res) s) = trace s) as Et
        by (unfold unloaded; by repeat case_match).
      destruct (Hre (set_retries (<[res_msg_id res:=n - 1]> (retries s))
                       (unloaded (res_engine res) s))) as (H1 & H2 & H3 & H4).
      { unfold unloaded; by repeat case_match. }
      { unfold unloaded; by repeat case_match. }
      { rewrite Hreal. erewrite (bind_run (modify _)) by reflexivity. by rewrite Er. }
      split_and!; [exact H1 | exact H2 | exact H3 | by apply H4].
    - unfold dispatch_result. rewrite log_errors_state, Hreal.
      erewrite (bind_run (modify _)) by reflexivity.
      match goal with |- context [(?K ≫= ?f) ?s0] =>
        change (wp (K ≫= f) (λ s' _, retries s' = delete (res_msg_id res) (retries s)) s0)
      end.
      apply wp_bind.
      match goal with |- wp (handle_result ?h ?sc ?f ?e ?c ?mm ?o) _ ?s0 =>
        destruct (frame_handle_result h sc f e c mm o s0) as (E & _);
        unfold wp; destruct (handle_result h sc f e c mm o s0) as [s'' [[]|?|]]
      end; cbn [fst snd retries set_retries] in *; rewrite ?Er in E; try exact E.
      all: try (wp_step; exact E). }
  destruct (md_dependencies_met res) as [[|]|] eqn:Hmet.
  - intros n Hn. by apply Hcases.
  - assert (set_retries (retries s) (unloaded (res_engine res) s)
            = unloaded (res_engine res) s) as ->.
    { rewrite <- Er. by destruct (unloaded (res_engine res) s). }
    assert (trace (unloaded (res_engine res) s) = trace s) as Et
      by (unfold unloaded; by repeat case_match).
    destruct (Hre (unloaded (res_engine res) s)) as (H1 & H2 & H3 & H4).
    { unfold unloaded; by repeat case_match. }
    { unfold unloaded; by repeat case_match. }
    { exact Hbody. }
    rewrite Er in H1. split_and!; [exact H1 | exact H2 | exact H3 | by apply H4].
  - intros n Hn. by apply Hcases.
Qed.

(** *** Submissions with a faulty dependency *)

Lemma then_ret_outcome {A B} (c : M A) (b : B) s :
  ((c;; mret b) s).1 = (c s).1 ∧ (raises (c s).2 → raises ((c;; mret b) s).2).
Proof.
  unfold mbind, M_bind, mret, M_ret, raises.
  destruct (c s) as [s' [a|e|]]; cbn; split; try done; intros [e' [=]]; eauto.
Qed.

(** C4 (amended). Take [after] in its canonical form, then [follow]: the
    first of the two that is not empty and is invalid (it names the
    submission itself or an unknown id) or unreachable decides the error,
    [InvalidDependency] or [ImpossibleDependency], invalidity being tested
    first, with which the job goes to [fail_unreachable]; the job is not
    dispatched and is left in no queue, and when no exception ends the
    handler the client has the reply with that error and the id is in
    [all_failed]. *)
Theorem faulty_submission_fails fuel now sub s why :
  let m := sub_msg_id sub in
  let aft := canonical_after (md_after sub) s in
  let fol := default MET (md_follow sub) in
  let r := new_ref s in
  first_fault m (submitted sub s) aft fol why →
  refs_valid s →
  let body := dispatch_submission_body hwm scheme fuel now sub s in
  let s' := (dispatch_submission hwm scheme fuel now sub s).1 in
  body = fail_unreachable hwm scheme fuel m why
           (set_queue_map (<[m := r]> (queue_map s)) (entered now sub s)) ∧
  (∃ evs, trace s' = trace s ++ MonIntask (sub_raw_msg sub) :: evs ∧
          Forall (not_dispatch r) evs) ∧
  idle r s' ∧
  (¬ raises body.2 →
   (∃ evs, trace s' = trace s ++ MonIntask (sub_raw_msg sub)
                        :: ErrorReply m why (sub_idents sub) :: MonOuttask m :: evs) ∧
   m ∈ all_failed s').
Proof.
  intros m aft fol r Hfault Hvalid body s'. subst body s'.
  unfold dispatch_submission. rewrite log_errors_state.
  set (s1 := set_queue_map (<[m := r]> (queue_map s)) (entered now sub s)).
  assert (dispatch_submission_body hwm scheme fuel now sub s
          = fail_unreachable hwm scheme fuel m why s1) as Hbody.
  { unfold dispatch_submission_body.
    erewrite (bind_run (emit _)) by reflexivity.
    erewrite (bind_run (modify _)) by reflexivity.
    erewrite (bind_run (modify _)) by reflexivity.
    erewrite (bind_run get) by reflexivity.
    cbv zeta.
    erewrite (bind_run (modify _)) by reflexivity.
    destruct Hfault as [Hf|[Hfl Hf]].
    - apply (validate_fault _ (submitted sub s)) in Hf.
      match goal with |- (match ?v with _ => _ end) _ = _ =>
        assert (v = Some why) as -> by exact Hf end.
      erewrite (bind_run (modify _)) by reflexivity. reflexivity.
    - apply (validate_faultless _ (submitted sub s)) in Hfl.
      apply (validate_fault _ (submitted sub s)) in Hf.
      match goal with |- (match ?v with _ => _ end) _ = _ =>
        assert (v = None) as -> by exact Hfl end.
      match goal with |- (match ?v with _ => _ end) _ = _ =>
        assert (v = Some why) as -> by exact Hf end.
      erewrite (bind_run (modify _)) by reflexivity. reflexivity. }
  rewrite Hbody.
  assert (queue_map s1 !! m = Some r) as Hq by (subst s1; cbn; apply lookup_insert_eq).
  assert (jobs s1 !! r = Some (new_job now sub aft)) as Hj
    by (subst s1; cbn; apply lookup_insert_eq).
  assert (idle r (set_queue_map (delete m (queue_map s1)) s1)) as Hidle.
  { destruct (refs_valid_idle s Hvalid) as (Hi1 & Hi2 & Hi3). split_and!; [done | | done].
    intros m'. subst s1. cbn. rewrite lookup_delete. case_decide; [done|].
    rewrite lookup_insert_ne by done. apply Hi2. }
  destruct (aside_fail_unreachable_queued hwm scheme r (trace s1) fuel m why r s1 Hq)
    as [[Hi (evs & Ht & Hevs)] _].
  { split; [exact Hidle | apply grows_refl]. }
  cbv beta in Hi, Ht.
  split_and!.
  - reflexivity.
  - exists evs. split; [|done]. rewrite Ht. subst s1. cbn. by rewrite <- app_assoc.
  - exact Hi.
  - intros Hn.
    destruct (fail_unreachable_outcome fuel m why s1 r (new_job now sub aft) Hq Hj)
      as (_ & _ & Hrest).
    destruct Hrest as ([evs' He] & Hf & _); [by right|].
    split; [|exact Hf]. exists evs'. rewrite He. subst s1. cbn. by rewrite <- app_assoc.
Qed.

(** *** [maybe_run] when the filter leaves no engine *)

Lemma bind_ret_run {A B C} (c : M A) (b : B) (f : B → M C) s :
  ((c;; mret b) ≫= f) s = (c;; f b) s.
Proof. unfold mbind, M_bind, mret, M_ret. by destruct (c s) as [s' [a|e|]]. Qed.

Lemma maybe_run_no_engine fuel r s j i av dests :
  jobs s !! r = Some j →
  available_engines hwm s = inr (i :: av) →
  dep_nonempty (follow j) || set_nonempty (job_targets j)
    || set_nonempty (blacklist j) || hwm_on hwm = true →
  filter_exn (can_run hwm s j) (i :: av) = inr [] →
  dep_all (follow j) = true →
  follow_dests s j = inr dests →
  maybe_run hwm scheme fuel r s
  = (if bool_decide (1 < size dests)%nat then
       modify (set_queue_map (<[msg_id j := r]> (queue_map s)));;
       fail_unreachable hwm scheme fuel (msg_id j) ImpossibleDependency;;
       mret false
     else if set_nonempty (job_targets j) then
       update_job r (with_job_targets (job_targets j ∖ blacklist j));;
       if bool_decide (job_targets j ∖ blacklist j = ∅)
          || bool_decide ((job_targets j ∖ blacklist j) ∩ list_to_set (targets s) = ∅)
       then
         modify (λ s', set_queue_map (<[msg_id j := r]> (queue_map s')) s');;
         fail_unreachable hwm scheme fuel (msg_id j) ImpossibleDependency;;
         mret false
       else mret false
     else mret false) s.
Proof.
  intros Hj Hav Hneed Hfil Hall Hd. unfold maybe_run, maybe_run_with.
  rewrite (bind_run (deref r) _ s s j) by (unfold deref; by rewrite Hj).
  rewrite (bind_run get _ s s s) by done.
  rewrite (bind_run (lift (available_engines hwm s)) _ s s (i :: av)) by (by rewrite Hav).
  rewrite Hneed.
  rewrite (bind_run (lift (filter_exn (can_run hwm s j) (i :: av))) _ s s [])
    by (by rewrite Hfil).
  rewrite Hall. rewrite bind_assoc_run.
  rewrite (bind_run (lift (follow_dests s j)) _ s s dests) by (by rewrite Hd).
  destruct (bool_decide (1 < size dests)%nat).
  - rewrite bind_assoc_run. erewrite (bind_run (modify _)) by reflexivity.
    rewrite bind_ret_run. symmetry. erewrite (bind_run (modify _)) by reflexivity.
    reflexivity.
  - rewrite (bind_run (mret false) _ s s false) by done. reflexivity.
Qed.

(** C5 (amended). When the filter of [maybe_run] leaves no engine,
    [follow.all] is set and each finished id of [follow] has its engine in
    [destinations], the job goes to [fail_unreachable] with
    [ImpossibleDependency], and [maybe_run] returns false, when those ids
    ran on more than one engine, and also when the job has targets of
    which, the blacklist taken out, none is a registered engine; when no
    exception ends the call, the client has the reply and the id is in
    [all_failed].  In every other case [maybe_run] returns false and the
    job is not failed: no reply, not in [all_failed], not tombstoned. *)
Theorem maybe_run_no_candidate fuel r s j i av dests :
  jobs s !! r = Some j →
  available_engines hwm s = inr (i :: av) →
  dep_nonempty (follow j) || set_nonempty (job_targets j)
    || set_nonempty (blacklist j) || hwm_on hwm = true →
  filter_exn (can_run hwm s j) (i :: av) = inr [] →
  dep_all (follow j) = true →
  follow_dests s j = inr dests →
  let out := maybe_run hwm scheme fuel r s in
  let m := msg_id j in
  let failed_from s1 :=
    out = (fail_unreachable hwm scheme fuel m ImpossibleDependency;; mret false)
            (set_queue_map (<[m := r]> (queue_map s1)) s1) ∧
    (¬ raises out.2 →
     (∃ evs, trace out.1 = trace s ++ ErrorReply m ImpossibleDependency (idents j)
                                    :: MonOuttask m :: evs) ∧
     m ∈ all_failed out.1) in
  ((1 < size dests)%nat → failed_from s) ∧
  ((size dests ≤ 1)%nat → targets_exhausted s j →
   failed_from (set_jobs (alter (with_job_targets (job_targets j ∖ blacklist j)) r
                            (jobs s)) s)) ∧
  (¬ ((1 < size dests)%nat ∨ targets_exhausted s j) →
   out.2 = Done false ∧ trace out.1 = trace s ∧ all_failed out.1 = all_failed s ∧
   queue_map out.1 = queue_map s ∧ removed <$> jobs out.1 !! r = Some (removed j)).
Proof.
  intros Hj Hav Hneed Hfil Hall Hd out m. subst out m. cbv zeta.
  rewrite (maybe_run_no_engine fuel r s j i av dests) by done.
  assert (∀ s1 j1, jobs s1 !! r = Some j1 → idents j1 = idents j → trace s1 = trace s →
            let c := (fail_unreachable hwm scheme fuel (msg_id j) ImpossibleDependency;;
                      mret false) in
            let s2 := set_queue_map (<[msg_id j := r]> (queue_map s1)) s1 in
            ¬ raises (c s2).2 →
            (∃ evs, trace (c s2).1 = trace s ++ ErrorReply (msg_id j) ImpossibleDependency
                                                  (idents j) :: MonOuttask (msg_id j) :: evs) ∧
            msg_id j ∈ all_failed (c s2).1) as Hfail.
  { intros s1 j1 Hj1 Hid Ht c s2 Hn. subst c.
    destruct (then_ret_outcome
                (fail_unreachable hwm scheme fuel (msg_id j) ImpossibleDependency) false s2)
      as [-> Hr].
    destruct (fail_unreachable_outcome fuel (msg_id j) ImpossibleDependency s2 r j1)
      as (_ & _ & Hrest).
    { subst s2. cbn. apply lookup_insert_eq. }
    { exact Hj1. }
    destruct Hrest as (He & Hf & _); [right; intros H; apply Hn, Hr, H|].
    split; [|exact Hf]. rewrite Hid in He. subst s2. cbn in He. by rewrite <- Ht. }
  split_and!.
  - intros Hsz. rewrite bool_decide_eq_true_2 by done.
    erewrite (bind_run (modify _)) by reflexivity.
    split; [reflexivity|]. by apply (Hfail s j).
  - intros Hsz (Hne & Hex). rewrite bool_decide_eq_false_2 by lia.
    rewrite (set_nonempty_true _ Hne).
    erewrite (bind_run (update_job _ _)) by reflexivity.
    assert (bool_decide (job_targets j ∖ blacklist j = ∅)
            || bool_decide ((job_targets j ∖ blacklist j) ∩ list_to_set (targets s) = ∅)
            = true) as ->.
    { apply orb_true_iff. destruct Hex; [left | right]; by apply bool_decide_eq_true_2. }
    erewrite (bind_run (modify _)) by reflexivity.
    split; [reflexivity|].
    apply (Hfail _ (with_job_targets (job_targets j ∖ blacklist j) j)); [|done..].
    cbn. by rewrite lookup_alter_eq, Hj.
  - intros Hn. rewrite bool_decide_eq_false_2 by tauto.
    destruct (set_nonempty (job_targets j)) eqn:Hne.
    + assert (job_targets j ≠ ∅) as Hne'.
      { unfold set_nonempty in Hne. by apply negb_true_iff, bool_decide_eq_false_1 in Hne. }
      erewrite (bind_run (update_job _ _)) by reflexivity.
      rewrite orb_false_intro.
      * cbn. rewrite lookup_alter_eq, Hj. done.
      * apply bool_decide_eq_false_2. intros H. apply Hn. right. split; [done | by left].
      * apply bool_decide_eq_false_2. intros H. apply Hn. right. split; [done | by right].
    + cbn. by rewrite Hj.
Qed.

End Failing.

(** ** The further theorems at concrete schedulers *)

Lemma leastload_first_minimum_witness :
  let loads : list Z := [2; 1; 3; 1] in
  ∃ m, loads !! leastload loads = Some m ∧
       (∀ l, l ∈ loads → m ≤ l) ∧
       (∀ i l, (i < leastload loads)%nat → loads !! i = Some l → m < l).
Proof. apply (leastload_first_minimum [2; 1; 3; 1]). discriminate. Defined.

Section MoreConcrete.
Local Open Scope string_scope.

(** A second reply for [t0], which has completed: only the load of [A]
    changes. *)
Lemma stray_result_dropped_witness :
  dispatch_result 1 pick_leastload 20 3 (ok_reply "A" "t0") one_done
  = (set_loads [-1] one_done, Done tt).
Proof.
  apply (stray_result_dropped 1 pick_leastload 20 3 (ok_reply "A" "t0") one_done).
  - vm_compute. reflexivity.
  - discriminate.
Defined.

Lemma final_result_relayed_once_witness :
  let s1 := (dispatch_result 1 pick_leastload 20 2 (ok_reply "A" "t1") pending_on_A).1 in
  (∃ evs, trace s1 = (trace pending_on_A ++ Relay "client" "A" "t1" true :: evs)%list) ∧
  retries s1 !! "t1" = None ∧
  ∀ fuel' now' res',
    res_msg_id res' = "t1" → md_dependencies_met res' ≠ Some false →
    trace (dispatch_result 1 pick_leastload fuel' now' res' s1).1 = trace s1.
Proof.
  apply (final_result_relayed_once 1 pick_leastload 20 2 (ok_reply "A" "t1") pending_on_A 0).
  - vm_compute. lia.
  - vm_compute. reflexivity.
  - discriminate.
  - left. reflexivity.
Defined.

Lemma register_unregister_round_trip_witness :
  let s1 := (register_engine 1 pick_leastload 2 "B" one_done).1 in
  (register_engine 1 pick_leastload 2 "B" one_done).2 = Done tt ∧
  unregister_engine 5 "B" s1
  = (set_pending (<["B" := ∅]> (pending one_done))
       (set_failed (delete "B" (failed one_done))
          (set_completed (delete "B" (completed one_done)) one_done)), Done tt).
Proof.
  apply (register_unregister_round_trip 1 pick_leastload 2 5 "B" one_done).
  - vm_compute. reflexivity.
  - lia.
Defined.

Lemma save_unmet_parks_witness :
  let out := save_unmet 7 0%nat timed_parked in
  out.2 = Done tt ∧
  queue out.1 = (queue timed_parked ++ [0%nat])%list ∧
  queue_map out.1 = <["t1" := 0%nat]> (queue_map timed_parked) ∧
  listed_under "t1" (dependents timed_job ∖ all_done timed_parked)
    (graph timed_parked) (graph out.1) ∧
  trace out.1 = (trace timed_parked ++ [AddTimeout 12 (JobTimeout 0%nat 2%nat)])%list ∧
  jobs out.1 = <[0%nat := armed timed_job]> (jobs timed_parked).
Proof.
  apply (save_unmet_parks 7 0%nat timed_parked timed_job).
  vm_compute. reflexivity.
Defined.

Lemma reparked_job_ignores_old_timer_witness :
  let s1 := (save_unmet 7 0%nat timed_parked).1 in
  let s2 := (save_unmet 9 0%nat s1).1 in
  AddTimeout 12 (JobTimeout 0%nat 2%nat) ∈ trace s1 ∧
  job_timeout 1 pick_leastload 20 0%nat 2%nat s2 = (s2, Done tt).
Proof.
  apply (reparked_job_ignores_old_timer 1 pick_leastload 20 7 9 0%nat timed_parked
           timed_job 5).
  - vm_compute. reflexivity.
  - reflexivity.
  - lia.
Defined.

Lemma submission_without_engines_parks_witness :
  let sub := with_timeout 5 (task "t1") in
  let j := new_job 1 sub MET in
  let out := dispatch_submission 1 pick_leastload 20 1 sub initial in
  out.2 = Done tt ∧
  trace out.1 = [MonIntask ["t1"]; AddTimeout 6 (JobTimeout 0%nat 1%nat)] ∧
  queue out.1 = [0%nat] ∧
  queue_map out.1 = <["t1" := 0%nat]> (queue_map initial) ∧
  jobs out.1 = <[0%nat := armed j]> (jobs initial) ∧
  listed_under "t1" (dependents j ∖ all_done initial) (graph initial) (graph out.1) ∧
  retries out.1 = <["t1" := 0]> (retries initial) ∧
  all_ids out.1 = {["t1"]} ∪ all_ids initial.
Proof.
  apply (submission_without_engines_parks 1 pick_leastload 20 1
           (with_timeout 5 (task "t1")) initial).
  - reflexivity.
  - left. vm_compute. reflexivity.
  - left. vm_compute. reflexivity.
  - vm_compute. discriminate.
Defined.

(** The job goes to [B], the first of the two idle engines. *)
Lemma maybe_run_dispatches_witness :
  maybe_run 1 pick_leastload 20 0%nat idle_pair
  = (dispatched idle_pair 0%nat pending_job 0%nat "B" 0 ∅, Done true).
Proof.
  apply (maybe_run_dispatches 1 pick_leastload 20 0%nat idle_pair pending_job
           0%nat [1%nat] [0; 0] 0%nat "B" 0 ∅); vm_compute; reflexivity.
Defined.

(** [B], with a job, comes first in the line; the job goes to the idle
    [A]. *)
Lemma leastload_dispatch_witness :
  ∃ pos idx target l p,
    maybe_run 2 (λ _, leastload) 20 2%nat B_first
    = (dispatched B_first 2%nat pending_job idx target l p, Done true) ∧
    [0%nat; 1%nat] !! pos = Some idx ∧ targets B_first !! idx = Some target ∧
    loads B_first !! idx = Some l ∧
    (∀ k l', k ∈ [0%nat; 1%nat] → loads B_first !! k = Some l' → (l ≤ l')%Z) ∧
    (∀ a k l', (a < pos)%nat → [0%nat; 1%nat] !! a = Some k →
               loads B_first !! k = Some l' → (l < l')%Z).
Proof.
  apply (leastload_dispatch 2 20 2%nat B_first pending_job 0%nat [1%nat]).
  - vm_compute. reflexivity.
  - vm_compute. reflexivity.
  - vm_compute. reflexivity.
  - apply Forall_forall. repeat constructor; vm_compute; eauto.
Defined.

Lemma B_first_line :
  targets B_first = ["B"; "A"] ∧ loads B_first = [1; 0] ∧
  (maybe_run 2 (λ _, leastload) 20 2%nat B_first).1
  = dispatched B_first 2%nat pending_job 1%nat "A" 0 ∅.
Proof. by vm_compute. Qed.

(** One dispatch, and the sum of the loads is one higher. *)
Lemma placing_counts_dispatches_witness :
  let c := maybe_run 1 pick_leastload 20 0%nat in
  parallel (c idle_pair).1 ∧ targets (c idle_pair).1 ≡ₚ targets idle_pair ∧
  total_load (c idle_pair).1
  = total_load idle_pair + Z.of_nat (dispatches (new_events c idle_pair)).
Proof.
  apply (proj1 (placing_counts_dispatches 1 pick_leastload 20 idle_pair
                  ltac:(vm_compute; reflexivity)) 0%nat).
Defined.

Lemma reachable_parallel_witness : parallel one_done.
Proof. apply (reachable_parallel 1 pick_leastload one_done), reachable_one_done. Defined.

Lemma reachable_recorded_witness :
  all_done one_done = all_completed one_done ∪ all_failed one_done ∧
  all_completed one_done ⊆ dom (destinations one_done).
Proof. apply (reachable_recorded 1 pick_leastload one_done), reachable_one_done. Defined.

Lemma reachable_live_one_waiting : reachable_live 1 pick_leastload one_waiting.
Proof.
  unfold one_waiting, run. cbn [foldl].
  repeat (apply live_step; [| exact I | by vm_compute]). apply live_initial.
Qed.

Lemma reachable_graph_registered_witness :
  (∀ m r j mid, queue_map one_waiting !! m = Some r → jobs one_waiting !! r = Some j →
                mid ∈ dependents j → mid ∉ all_done one_waiting →
                ∃ g, graph one_waiting !! mid = Some g ∧ m ∈ g) ∧
  (∀ mid, mid ∈ all_done one_waiting → graph one_waiting !! mid = None).
Proof.
  apply (reachable_graph_registered 1 pick_leastload one_waiting),
    reachable_live_one_waiting.
Defined.

Lemma update_graph_terminates_witness :
  (∀ d b, (update_graph 1 pick_leastload 9 d b two_parked).2 ≠ OutOfFuel) ∧
  (∀ m why, (fail_unreachable 1 pick_leastload 9 m why two_parked).2 ≠ OutOfFuel) ∧
  (∀ r, (maybe_run 1 pick_leastload 9 r two_parked).2 ≠ OutOfFuel).
Proof.
  apply (update_graph_terminates 1 pick_leastload 9 two_parked).
  vm_compute. lia.
Defined.

(** The only engine refuses [t1], which may run on [A] or [B]. *)
Lemma result_retries_and_blacklist_witness :
  let out := dispatch_result 1 pick_leastload 20 2 (refusal "A" "t1") pending_on_A in
  retries out.1 = retries pending_on_A ∧
  blacklist <$> jobs out.1 !! 0%nat = Some ({["A"]} ∪ blacklist pending_job) ∧
  out = log_errors (resubmit 1 pick_leastload 20 2 "t1" 0%nat;;
                    rescan_if_freed 1 pick_leastload 20 "A")
          (refused_by "A" "t1" 0%nat
             (set_retries (retries pending_on_A) (unloaded "A" pending_on_A))) ∧
  ({["A"]} ∪ blacklist pending_job = job_targets pending_job →
   ¬ raises (dispatch_result_body 1 pick_leastload 20 2 (refusal "A" "t1") pending_on_A).2 →
   (∃ evs, trace out.1 = (trace pending_on_A
                          ++ ErrorReply "t1" ImpossibleDependency (idents pending_job)
                             :: MonOuttask "t1" :: evs)%list) ∧
   "t1" ∈ all_failed out.1).
Proof.
  apply (result_retries_and_blacklist 1 pick_leastload 20 2 (refusal "A" "t1")
           pending_on_A {["t1" := 0%nat]} 0%nat pending_job).
  - vm_compute. lia.
  - vm_compute. reflexivity.
  - vm_compute. reflexivity.
  - vm_compute. reflexivity.
Defined.

(** A submission that waits for the unknown [t7]. *)
Lemma faulty_submission_fails_witness :
  let sub := with_after (on_success ["t7"] true) (task "t1") in
  let r := new_ref one_done in
  let body := dispatch_submission_body 1 pick_leastload 20 3 sub one_done in
  let s' := (dispatch_submission 1 pick_leastload 20 3 sub one_done).1 in
  body = fail_unreachable 1 pick_leastload 20 "t1" InvalidDependency
           (set_queue_map (<["t1" := r]> (queue_map one_done)) (entered 3 sub one_done)) ∧
  (∃ evs, trace s' = (trace one_done ++ MonIntask ["t1"] :: evs)%list ∧
          Forall (not_dispatch r) evs) ∧
  idle r s' ∧
  (¬ raises body.2 →
   (∃ evs, trace s' = (trace one_done ++ MonIntask ["t1"]
                         :: ErrorReply "t1" InvalidDependency ["client"]
                         :: MonOuttask "t1" :: evs)%list) ∧
   "t1" ∈ all_failed s').
Proof.
  apply (faulty_submission_fails 1 pick_leastload 20 3
           (with_after (on_success ["t7"] true) (task "t1")) one_done InvalidDependency).
  - left. split; [by vm_compute|]. left. split; [|done]. right.
    intros H. specialize (H "t7"). vm_compute in H.
    assert ("t7" ∈ ({["t1"; "t0"]} : gset string)) as Hin by (apply H; set_solver).
    set_solver.
  - split_and!.
    + intros r. vm_compute. intros H. by apply elem_of_nil in H.
    + intros m r. vm_compute. done.
    + intros e p m r.
      assert (pending one_done = {["A" := ∅]}) as -> by (vm_compute; reflexivity).
      intros [_ <-]%lookup_singleton_Some. by rewrite lookup_empty.
Defined.

(** [t3] follows [t1], which ran on [B], and [t2], which ran on [A]. *)
Lemma maybe_run_no_candidate_witness :
  let r := new_ref apart in
  let out := maybe_run 1 pick_leastload 20 r apart_call in
  out = (fail_unreachable 1 pick_leastload 20 "t3" ImpossibleDependency;; mret false)
          (set_queue_map (<["t3" := r]> (queue_map apart_call)) apart_call) ∧
  (¬ raises out.2 →
   (∃ evs, trace out.1 = (trace apart_call
                          ++ ErrorReply "t3" ImpossibleDependency ["client"]
                             :: MonOuttask "t3" :: evs)%list) ∧
   "t3" ∈ all_failed out.1).
Proof.
  apply (proj1 (maybe_run_no_candidate 1 pick_leastload 20 (new_ref apart) apart_call
                  (new_job 5 follows_apart MET) 0%nat [1%nat] {["A"; "B"]}
                  ltac:(vm_compute; reflexivity) ltac:(vm_compute; reflexivity)
                  ltac:(vm_compute; reflexivity) ltac:(vm_compute; reflexivity)
                  ltac:(vm_compute; reflexivity) ltac:(vm_compute; reflexivity))).
  vm_compute. lia.
Defined.

(** The timer of the parked task [t1] fires. *)
Lemma job_timeout_spec_witness :
  let s' := (job_timeout 1 pick_leastload 20 0%nat 1%nat timed_parked).1 in
  (∃ evs, trace s' = (trace timed_parked
                      ++ ErrorReply "t1" TaskTimeout ["client"]
                         :: MonOuttask "t1" :: evs)%list) ∧
  queue_map s' !! "t1" = None ∧
  "t1" ∈ all_failed s' ∧ "t1" ∈ all_done s' ∧
  removed <$> jobs s' !! 0%nat = Some true.
Proof.
  refine (proj2 (proj2 (job_timeout_spec 1 pick_leastload 20 0%nat 1%nat timed_parked
                         timed_job ltac:(vm_compute; reflexivity)))
           reachable_live_timed_parked (ex_intro _ 6 _) eq_refl 0%nat timed_job _ _).
  - apply (list_elem_of_lookup_2 _ 1%nat). vm_compute. reflexivity.
  - vm_compute. reflexivity.
  - vm_compute. reflexivity.
Defined.

End MoreConcrete.
